(** * MovieLens ELT pipeline: a shallow embedding and its verification

    The pipeline (scripts/load_staging.py, transform_data.py, data_quality.py,
    create_warehouse.py, run_analytics.py) is a sequence of SQL statements
    issued through a database client.  The development below embeds

    - the SQL expressions and queries of the transformer and of the warehouse
      builder as executable functions over lists of rows (PostgreSQL
      semantics: three-valued NULLs as [option], [ORDER BY ... DESC] placing
      NULLs first, [SELECT DISTINCT] over whole rows);
    - the Python functions around them in a state-and-exception monad over a
      world made of the database catalog, the file system, the log and the
      record of database round-trips.

    Conventions.  A text is the sequence of the bytes of its UTF-8 encoding,
    and the character classes of the regular expressions are those of the C
    locale.  A connection of the client runs a transaction that only
    [conn.commit()], or the end of a [with engine.begin()] block, makes
    durable, and that closing the connection discards otherwise; [to_sql]
    commits what it writes.  A sort keeps rows with equal keys in their stored
    order. *)

From stdpp Require Import gmap strings list sorting.
From Stdlib Require Import ZArith QArith Qround Lqa Ascii.

#[local] Open Scope string_scope.
#[local] Open Scope Z_scope.
#[local] Open Scope list_scope.

Abbreviation list_ascii_of_string := String.list_ascii_of_string.
Abbreviation string_of_list_ascii := String.string_of_list_ascii.

(** ** SQL scalar functions on text *)

Module Sql.

(** [TRIM(s)] removes blanks (the space character only) from both ends. *)
Fixpoint ltrim (l : list ascii) : list ascii :=
  match l with
  | c :: l' => if Ascii.eqb c " " then ltrim l' else l
  | [] => []
  end.

Definition TRIM (s : string) : string :=
  string_of_list_ascii (rev (ltrim (rev (ltrim (list_ascii_of_string s))))).

(** The class [\d] (and [[0-9]]) of the regular expressions. *)
Definition is_digit (c : ascii) : bool :=
  let n := nat_of_ascii c in (48 <=? n)%nat && (n <=? 57)%nat.

(** The class [\s], as the C locale classifies characters: blank, tab, line
    feed, vertical tab, form feed, carriage return.  (Under another locale
    the class also holds the white space that this locale knows outside
    ASCII.) *)
Definition is_space (c : ascii) : bool :=
  let n := nat_of_ascii c in (n =? 32)%nat || ((9 <=? n)%nat && (n <=? 13)%nat).

Definition digit_value (c : ascii) : Z := Z.of_nat (nat_of_ascii c) - 48.

(** [s ~ '\(\d{4}\)$']: the text ends with an opening parenthesis, four
    digits and a closing parenthesis.  [$] only matches at the very end of the
    text, so nothing may follow the closing parenthesis. *)
Definition matches_year (s : string) : bool :=
  match rev (list_ascii_of_string s) with
  | c6 :: d4 :: d3 :: d2 :: d1 :: c1 :: _ =>
      Ascii.eqb c1 "(" && is_digit d1 && is_digit d2 && is_digit d3
      && is_digit d4 && Ascii.eqb c6 ")"
  | _ => false
  end.

(** [SUBSTRING(s FROM '\(([0-9]{4})\)$')]: the text captured by the
    parenthesised group, NULL when the pattern does not match. *)
Definition SUBSTRING_year (s : string) : option string :=
  match rev (list_ascii_of_string s) with
  | c6 :: d4 :: d3 :: d2 :: d1 :: c1 :: _ =>
      if Ascii.eqb c1 "(" && is_digit d1 && is_digit d2 && is_digit d3
         && is_digit d4 && Ascii.eqb c6 ")"
      then Some (string_of_list_ascii [d1; d2; d3; d4])
      else None
  | _ => None
  end.

(** [CAST(s AS INTEGER)] on a text made of decimal digits. *)
Definition CAST_INTEGER (s : string) : Z :=
  fold_left (fun acc c => 10 * acc + digit_value c) (list_ascii_of_string s) 0.

Fixpoint drop_spaces (l : list ascii) : list ascii :=
  match l with
  | c :: l' => if is_space c then drop_spaces l' else l
  | [] => []
  end.

(** [REGEXP_REPLACE(s, '\s*\([0-9]{4}\)$', '')]: the leftmost match starts
    at the beginning of the white space that precedes the parenthesis; the
    text is unchanged when the pattern does not match. *)
Definition REGEXP_REPLACE_year (s : string) : string :=
  match rev (list_ascii_of_string s) with
  | c6 :: d4 :: d3 :: d2 :: d1 :: c1 :: before =>
      if Ascii.eqb c1 "(" && is_digit d1 && is_digit d2 && is_digit d3
         && is_digit d4 && Ascii.eqb c6 ")"
      then string_of_list_ascii (rev (drop_spaces before))
      else s
  | _ => s
  end.

(** [COALESCE(x, d)]. *)
Definition COALESCE {A} (x d : option A) : option A :=
  match x with Some v => Some v | None => d end.

(** [string_to_array(s, '|')]: the fields between the delimiters; the empty
    text gives the empty array. *)
Fixpoint split_on (d : ascii) (l : list ascii) (cur : list ascii)
  : list (list ascii) :=
  match l with
  | [] => [rev cur]
  | c :: l' =>
      if Ascii.eqb c d then rev cur :: split_on d l' [] else split_on d l' (c :: cur)
  end.

Definition string_to_array (s : string) : list string :=
  match s with
  | EmptyString => []
  | _ => map string_of_list_ascii (split_on "|" (list_ascii_of_string s) [])
  end.

(** [SELECT DISTINCT]: whole rows are compared, NULLs being equal to each
    other; one row of each class is kept. *)
Definition DISTINCT {A} `{EqDecision A} (l : list A) : list A := remove_dups l.

(** Insertion of a row in a list sorted by [le], after the rows it is not
    strictly before: the sort is stable. *)
Fixpoint insert_sorted {A} (le : A → A → bool) (x : A) (l : list A) : list A :=
  match l with
  | [] => [x]
  | y :: l' => if le y x then y :: insert_sorted le x l' else x :: l
  end.

(** [ORDER BY]: a stable sort. *)
Definition ORDER_BY {A} (le : A → A → bool) (l : list A) : list A :=
  foldr (fun x acc => insert_sorted le x acc) [] (rev l).

(** Ascending keys: NULLs last. *)
Definition asc_le (a b : option Z) : bool :=
  match a, b with
  | Some x, Some y => x <=? y
  | Some _, None => true
  | None, Some _ => false
  | None, None => true
  end.

(** Descending keys: NULLs first, as PostgreSQL sorts a NULL as larger than
    every value. *)
Definition desc_le (a b : option Z) : bool :=
  match a, b with
  | Some x, Some y => y <=? x
  | Some _, None => false
  | None, Some _ => true
  | None, None => true
  end.

(** [SELECT DISTINCT ON (key)]: of the sorted rows, the first of each run of
    rows with the same key is kept. *)
Fixpoint distinct_on {A K} `{EqDecision K} (key : A → K) (prev : option K)
  (l : list A) : list A :=
  match l with
  | [] => []
  | x :: l' =>
      if decide (prev = Some (key x)) then distinct_on key prev l'
      else x :: distinct_on key (Some (key x)) l'
  end.

End Sql.

Import Sql.

(** ** Relations

    A column that the database lets be NULL is an [option].  The staging
    relations mirror the source files and have no constraint.  Identifiers and
    timestamps are integers, ratings are rationals, titles and genre lists are
    texts.  A value of type timestamp with time zone is represented by its
    number of seconds since the epoch.  The column [created_at] of the
    warehouse relations (the time of the insertion) is left out. *)

Record staging_movie := StagingMovie {
  sm_movieId : option Z;
  sm_title : option string;
  sm_genres : option string }.

Record staging_rating := StagingRating {
  sr_userId : option Z;
  sr_movieId : option Z;
  sr_rating : option Q;
  sr_timestamp : option Z }.

Record cleaned_movie := CleanedMovie {
  cm_movieId : option Z;
  cm_title : option string;
  cm_release_year : option Z;
  cm_clean_title : option string;
  cm_genres : option string }.

Record cleaned_rating := CleanedRating {
  cr_userId : option Z;
  cr_movieId : option Z;
  cr_rating : option Q;
  cr_rating_timestamp : option Z;
  cr_rating_datetime : option Z }.

Record dim_movie := DimMovie {
  dm_movie_key : Z;
  dm_movie_id : Z;
  dm_title : string;
  dm_clean_title : option string;
  dm_release_year : option Z }.

Record dim_genre := DimGenre {
  dg_genre_key : Z;
  dg_genre_name : string }.

Record dim_user := DimUser {
  du_user_key : Z;
  du_user_id : Z }.

Record bridge_movie_genre := BridgeRow {
  bmg_movie_id : Z;
  bmg_genre_key : Z }.

Record fact_rating := FactRating {
  fr_rating_key : Z;
  fr_user_id : Z;
  fr_movie_id : Z;
  fr_rating : Q;
  fr_rating_timestamp : option Z;
  fr_rating_datetime : option Z }.

#[global] Instance staging_movie_eq_dec : EqDecision staging_movie.
Proof. solve_decision. Defined.
#[global] Instance cleaned_movie_eq_dec : EqDecision cleaned_movie.
Proof. solve_decision. Defined.
#[global] Instance bridge_movie_genre_eq_dec : EqDecision bridge_movie_genre.
Proof. solve_decision. Defined.

(** The content of a relation, tagged with its columns. *)
Inductive Table :=
| TStagingMovies (rows : list staging_movie)
| TStagingRatings (rows : list staging_rating)
| TCleanedMovies (rows : list cleaned_movie)
| TCleanedRatings (rows : list cleaned_rating)
| TDimMovies (rows : list dim_movie)
| TDimGenres (rows : list dim_genre)
| TDimUsers (rows : list dim_user)
| TBridge (rows : list bridge_movie_genre)
| TFactRatings (rows : list fact_rating)
| TText (header : list string) (records : list (list string)).

(** The catalog: relation name to content. *)
Abbreviation DB := (gmap string Table).

(** ** Movie cleaning: the query of [clean_movies_table] *)

(** The select list of
<<
  SELECT DISTINCT "movieId", TRIM(title) as title,
    CASE WHEN title ~ '\(\d{4}\)$'
         THEN CAST(SUBSTRING(title FROM '\(([0-9]{4})\)$') AS INTEGER)
         ELSE NULL END as release_year,
    CASE WHEN title ~ '\(\d{4}\)$'
         THEN TRIM(REGEXP_REPLACE(title, '\s*\([0-9]{4}\)$', ''))
         ELSE TRIM(title) END as clean_title,
    COALESCE(TRIM(genres), 'Unknown') as genres
>>
    A NULL title makes the condition of both CASE expressions NULL, which
    selects their ELSE branch. *)
Definition release_year_of (title : option string) : option Z :=
  match title with
  | Some t => if matches_year t then CAST_INTEGER <$> SUBSTRING_year t else None
  | None => None
  end.

Definition clean_title_of (title : option string) : option string :=
  match title with
  | Some t => if matches_year t then Some (TRIM (REGEXP_REPLACE_year t))
              else Some (TRIM t)
  | None => None
  end.

Definition clean_movie (r : staging_movie) : cleaned_movie :=
  {| cm_movieId := sm_movieId r;
     cm_title := TRIM <$> sm_title r;
     cm_release_year := release_year_of (sm_title r);
     cm_clean_title := clean_title_of (sm_title r);
     cm_genres := COALESCE (TRIM <$> sm_genres r) (Some "Unknown") |}.

(** [... FROM staging_movies WHERE "movieId" IS NOT NULL] *)
Definition select_cleaned_movies (staging : list staging_movie)
  : list cleaned_movie :=
  DISTINCT (map clean_movie
              (filter (fun r => is_Some (sm_movieId r)) staging)).

(** ** Rating cleaning: the query of [clean_ratings_table] *)

(** [WHERE "userId" IS NOT NULL AND "movieId" IS NOT NULL AND rating IS NOT
    NULL AND rating >= 0.5 AND rating <= 5.0] *)
Definition valid_rating (r : staging_rating) : bool :=
  bool_decide (is_Some (sr_userId r)) && bool_decide (is_Some (sr_movieId r))
  && match sr_rating r with
     | Some q => Qle_bool (1 # 2) q && Qle_bool q 5
     | None => false
     end.

(** [ORDER BY "userId", "movieId", timestamp DESC] *)
Definition rating_order (a b : staging_rating) : bool :=
  if bool_decide (sr_userId a = sr_userId b) then
    if bool_decide (sr_movieId a = sr_movieId b) then
      desc_le (sr_timestamp a) (sr_timestamp b)
    else asc_le (sr_movieId a) (sr_movieId b)
  else asc_le (sr_userId a) (sr_userId b).

Definition rating_key (r : staging_rating) : option Z * option Z :=
  (sr_userId r, sr_movieId r).

(** [TO_TIMESTAMP(timestamp)]: the time [t] seconds after the epoch, NULL
    for NULL.  This is its value; the function raises out of the range of the
    type, which is part of the statement, see [create_cleaned_ratings]. *)
Definition TO_TIMESTAMP (t : option Z) : option Z := t.

(** The select list: ["userId", "movieId", rating, timestamp as
    rating_timestamp, TO_TIMESTAMP(timestamp) as rating_datetime]. *)
Definition project_rating (r : staging_rating) : cleaned_rating :=
  {| cr_userId := sr_userId r;
     cr_movieId := sr_movieId r;
     cr_rating := sr_rating r;
     cr_rating_timestamp := sr_timestamp r;
     cr_rating_datetime := TO_TIMESTAMP (sr_timestamp r) |}.

(** [SELECT DISTINCT ON ("userId", "movieId") ... FROM staging_ratings
    WHERE ... ORDER BY "userId", "movieId", timestamp DESC] *)
Definition kept_ratings (staging : list staging_rating) : list staging_rating :=
  distinct_on rating_key None
    (ORDER_BY rating_order (filter (fun r => valid_rating r = true) staging)).

Definition select_cleaned_ratings (staging : list staging_rating)
  : list cleaned_rating :=
  map project_rating (kept_ratings staging).

(** ** The world of the scripts *)

(** Exceptions raised by the database driver and by Python. *)
Inductive exn :=
| OperationalError
| UndefinedTable (relation : string)
| UndefinedColumn (relation : string)
| DuplicateTable (relation : string)
| NotNullViolation (column : string)
| UniqueViolation (constraint : string)
| StringDataRightTruncation (column : string)
| NumericValueOutOfRange (column : string)
| DatetimeFieldOverflow
| FileNotFoundError (path : string)
| TypeError
| ZeroDivisionError.

Inductive outcome (A : Type) :=
| Ok (a : A)
| Raise (e : exn).
Arguments Ok {A} a.
Arguments Raise {A} e.

Inductive level := INFO | WARNING | ERROR.

(** A log record: the level, the text of the message without the values
    formatted into it, and the exception the message reports. *)
Record log_record := LogRecord {
  lr_level : level;
  lr_message : string;
  lr_exception : option exn }.

(** The world:
    - [files] maps the path of a delimited text file to what the CSV reader
      makes of it: a header and typed records;
    - [db] is the catalog as the open connection sees it and [durable] the
      catalog as last committed; they agree outside a connection;
    - [trace] records, latest first, every round-trip to the database with
      its statement and whether it raised;
    - [faults] is the environment's part: the round-trips, by their number,
      at which the database is unreachable. *)
#[projections(primitive)]
Record World := mkWorld {
  db : DB;
  durable : DB;
  files : gmap string Table;
  log : list log_record;
  trace : list (string * bool);
  faults : list nat }.

Definition set_db (d : DB) (w : World) : World :=
  mkWorld d (durable w) (files w) (log w) (trace w) (faults w).
Definition set_durable (d : DB) (w : World) : World :=
  mkWorld (db w) d (files w) (log w) (trace w) (faults w).
Definition set_files (f : gmap string Table) (w : World) : World :=
  mkWorld (db w) (durable w) f (log w) (trace w) (faults w).
Definition add_log (r : log_record) (w : World) : World :=
  mkWorld (db w) (durable w) (files w) (r :: log w) (trace w) (faults w).
Definition add_trace (c : string * bool) (w : World) : World :=
  mkWorld (db w) (durable w) (files w) (log w) (c :: trace w) (faults w).

(** The number of database round-trips that raised. *)
Definition db_errors (w : World) : nat :=
  length (filter (fun c => c.2 = true) (trace w)).

(** ** Computations: state and exceptions *)

Definition M (A : Type) : Type := World → outcome A * World.

Definition ret {A} (a : A) : M A := fun w => (Ok a, w).

Definition bind {A B} (m : M A) (k : A → M B) : M B :=
  fun w => match m w with
           | (Ok a, w') => k a w'
           | (Raise e, w') => (Raise e, w')
           end.

Definition raise {A} (e : exn) : M A := fun w => (Raise e, w).

(** [try: body except Exception as e: handler e] *)
Definition try_except {A} (body : M A) (handler : exn → M A) : M A :=
  fun w => match body w with
           | (Ok a, w') => (Ok a, w')
           | (Raise e, w') => handler e w'
           end.

Notation "x <- m ;; k" := (bind m (fun x => k))
  (at level 100, m at next level, right associativity,
   format "'[v' x  <-  m  ;;  '/' k ']'").
Notation "m ;;; k" := (bind m (fun _ => k))
  (at level 100, right associativity, format "'[v' m  ;;;  '/' k ']'").

(** [for x in l: body x] *)
Fixpoint for_each {A} (l : list A) (body : A → M unit) : M unit :=
  match l with
  | [] => ret tt
  | x :: l' => body x ;;; for_each l' body
  end.

(** [logger.info], [logger.warning], [logger.error] *)
Definition log_info (msg : string) : M unit :=
  fun w => (Ok tt, add_log (LogRecord INFO msg None) w).
Definition log_warning (msg : string) : M unit :=
  fun w => (Ok tt, add_log (LogRecord WARNING msg None) w).
Definition log_error (msg : string) (e : exn) : M unit :=
  fun w => (Ok tt, add_log (LogRecord ERROR msg (Some e)) w).

(** [except Exception as e: logger.error(f"msg: {e}"); raise] *)
Definition log_and_reraise {A} (msg : string) (e : exn) : M A :=
  log_error msg e ;;; raise e.

(** One round-trip to the database: the statement [sql] with its meaning
    [sem] on the catalog.  The round-trip raises when the database is
    unreachable or when the statement does. *)
Definition round_trip {A} (sql : string) (sem : DB → outcome (A * DB)) : M A :=
  fun w =>
    if bool_decide (length (trace w) ∈ faults w)
    then (Raise OperationalError, add_trace (sql, true) w)
    else match sem (db w) with
         | Ok (a, d) => (Ok a, set_db d (add_trace (sql, false) w))
         | Raise e => (Raise e, add_trace (sql, true) w)
         end.

(** [conn.execute(text(sql))] *)
Definition execute {A} (sql : string) (sem : DB → outcome (A * DB)) : M A :=
  round_trip sql sem.

(** [conn.commit()] *)
Definition commit : M unit :=
  round_trip "COMMIT" (fun d => Ok (tt, d)) ;;;
  fun w => (Ok tt, set_durable (db w) w).

(** Closing a connection discards what was not committed. *)
Definition rollback : M unit :=
  fun w => (Ok tt, set_db (durable w) w).

(** [with engine.connect() as conn: body]: the connection is opened, the body
    runs in a transaction that only [commit] makes durable, and the
    connection is closed whether the body returns or raises. *)
Definition with_connect {A} (body : M A) : M A :=
  round_trip "connect" (fun d => Ok (tt, d)) ;;;
  try_except (a <- body ;; rollback ;;; ret a)
             (fun e => rollback ;;; raise e).

(** [with engine.begin() as conn: body]: as above, and the transaction is
    committed when the body returns. *)
Definition with_begin {A} (body : M A) : M A :=
  round_trip "connect" (fun d => Ok (tt, d)) ;;;
  try_except (a <- body ;; commit ;;; ret a)
             (fun e => rollback ;;; raise e).

(** ** Statements on the catalog *)

(** Exceptions in the evaluation of a statement. *)
Definition obind {A B} (m : outcome A) (k : A → outcome B) : outcome B :=
  match m with Ok a => k a | Raise e => Raise e end.

Notation "x <~ m ;; k" := (obind m (fun x => k))
  (at level 100, m at next level, right associativity,
   format "'[v' x  <~  m  ;;  '/' k ']'").

Fixpoint traverse {A B} (f : A → outcome B) (l : list A) : outcome (list B) :=
  match l with
  | [] => Ok []
  | x :: l' => y <~ f x ;; ys <~ traverse f l' ;; Ok (y :: ys)
  end.

(** A statement that reads the catalog and leaves it as it is. *)
Definition query {A} (f : DB → outcome A) (d : DB) : outcome (A * DB) :=
  a <~ f d ;; Ok (a, d).

Definition as_staging_movies (t : Table) : option (list staging_movie) :=
  match t with TStagingMovies rows => Some rows | _ => None end.
Definition as_staging_ratings (t : Table) : option (list staging_rating) :=
  match t with TStagingRatings rows => Some rows | _ => None end.
Definition as_cleaned_movies (t : Table) : option (list cleaned_movie) :=
  match t with TCleanedMovies rows => Some rows | _ => None end.
Definition as_cleaned_ratings (t : Table) : option (list cleaned_rating) :=
  match t with TCleanedRatings rows => Some rows | _ => None end.
Definition as_dim_movies (t : Table) : option (list dim_movie) :=
  match t with TDimMovies rows => Some rows | _ => None end.
Definition as_dim_genres (t : Table) : option (list dim_genre) :=
  match t with TDimGenres rows => Some rows | _ => None end.
Definition as_dim_users (t : Table) : option (list dim_user) :=
  match t with TDimUsers rows => Some rows | _ => None end.
Definition as_bridge (t : Table) : option (list bridge_movie_genre) :=
  match t with TBridge rows => Some rows | _ => None end.
Definition as_fact_ratings (t : Table) : option (list fact_rating) :=
  match t with TFactRatings rows => Some rows | _ => None end.

(** [FROM relation]: the relation must exist and have the columns the
    statement names. *)
Definition FROM {A} (relation : string) (columns : Table → option (list A))
  (d : DB) : outcome (list A) :=
  match d !! relation with
  | None => Raise (UndefinedTable relation)
  | Some t => match columns t with
              | Some rows => Ok rows
              | None => Raise (UndefinedColumn relation)
              end
  end.

Definition cardinality (t : Table) : Z :=
  match t with
  | TStagingMovies rows => Z.of_nat (length rows)
  | TStagingRatings rows => Z.of_nat (length rows)
  | TCleanedMovies rows => Z.of_nat (length rows)
  | TCleanedRatings rows => Z.of_nat (length rows)
  | TDimMovies rows => Z.of_nat (length rows)
  | TDimGenres rows => Z.of_nat (length rows)
  | TDimUsers rows => Z.of_nat (length rows)
  | TBridge rows => Z.of_nat (length rows)
  | TFactRatings rows => Z.of_nat (length rows)
  | TText _ records => Z.of_nat (length records)
  end.

(** [SELECT COUNT( * ) FROM relation] *)
Definition SELECT_COUNT (relation : string) : DB → outcome (Z * DB) :=
  query (fun d => match d !! relation with
                  | Some t => Ok (cardinality t)
                  | None => Raise (UndefinedTable relation)
                  end).

(** [DROP TABLE IF EXISTS relation] *)
Definition DROP_TABLE_IF_EXISTS (relation : string) (d : DB)
  : outcome (unit * DB) :=
  Ok (tt, delete relation d).

(** [CREATE TABLE relation ...]: the name must be free. *)
Definition CREATE_TABLE (relation : string) (content : Table) (d : DB)
  : outcome (unit * DB) :=
  match d !! relation with
  | Some _ => Raise (DuplicateTable relation)
  | None => Ok (tt, <[relation := content]> d)
  end.

(** [SUM(CASE WHEN c THEN 1 ELSE 0 END)]: NULL over no row. *)
Definition SUM_CASE {A} (c : A → bool) (rows : list A) : option Z :=
  match rows with
  | [] => None
  | _ => Some (Z.of_nat (length (filter (fun r => c r = true) rows)))
  end.

Definition is_null {A} (x : option A) : bool :=
  match x with None => true | Some _ => false end.

(** *** transform_data.py: statements

    The text of each statement is kept next to its meaning; it is the text of
    the source on one line, with the quoted identifiers written bare. *)

Definition sql_movies_nulls : string :=
  "SELECT COUNT(*) as total_rows, SUM(CASE WHEN movieId IS NULL THEN 1 ELSE 0 END) as null_movieid, SUM(CASE WHEN title IS NULL THEN 1 ELSE 0 END) as null_title, SUM(CASE WHEN genres IS NULL THEN 1 ELSE 0 END) as null_genres FROM staging_movies".

Definition movies_nulls : DB → outcome ((Z * option Z * option Z * option Z) * DB) :=
  query (fun d =>
    rows <~ FROM "staging_movies" as_staging_movies d ;;
    Ok (Z.of_nat (length rows),
        SUM_CASE (fun r => is_null (sm_movieId r)) rows,
        SUM_CASE (fun r => is_null (sm_title r)) rows,
        SUM_CASE (fun r => is_null (sm_genres r)) rows)).

Definition sql_movies_duplicates : string :=
  "SELECT COUNT(*) - COUNT(DISTINCT movieId) as duplicate_count FROM staging_movies".

Definition movies_duplicates : DB → outcome (Z * DB) :=
  query (fun d =>
    rows <~ FROM "staging_movies" as_staging_movies d ;;
    Ok (Z.of_nat (length rows)
        - Z.of_nat (length (DISTINCT (omap sm_movieId rows))))).

Definition sql_create_cleaned_movies : string :=
  "CREATE TABLE cleaned_movies AS SELECT DISTINCT movieId, TRIM(title) as title, CASE WHEN title ~ '\\(\\d{4}\\)$' THEN CAST(SUBSTRING(title FROM '\\(([0-9]{4})\\)$') AS INTEGER) ELSE NULL END as release_year, CASE WHEN title ~ '\\(\\d{4}\\)$' THEN TRIM(REGEXP_REPLACE(title, '\\s*\\([0-9]{4}\\)$', '')) ELSE TRIM(title) END as clean_title, COALESCE(TRIM(genres), 'Unknown') as genres FROM staging_movies WHERE movieId IS NOT NULL".

Definition create_cleaned_movies (d : DB) : outcome (unit * DB) :=
  rows <~ FROM "staging_movies" as_staging_movies d ;;
  CREATE_TABLE "cleaned_movies" (TCleanedMovies (select_cleaned_movies rows)) d.

Definition sql_ratings_nulls : string :=
  "SELECT COUNT(*) as total_rows, SUM(CASE WHEN userId IS NULL THEN 1 ELSE 0 END) as null_userid, SUM(CASE WHEN movieId IS NULL THEN 1 ELSE 0 END) as null_movieid, SUM(CASE WHEN rating IS NULL THEN 1 ELSE 0 END) as null_rating, SUM(CASE WHEN rating < 0.5 OR rating > 5.0 THEN 1 ELSE 0 END) as invalid_rating FROM staging_ratings".

Definition out_of_range (r : staging_rating) : bool :=
  match sr_rating r with
  | Some q => negb (Qle_bool (1 # 2) q) || negb (Qle_bool q 5)
  | None => false
  end.

Definition ratings_nulls
  : DB → outcome ((Z * option Z * option Z * option Z * option Z) * DB) :=
  query (fun d =>
    rows <~ FROM "staging_ratings" as_staging_ratings d ;;
    Ok (Z.of_nat (length rows),
        SUM_CASE (fun r => is_null (sr_userId r)) rows,
        SUM_CASE (fun r => is_null (sr_movieId r)) rows,
        SUM_CASE (fun r => is_null (sr_rating r)) rows,
        SUM_CASE out_of_range rows)).

Definition sql_ratings_duplicates : string :=
  "SELECT COUNT(*) as dup_count FROM (SELECT userId, movieId, COUNT(*) FROM staging_ratings GROUP BY userId, movieId HAVING COUNT(*) > 1) subq".

Definition ratings_duplicates : DB → outcome (Z * DB) :=
  query (fun d =>
    rows <~ FROM "staging_ratings" as_staging_ratings d ;;
    let keys := map rating_key rows in
    Ok (Z.of_nat (length (filter
          (fun k => (1 < length (filter (fun k' => k' = k) keys))%nat)
          (DISTINCT keys))))).

Definition sql_create_cleaned_ratings : string :=
  "CREATE TABLE cleaned_ratings AS SELECT DISTINCT ON (userId, movieId) userId, movieId, rating, timestamp as rating_timestamp, TO_TIMESTAMP(timestamp) as rating_datetime FROM staging_ratings WHERE userId IS NOT NULL AND movieId IS NOT NULL AND rating IS NOT NULL AND rating >= 0.5 AND rating <= 5.0 ORDER BY userId, movieId, timestamp DESC".

(** The range of [TO_TIMESTAMP]: from 4714 BC, 210866803200 seconds before
    the epoch, to the end of 294276 AD, 9224318016000 seconds after it. *)
Definition timestamp_in_range (t : Z) : bool :=
  (-210866803200 <=? t) && (t <? 9224318016000).

Definition TO_TIMESTAMP_defined (t : option Z) : outcome unit :=
  match t with
  | Some z => if timestamp_in_range z then Ok tt else Raise DatetimeFieldOverflow
  | None => Ok tt
  end.

(** The select list is evaluated on every row that passes the WHERE clause,
    before the rows are sorted: the statement raises when [TO_TIMESTAMP] is
    not defined on one of them. *)
Definition create_cleaned_ratings (d : DB) : outcome (unit * DB) :=
  rows <~ FROM "staging_ratings" as_staging_ratings d ;;
  _ <~ traverse (fun r => TO_TIMESTAMP_defined (sr_timestamp r))
         (filter (fun r => valid_rating r = true) rows) ;;
  CREATE_TABLE "cleaned_ratings" (TCleanedRatings (select_cleaned_ratings rows)) d.

Definition sql_sample_movies : string :=
  "SELECT movieId, clean_title, release_year, genres FROM cleaned_movies LIMIT 5".

Definition sample_movies : DB → outcome (list cleaned_movie * DB) :=
  query (fun d => rows <~ FROM "cleaned_movies" as_cleaned_movies d ;;
                  Ok (take 5 rows)).

Definition sql_sample_ratings : string :=
  "SELECT userId, movieId, rating, rating_datetime FROM cleaned_ratings LIMIT 5".

Definition sample_ratings : DB → outcome (list cleaned_rating * DB) :=
  query (fun d => rows <~ FROM "cleaned_ratings" as_cleaned_ratings d ;;
                  Ok (take 5 rows)).

(** ** transform_data.py *)

Definition create_engine_connection : M unit :=
  try_except
    (log_info "Database engine created successfully")
    (log_and_reraise "Failed to create database engine: ").

Definition clean_movies_table : M Z :=
  try_except
    (log_info "Cleaning staging_movies table..." ;;;
     with_connect
       (row <- execute sql_movies_nulls movies_nulls ;;
        log_info "Movies - Total rows, NULL movieId, NULL title, NULL genres" ;;;
        duplicates <- execute sql_movies_duplicates movies_duplicates ;;
        log_info "Movies - Duplicate movieIds" ;;;
        execute "DROP TABLE IF EXISTS cleaned_movies"
                (DROP_TABLE_IF_EXISTS "cleaned_movies") ;;;
        execute sql_create_cleaned_movies create_cleaned_movies ;;;
        commit ;;;
        count <- execute "SELECT COUNT(*) FROM cleaned_movies"
                         (SELECT_COUNT "cleaned_movies") ;;
        log_info "Created cleaned_movies table with rows" ;;;
        ret count))
    (log_and_reraise "Failed to clean movies table: ").

Definition clean_ratings_table : M Z :=
  try_except
    (log_info "Cleaning staging_ratings table..." ;;;
     with_connect
       (row <- execute sql_ratings_nulls ratings_nulls ;;
        log_info "Ratings - Total, NULL userId, NULL movieId, NULL rating, Invalid rating" ;;;
        duplicates <- execute sql_ratings_duplicates ratings_duplicates ;;
        log_info "Ratings - User-Movie duplicate pairs" ;;;
        execute "DROP TABLE IF EXISTS cleaned_ratings"
                (DROP_TABLE_IF_EXISTS "cleaned_ratings") ;;;
        execute sql_create_cleaned_ratings create_cleaned_ratings ;;;
        commit ;;;
        count <- execute "SELECT COUNT(*) FROM cleaned_ratings"
                         (SELECT_COUNT "cleaned_ratings") ;;
        log_info "Created cleaned_ratings table with rows" ;;;
        ret count))
    (log_and_reraise "Failed to clean ratings table: ").

Definition show_sample_data : M unit :=
  try_except
    (with_connect
       (log_info "Sample cleaned movies:" ;;;
        result <- execute sql_sample_movies sample_movies ;;
        for_each result (fun row => log_info "  Movie") ;;;
        log_info "Sample cleaned ratings:" ;;;
        result <- execute sql_sample_ratings sample_ratings ;;
        for_each result (fun row => log_info "  User rated Movie")))
    (log_and_reraise "Failed to show sample data: ").

Definition transform_main : M (Z * Z) :=
  log_info "TASK 3: Clean/Transform Staging Tables" ;;;
  create_engine_connection ;;;
  movies_count <- clean_movies_table ;;
  ratings_count <- clean_ratings_table ;;
  show_sample_data ;;;
  log_info "Task 3 completed" ;;;
  log_info "Cleaned movies" ;;;
  log_info "Cleaned ratings" ;;;
  ret (movies_count, ratings_count).

(** ** create_warehouse.py: statements *)

(** Column constraints of the warehouse relations. *)
Definition NOT_NULL {A} (column : string) (v : option A) : outcome A :=
  match v with Some a => Ok a | None => Raise (NotNullViolation column) end.

(** A column of type INTEGER holds 32-bit signed integers. *)
Definition INTEGER (column : string) (v : option Z) : outcome (option Z) :=
  match v with
  | Some z => if (-2147483648 <=? z) && (z <=? 2147483647) then Ok (Some z)
              else Raise (NumericValueOutOfRange column)
  | None => Ok None
  end.

(** A text is a sequence of bytes, the UTF-8 encoding of its characters: a
    character is a byte that is not a continuation byte (10xxxxxx), followed
    by continuation bytes. *)
Definition is_continuation (c : ascii) : bool :=
  let n := nat_of_ascii c in (128 <=? n)%nat && (n <? 192)%nat.

Fixpoint count_chars (l : list ascii) : nat :=
  match l with
  | [] => O
  | c :: l' => if is_continuation c then count_chars l' else S (count_chars l')
  end.

(** [char_length(s)]: the number of characters. *)
Definition char_length (s : string) : nat :=
  count_chars (list_ascii_of_string s).

(** The first [n] characters, and what follows them. *)
Fixpoint take_chars (n : nat) (l : list ascii) : list ascii :=
  match l with
  | [] => []
  | c :: l' =>
      if is_continuation c then c :: take_chars n l'
      else match n with
           | O => []
           | S n' => c :: take_chars n' l'
           end
  end.

Fixpoint drop_chars (n : nat) (l : list ascii) : list ascii :=
  match l with
  | [] => []
  | c :: l' =>
      if is_continuation c then drop_chars n l'
      else match n with
           | O => l
           | S n' => drop_chars n' l'
           end
  end.

(** A column of type VARCHAR(n): a text of more than [n] characters is
    refused, unless what exceeds [n] characters is blanks, which are cut
    off. *)
Definition VARCHAR (n : nat) (column : string) (v : option string)
  : outcome (option string) :=
  match v with
  | Some s =>
      let l := list_ascii_of_string s in
      if forallb (fun c => Ascii.eqb c " ") (drop_chars n l)
      then Ok (Some (string_of_list_ascii (take_chars n l)))
      else Raise (StringDataRightTruncation column)
  | None => Ok None
  end.

(** Rounding to the nearest integer, halves away from zero. *)
Definition round_half_away (q : Q) : Z :=
  if Qle_bool 0 q then Qfloor (q + (1 # 2))%Q
  else - Qfloor ((- q) + (1 # 2))%Q.

(** A column of type DECIMAL(2,1): one digit after the point, and fewer than
    ten units. *)
Definition DECIMAL_2_1 (column : string) (v : option Q) : outcome (option Q) :=
  match v with
  | Some q =>
      let tenths := round_half_away (q * 10)%Q in
      if Z.abs tenths <? 100 then Ok (Some (tenths # 10)%Q)
      else Raise (NumericValueOutOfRange column)
  | None => Ok None
  end.

(** A UNIQUE or PRIMARY KEY constraint on the key [key]. *)
Definition UNIQUE {A K} `{EqDecision K} (constraint : string) (key : A → K)
  (rows : list A) : outcome (list A) :=
  if decide (NoDup (map key rows)) then Ok rows
  else Raise (UniqueViolation constraint).

(** The values a SERIAL column takes for [n] rows inserted in a relation that
    holds [k] rows since it was created. *)
Definition SERIAL (k n : nat) : list Z :=
  map (fun i => Z.of_nat (k + i) + 1) (seq 0 n).

(** The rows of an insertion go in one after the other: a row goes through
    [check] with its serial number, which gives its columns, then [constraint]
    must hold of the relation with the row added.  The first row that is
    refused raises. *)
Fixpoint insert_rows {S A} (check : Z → S → outcome A)
  (constraint : list A → outcome (list A)) (rows : list (Z * S)) (acc : list A)
  : outcome (list A) :=
  match rows with
  | [] => Ok acc
  | (k, r) :: rows' =>
      y <~ check k r ;;
      acc' <~ constraint (acc ++ [y])%list ;;
      insert_rows check constraint rows' acc'
  end.

(** [INSERT INTO relation ... SELECT ...] *)
Definition INSERT_INTO {S A} (relation : string)
  (columns : Table → option (list A)) (wrap : list A → Table)
  (check : Z → S → outcome A) (constraint : list A → outcome (list A))
  (source : list S) (d : DB) : outcome (unit * DB) :=
  old <~ FROM relation columns d ;;
  all <~ insert_rows check constraint
           (zip (SERIAL (length old) (length source)) source) old ;;
  Ok (tt, <[relation := wrap all]> d).

Definition sql_create_dim_movies : string :=
  "CREATE TABLE dim_movies (movie_key SERIAL PRIMARY KEY, movie_id INTEGER UNIQUE NOT NULL, title VARCHAR(500) NOT NULL, clean_title VARCHAR(500), release_year INTEGER, created_at TIMESTAMP DEFAULT CURRENT_TIMESTAMP)".

Definition sql_insert_dim_movies : string :=
  "INSERT INTO dim_movies (movie_id, title, clean_title, release_year) SELECT movieId, title, clean_title, release_year FROM cleaned_movies".

Definition dim_movie_of (key : Z) (r : cleaned_movie) : outcome dim_movie :=
  movie_id <~ INTEGER "movie_id" (cm_movieId r) ;;
  title <~ VARCHAR 500 "title" (cm_title r) ;;
  clean_title <~ VARCHAR 500 "clean_title" (cm_clean_title r) ;;
  release_year <~ INTEGER "release_year" (cm_release_year r) ;;
  movie_id <~ NOT_NULL "movie_id" movie_id ;;
  title <~ NOT_NULL "title" title ;;
  Ok (DimMovie key movie_id title clean_title release_year).

Definition insert_dim_movies (d : DB) : outcome (unit * DB) :=
  rows <~ FROM "cleaned_movies" as_cleaned_movies d ;;
  INSERT_INTO "dim_movies" as_dim_movies TDimMovies dim_movie_of
    (UNIQUE "dim_movies_movie_id_key" dm_movie_id) rows d.

Definition sql_create_dim_genres : string :=
  "CREATE TABLE dim_genres (genre_key SERIAL PRIMARY KEY, genre_name VARCHAR(100) UNIQUE NOT NULL, created_at TIMESTAMP DEFAULT CURRENT_TIMESTAMP)".

Definition sql_insert_dim_genres : string :=
  "INSERT INTO dim_genres (genre_name) SELECT DISTINCT TRIM(unnest(string_to_array(genres, '|'))) as genre_name FROM cleaned_movies WHERE genres IS NOT NULL AND genres != '' ORDER BY genre_name".

(** [unnest(string_to_array(genres, '|'))]: no row for a NULL text. *)
Definition unnest_genres (genres : option string) : list string :=
  match genres with
  | Some g => string_to_array g
  | None => []
  end.

(** [genres IS NOT NULL AND genres != ''] *)
Definition has_genres (m : cleaned_movie) : bool :=
  match cm_genres m with
  | Some g => negb (String.eqb g "")
  | None => false
  end.

(** [SELECT DISTINCT TRIM(unnest(string_to_array(genres, '|'))) ... WHERE
    genres IS NOT NULL AND genres != '' ORDER BY genre_name] *)
Definition select_genre_names (movies : list cleaned_movie) : list string :=
  ORDER_BY String.leb
    (DISTINCT (map TRIM (flat_map (fun m => unnest_genres (cm_genres m))
       (filter (fun m => has_genres m = true) movies)))).

Definition dim_genre_of (key : Z) (name : string) : outcome dim_genre :=
  genre_name <~ VARCHAR 100 "genre_name" (Some name) ;;
  genre_name <~ NOT_NULL "genre_name" genre_name ;;
  Ok (DimGenre key genre_name).

Definition insert_dim_genres (d : DB) : outcome (unit * DB) :=
  rows <~ FROM "cleaned_movies" as_cleaned_movies d ;;
  INSERT_INTO "dim_genres" as_dim_genres TDimGenres dim_genre_of
    (UNIQUE "dim_genres_genre_name_key" dg_genre_name)
    (select_genre_names rows) d.

Definition sql_create_dim_users : string :=
  "CREATE TABLE dim_users (user_key SERIAL PRIMARY KEY, user_id INTEGER UNIQUE NOT NULL, created_at TIMESTAMP DEFAULT CURRENT_TIMESTAMP)".

Definition sql_insert_dim_users : string :=
  "INSERT INTO dim_users (user_id) SELECT DISTINCT userId FROM cleaned_ratings ORDER BY userId".

Definition dim_user_of (key : Z) (user : option Z) : outcome dim_user :=
  user_id <~ INTEGER "user_id" user ;;
  user_id <~ NOT_NULL "user_id" user_id ;;
  Ok (DimUser key user_id).

Definition insert_dim_users (d : DB) : outcome (unit * DB) :=
  rows <~ FROM "cleaned_ratings" as_cleaned_ratings d ;;
  INSERT_INTO "dim_users" as_dim_users TDimUsers dim_user_of
    (UNIQUE "dim_users_user_id_key" du_user_id)
    (ORDER_BY asc_le (DISTINCT (map cr_userId rows))) d.

Definition sql_create_bridge : string :=
  "CREATE TABLE bridge_movie_genres (movie_id INTEGER NOT NULL, genre_key INTEGER NOT NULL, PRIMARY KEY (movie_id, genre_key))".

Definition sql_insert_bridge : string :=
  "INSERT INTO bridge_movie_genres (movie_id, genre_key) SELECT DISTINCT m.movieId as movie_id, g.genre_key FROM cleaned_movies m CROSS JOIN LATERAL unnest(string_to_array(m.genres, '|')) as gn JOIN dim_genres g ON TRIM(gn) = g.genre_name".

(** [SELECT DISTINCT m.movieId, g.genre_key FROM cleaned_movies m CROSS JOIN
    LATERAL unnest(string_to_array(m.genres, '|')) as gn JOIN dim_genres g ON
    TRIM(gn) = g.genre_name] *)
Definition select_bridge (movies : list cleaned_movie) (genres : list dim_genre)
  : list (option Z * Z) :=
  DISTINCT
    (flat_map (fun m =>
       flat_map (fun gn =>
         map (fun g => (cm_movieId m, dg_genre_key g))
             (filter (fun g => TRIM gn = dg_genre_name g) genres))
         (unnest_genres (cm_genres m)))
       movies).

Definition bridge_row_of (key : Z) (r : option Z * Z) : outcome bridge_movie_genre :=
  movie_id <~ INTEGER "movie_id" r.1 ;;
  genre_key <~ INTEGER "genre_key" (Some r.2) ;;
  movie_id <~ NOT_NULL "movie_id" movie_id ;;
  genre_key <~ NOT_NULL "genre_key" genre_key ;;
  Ok (BridgeRow movie_id genre_key).

Definition insert_bridge (d : DB) : outcome (unit * DB) :=
  movies <~ FROM "cleaned_movies" as_cleaned_movies d ;;
  genres <~ FROM "dim_genres" as_dim_genres d ;;
  INSERT_INTO "bridge_movie_genres" as_bridge TBridge bridge_row_of
    (UNIQUE "bridge_movie_genres_pkey" (fun r => r))
    (select_bridge movies genres) d.

Definition sql_create_fact_ratings : string :=
  "CREATE TABLE fact_ratings (rating_key SERIAL PRIMARY KEY, user_id INTEGER NOT NULL, movie_id INTEGER NOT NULL, rating DECIMAL(2,1) NOT NULL, rating_timestamp BIGINT, rating_datetime TIMESTAMP, created_at TIMESTAMP DEFAULT CURRENT_TIMESTAMP)".

Definition sql_insert_fact_ratings : string :=
  "INSERT INTO fact_ratings (user_id, movie_id, rating, rating_timestamp, rating_datetime) SELECT userId, movieId, rating, rating_timestamp, rating_datetime FROM cleaned_ratings".

Definition fact_rating_of (key : Z) (r : cleaned_rating) : outcome fact_rating :=
  user_id <~ INTEGER "user_id" (cr_userId r) ;;
  movie_id <~ INTEGER "movie_id" (cr_movieId r) ;;
  rating <~ DECIMAL_2_1 "rating" (cr_rating r) ;;
  user_id <~ NOT_NULL "user_id" user_id ;;
  movie_id <~ NOT_NULL "movie_id" movie_id ;;
  rating <~ NOT_NULL "rating" rating ;;
  Ok (FactRating key user_id movie_id rating
        (cr_rating_timestamp r) (cr_rating_datetime r)).

Definition insert_fact_ratings (d : DB) : outcome (unit * DB) :=
  rows <~ FROM "cleaned_ratings" as_cleaned_ratings d ;;
  INSERT_INTO "fact_ratings" as_fact_ratings TFactRatings fact_rating_of
    Ok rows d.

(** [CREATE INDEX IF NOT EXISTS ... ON relation(column)]: the relation must
    exist; an index changes the content of no relation. *)
Definition CREATE_INDEX {A} (relation : string)
  (columns : Table → option (list A)) : DB → outcome (unit * DB) :=
  query (fun d => _ <~ FROM relation columns d ;; Ok tt).

(** ** create_warehouse.py *)

Definition create_dim_movies : M Z :=
  try_except
    (log_info "Creating dim_movies table..." ;;;
     with_begin
       (execute "DROP TABLE IF EXISTS dim_movies CASCADE"
                (DROP_TABLE_IF_EXISTS "dim_movies") ;;;
        execute sql_create_dim_movies (CREATE_TABLE "dim_movies" (TDimMovies [])) ;;;
        execute sql_insert_dim_movies insert_dim_movies) ;;;
     with_connect
       (count <- execute "SELECT COUNT(*) FROM dim_movies"
                         (SELECT_COUNT "dim_movies") ;;
        log_info "Created dim_movies with rows" ;;;
        ret count))
    (log_and_reraise "Failed to create dim_movies: ").

Definition sql_genre_names : string :=
  "SELECT genre_name FROM dim_genres ORDER BY genre_name".

Definition genre_names : DB → outcome (list string * DB) :=
  query (fun d => rows <~ FROM "dim_genres" as_dim_genres d ;;
                  Ok (ORDER_BY String.leb (map dg_genre_name rows))).

Definition create_dim_genres : M Z :=
  try_except
    (log_info "Creating dim_genres table..." ;;;
     with_begin
       (execute "DROP TABLE IF EXISTS dim_genres CASCADE"
                (DROP_TABLE_IF_EXISTS "dim_genres") ;;;
        execute sql_create_dim_genres (CREATE_TABLE "dim_genres" (TDimGenres [])) ;;;
        execute sql_insert_dim_genres insert_dim_genres) ;;;
     with_connect
       (count <- execute "SELECT COUNT(*) FROM dim_genres"
                         (SELECT_COUNT "dim_genres") ;;
        log_info "Created dim_genres with rows" ;;;
        genres <- execute sql_genre_names genre_names ;;
        log_info "Genres found" ;;;
        ret count))
    (log_and_reraise "Failed to create dim_genres: ").

Definition create_dim_users : M Z :=
  try_except
    (log_info "Creating dim_users table..." ;;;
     with_begin
       (execute "DROP TABLE IF EXISTS dim_users CASCADE"
                (DROP_TABLE_IF_EXISTS "dim_users") ;;;
        execute sql_create_dim_users (CREATE_TABLE "dim_users" (TDimUsers [])) ;;;
        execute sql_insert_dim_users insert_dim_users) ;;;
     with_connect
       (count <- execute "SELECT COUNT(*) FROM dim_users"
                         (SELECT_COUNT "dim_users") ;;
        log_info "Created dim_users with rows" ;;;
        ret count))
    (log_and_reraise "Failed to create dim_users: ").

Definition create_bridge_movie_genres : M Z :=
  try_except
    (log_info "Creating bridge_movie_genres table..." ;;;
     with_begin
       (execute "DROP TABLE IF EXISTS bridge_movie_genres CASCADE"
                (DROP_TABLE_IF_EXISTS "bridge_movie_genres") ;;;
        execute sql_create_bridge (CREATE_TABLE "bridge_movie_genres" (TBridge [])) ;;;
        execute sql_insert_bridge insert_bridge) ;;;
     with_connect
       (count <- execute "SELECT COUNT(*) FROM bridge_movie_genres"
                         (SELECT_COUNT "bridge_movie_genres") ;;
        log_info "Created bridge_movie_genres with rows" ;;;
        ret count))
    (log_and_reraise "Failed to create bridge_movie_genres: ").

Definition create_fact_ratings : M Z :=
  try_except
    (log_info "Creating fact_ratings table..." ;;;
     with_begin
       (execute "DROP TABLE IF EXISTS fact_ratings CASCADE"
                (DROP_TABLE_IF_EXISTS "fact_ratings") ;;;
        execute sql_create_fact_ratings
                (CREATE_TABLE "fact_ratings" (TFactRatings [])) ;;;
        execute sql_insert_fact_ratings insert_fact_ratings) ;;;
     with_connect
       (count <- execute "SELECT COUNT(*) FROM fact_ratings"
                         (SELECT_COUNT "fact_ratings") ;;
        log_info "Created fact_ratings with rows" ;;;
        ret count))
    (log_and_reraise "Failed to create fact_ratings: ").

Definition create_indexes : M unit :=
  try_except
    (log_info "Creating indexes..." ;;;
     with_begin
       (execute "CREATE INDEX IF NOT EXISTS idx_fact_ratings_user ON fact_ratings(user_id)"
                (CREATE_INDEX "fact_ratings" as_fact_ratings) ;;;
        execute "CREATE INDEX IF NOT EXISTS idx_fact_ratings_movie ON fact_ratings(movie_id)"
                (CREATE_INDEX "fact_ratings" as_fact_ratings) ;;;
        execute "CREATE INDEX IF NOT EXISTS idx_fact_ratings_datetime ON fact_ratings(rating_datetime)"
                (CREATE_INDEX "fact_ratings" as_fact_ratings) ;;;
        execute "CREATE INDEX IF NOT EXISTS idx_bridge_movie ON bridge_movie_genres(movie_id)"
                (CREATE_INDEX "bridge_movie_genres" as_bridge) ;;;
        execute "CREATE INDEX IF NOT EXISTS idx_bridge_genre ON bridge_movie_genres(genre_key)"
                (CREATE_INDEX "bridge_movie_genres" as_bridge)) ;;;
     log_info "Indexes created successfully")
    (log_and_reraise "Failed to create indexes: ").

Definition warehouse_tables : list string :=
  ["dim_movies"; "dim_genres"; "dim_users"; "bridge_movie_genres"; "fact_ratings"].

Definition verify_warehouse : M unit :=
  try_except
    (log_info "DATA WAREHOUSE SUMMARY" ;;;
     with_connect
       (for_each warehouse_tables (fun table =>
          count <- execute ("SELECT COUNT(*) FROM " +:+ table) (SELECT_COUNT table) ;;
          log_info (table +:+ ": rows"))))
    (log_and_reraise "Failed to verify warehouse: ").

Definition warehouse_main : M unit :=
  log_info "TASK 5: Create Dimension and Fact Tables" ;;;
  create_engine_connection ;;;
  log_info "Creating Dimension Tables..." ;;;
  create_dim_movies ;;;
  create_dim_genres ;;;
  create_dim_users ;;;
  log_info "Creating Bridge Table..." ;;;
  create_bridge_movie_genres ;;;
  log_info "Creating Fact Table..." ;;;
  create_fact_ratings ;;;
  create_indexes ;;;
  verify_warehouse ;;;
  log_info "Task 5 completed" ;;;
  log_info "Data warehouse created successfully!".

(** ** config/config.py *)

Definition PROJECT_ROOT : string := "/home/mmesoma/movielens_elt_pipeline".
Definition DATA_RAW_PATH : string := PROJECT_ROOT +:+ "/data/raw".
Definition DATA_OUTPUT_PATH : string := PROJECT_ROOT +:+ "/data/output".

(** [os.path.join(a, b)] for a relative [b]. *)
Definition path_join (a b : string) : string := a +:+ "/" +:+ b.

(** ** load_staging.py *)

Fixpoint chunks_of {A} (fuel n : nat) (l : list A) : list (list A) :=
  match fuel, l with
  | O, _ | _, [] => []
  | S fuel', _ => take n l :: chunks_of fuel' n (drop n l)
  end.

(** [pd.read_csv(csv_path, chunksize=n)]: the records, [n] at a time; a file
    with a header and no record gives one chunk, without rows. *)
Definition read_csv_chunks (n : nat) (t : Table) : list Table :=
  let pieces {A} (wrap : list A → Table) (rows : list A) :=
    match rows with
    | [] => [wrap []]
    | _ => map wrap (chunks_of (length rows) n rows)
    end in
  match t with
  | TStagingMovies rows => pieces TStagingMovies rows
  | TStagingRatings rows => pieces TStagingRatings rows
  | TCleanedMovies rows => pieces TCleanedMovies rows
  | TCleanedRatings rows => pieces TCleanedRatings rows
  | TDimMovies rows => pieces TDimMovies rows
  | TDimGenres rows => pieces TDimGenres rows
  | TDimUsers rows => pieces TDimUsers rows
  | TBridge rows => pieces TBridge rows
  | TFactRatings rows => pieces TFactRatings rows
  | TText header records => pieces (TText header) records
  end.

(** Appending a chunk to a relation with the same columns. *)
Definition append_rows (relation : string) (old new : Table) : outcome Table :=
  match old, new with
  | TStagingMovies a, TStagingMovies b => Ok (TStagingMovies (a ++ b)%list)
  | TStagingRatings a, TStagingRatings b => Ok (TStagingRatings (a ++ b)%list)
  | TCleanedMovies a, TCleanedMovies b => Ok (TCleanedMovies (a ++ b)%list)
  | TCleanedRatings a, TCleanedRatings b => Ok (TCleanedRatings (a ++ b)%list)
  | TDimMovies a, TDimMovies b => Ok (TDimMovies (a ++ b)%list)
  | TDimGenres a, TDimGenres b => Ok (TDimGenres (a ++ b)%list)
  | TDimUsers a, TDimUsers b => Ok (TDimUsers (a ++ b)%list)
  | TBridge a, TBridge b => Ok (TBridge (a ++ b)%list)
  | TFactRatings a, TFactRatings b => Ok (TFactRatings (a ++ b)%list)
  | TText h a, TText h' b =>
      if decide (h = h') then Ok (TText h (a ++ b)%list)
      else Raise (UndefinedColumn relation)
  | _, _ => Raise (UndefinedColumn relation)
  end.

(** [chunk.to_sql(table_name, connection, if_exists=..., index=False)] *)
Definition to_sql (table_name : string) (replace : bool) (chunk : Table) (d : DB)
  : outcome (unit * DB) :=
  if replace then Ok (tt, <[table_name := chunk]> d)
  else match d !! table_name with
       | None => Ok (tt, <[table_name := chunk]> d)
       | Some old => t <~ append_rows table_name old chunk ;;
                     Ok (tt, <[table_name := t]> d)
       end.

(** The loop over the chunks.  [to_sql] writes the chunk in a transaction of
    its own, which it commits.  The progress is [rows_loaded / total_rows],
    where [total_rows] is the number of lines of the file after the header:
    the division raises when there is none. *)
Fixpoint load_chunks (table_name : string) (total_rows : Z) (i : nat)
  (chunks : list Table) (rows_loaded : Z) : M Z :=
  match chunks with
  | [] => ret rows_loaded
  | chunk :: chunks' =>
      with_connect
        (execute ("to_sql " +:+ table_name)
                 (to_sql table_name (bool_decide (i = O)) chunk) ;;;
         commit) ;;;
      let rows_loaded := rows_loaded + cardinality chunk in
      (if bool_decide (total_rows = 0) then raise ZeroDivisionError
       else log_info "Progress") ;;;
      load_chunks table_name total_rows (S i) chunks' rows_loaded
  end.

Definition load_csv_to_staging (csv_path table_name : string) (chunksize : Z)
  : M Z :=
  try_except
    (log_info ("Loading " +:+ csv_path +:+ " to " +:+ table_name) ;;;
     content <- (fun w => match files w !! csv_path with
                          | Some t => (Ok t, w)
                          | None => (Raise (FileNotFoundError csv_path), w)
                          end) ;;
     let total_rows := cardinality content in
     log_info "Total rows to load" ;;;
     rows_loaded <- load_chunks table_name total_rows 0
                      (read_csv_chunks (Z.to_nat chunksize) content) 0 ;;
     log_info ("Successfully loaded rows to " +:+ table_name) ;;;
     ret rows_loaded)
    (log_and_reraise ("Failed to load " +:+ csv_path +:+ ": ")).

Definition verify_staging_tables : M (Z * Z) :=
  try_except
    (with_connect
       (movies_count <- execute "SELECT COUNT(*) FROM staging_movies"
                                (SELECT_COUNT "staging_movies") ;;
        log_info "staging_movies row count" ;;;
        ratings_count <- execute "SELECT COUNT(*) FROM staging_ratings"
                                 (SELECT_COUNT "staging_ratings") ;;
        log_info "staging_ratings row count" ;;;
        ret (movies_count, ratings_count)))
    (log_and_reraise "Failed to verify staging tables: ").

Definition load_main : M (Z * Z) :=
  log_info "TASK 2: Load Data to Staging Tables" ;;;
  create_engine_connection ;;;
  let movies_path := path_join (path_join DATA_RAW_PATH "ml-32m") "movies.csv" in
  let ratings_path := path_join (path_join DATA_RAW_PATH "ml-32m") "ratings.csv" in
  log_info "Loading movies..." ;;;
  movies_rows <- load_csv_to_staging movies_path "staging_movies" 100000 ;;
  log_info "Loading ratings (this may take a few minutes)..." ;;;
  ratings_rows <- load_csv_to_staging ratings_path "staging_ratings" 100000 ;;
  log_info "Verifying staging tables..." ;;;
  verify_staging_tables ;;;
  log_info "Task 2 completed" ;;;
  log_info "Total rows loaded" ;;;
  ret (movies_rows, ratings_rows).

(** ** Queries whose result is not interpreted

    The assertions of the quality gate and the aggregate queries of the
    analytics reporter are read-only; what they return is left to the
    database: [scalar_of q d] is the first column of the first row of query [q]
    on catalog [d] (NULL when there is none), [frame_of q d] its result set
    with its column names. *)

Record DataFrame := mkDataFrame {
  df_columns : list string;
  df_records : list (list string) }.

Section Queries.

Variable scalar_of : string → DB → outcome (option Q).
Variable frame_of : string → DB → outcome DataFrame.

(** ** data_quality.py *)

Record result_record := ResultRecord {
  rr_check : string;
  rr_status : string;
  rr_value : option Q;
  rr_description : string }.

Record DataQualityChecker := Checker {
  checks_passed : nat;
  checks_failed : nat;
  results : list result_record }.

(** The arguments of one call of [run_check].  The condition is a Python
    function of the value; it may raise. *)
Record check := Check {
  check_name : string;
  check_query : string;
  expected_condition : option Q → outcome bool;
  check_description : string }.

Definition status_of (passed : bool) : string :=
  if passed then "PASSED" else "FAILED".

(** The state of the checker is only changed after the last step of the
    [try] block that can raise, so that the handler sees it as it was at the
    call. *)
Definition run_check (self : DataQualityChecker) (c : check)
  : M (bool * DataQualityChecker) :=
  try_except
    (with_connect
       (value <- execute (check_query c) (query (scalar_of (check_query c))) ;;
        passed <- (fun w => match expected_condition c value with
                            | Ok b => (Ok b, w)
                            | Raise e => (Raise e, w)
                            end) ;;
        let self' :=
          Checker (if passed then S (checks_passed self) else checks_passed self)
                  (if passed then checks_failed self else S (checks_failed self))
                  (results self ++
                   [ResultRecord (check_name c) (status_of passed) value
                                 (check_description c)])%list in
        log_info (status_of passed +:+ ": " +:+ check_name c) ;;;
        log_info (check_description c) ;;;
        log_info "Result" ;;;
        ret (passed, self')))
    (fun e =>
       log_error ("ERROR: " +:+ check_name c +:+ " - ") e ;;;
       ret (false, Checker (checks_passed self) (S (checks_failed self))
                           (results self))).

Definition get_summary (self : DataQualityChecker)
  : nat * nat * nat * list result_record :=
  ((checks_passed self + checks_failed self)%nat, checks_passed self,
   checks_failed self, results self).

(** A sequence of calls of [run_check] on the same checker. *)
Fixpoint run_checks (cs : list check) (checker : DataQualityChecker)
  : M DataQualityChecker :=
  match cs with
  | [] => ret checker
  | c :: cs' => r <- run_check checker c ;; run_checks cs' r.2
  end.

(** [lambda x: x > lo], [lambda x: x == v], [lambda x: x > lo and x < hi];
    an order comparison with [None] raises, an equality test does not. *)
Definition greater_than (lo : Q) (x : option Q) : outcome bool :=
  match x with
  | Some v => Ok (negb (Qle_bool v lo))
  | None => Raise TypeError
  end.

Definition equal_to (c : Q) (x : option Q) : outcome bool :=
  match x with
  | Some v => Ok (Qeq_bool v c)
  | None => Ok false
  end.

Definition strictly_between (lo hi : Q) (x : option Q) : outcome bool :=
  match x with
  | Some v => Ok (negb (Qle_bool v lo) && negb (Qle_bool hi v))
  | None => Raise TypeError
  end.

Definition movies_checks : list check :=
  [ Check "Movies - Table Not Empty"
      "SELECT COUNT(*) FROM cleaned_movies"
      (greater_than 0) "Table should have at least 1 row";
    Check "Movies - No NULL movieId"
      "SELECT COUNT(*) FROM cleaned_movies WHERE movieId IS NULL"
      (equal_to 0) "movieId should never be NULL";
    Check "Movies - No Duplicate movieId"
      "SELECT COUNT(*) - COUNT(DISTINCT movieId) FROM cleaned_movies"
      (equal_to 0) "Each movieId should be unique";
    Check "Movies - No NULL Titles"
      "SELECT COUNT(*) FROM cleaned_movies WHERE title IS NULL OR title = ''"
      (equal_to 0) "All movies should have titles";
    Check "Movies - No NULL Genres"
      "SELECT COUNT(*) FROM cleaned_movies WHERE genres IS NULL OR genres = ''"
      (equal_to 0) "All movies should have genres";
    Check "Movies - Valid Release Years"
      "SELECT COUNT(*) FROM cleaned_movies WHERE release_year IS NOT NULL AND (release_year < 1800 OR release_year > 2030)"
      (equal_to 0) "Release years should be between 1800 and 2030";
    Check "Movies - Expected Row Count"
      "SELECT COUNT(*) FROM cleaned_movies"
      (strictly_between 80000 100000) "Should have approximately 87,000 movies" ].

Definition ratings_checks : list check :=
  [ Check "Ratings - Table Not Empty"
      "SELECT COUNT(*) FROM cleaned_ratings"
      (greater_than 0) "Table should have at least 1 row";
    Check "Ratings - No NULL userId"
      "SELECT COUNT(*) FROM cleaned_ratings WHERE userId IS NULL"
      (equal_to 0) "userId should never be NULL";
    Check "Ratings - No NULL movieId"
      "SELECT COUNT(*) FROM cleaned_ratings WHERE movieId IS NULL"
      (equal_to 0) "movieId should never be NULL";
    Check "Ratings - No NULL Ratings"
      "SELECT COUNT(*) FROM cleaned_ratings WHERE rating IS NULL"
      (equal_to 0) "rating should never be NULL";
    Check "Ratings - Valid Rating Range"
      "SELECT COUNT(*) FROM cleaned_ratings WHERE rating < 0.5 OR rating > 5.0"
      (equal_to 0) "Ratings should be between 0.5 and 5.0";
    Check "Ratings - Valid Rating Increments"
      "SELECT COUNT(*) FROM cleaned_ratings WHERE rating * 2 != FLOOR(rating * 2)"
      (equal_to 0) "Ratings should be in 0.5 increments";
    Check "Ratings - Expected Row Count"
      "SELECT COUNT(*) FROM cleaned_ratings"
      (strictly_between 30000000 35000000)
      "Should have approximately 32 million ratings";
    Check "Ratings - Referential Integrity"
      "SELECT COUNT(*) FROM cleaned_ratings r LEFT JOIN cleaned_movies m ON r.movieId = m.movieId WHERE m.movieId IS NULL"
      (equal_to 0) "All rated movies should exist in movies table" ].

Definition cross_checks : list check :=
  [ Check "Cross - Movies With Ratings"
      "SELECT COUNT(DISTINCT m.movieId) FROM cleaned_movies m INNER JOIN cleaned_ratings r ON m.movieId = r.movieId"
      (greater_than 0) "At least some movies should have ratings";
    Check "Cross - Reasonable Average Rating"
      "SELECT AVG(rating) FROM cleaned_ratings"
      (strictly_between 2 (9 # 2)) "Average rating should be between 2.0 and 4.5" ].

Definition run_movies_quality_checks (checker : DataQualityChecker)
  : M DataQualityChecker :=
  log_info "MOVIES TABLE QUALITY CHECKS" ;;;
  run_checks movies_checks checker.

Definition run_ratings_quality_checks (checker : DataQualityChecker)
  : M DataQualityChecker :=
  log_info "RATINGS TABLE QUALITY CHECKS" ;;;
  run_checks ratings_checks checker.

Definition run_cross_table_checks (checker : DataQualityChecker)
  : M DataQualityChecker :=
  log_info "CROSS-TABLE QUALITY CHECKS" ;;;
  run_checks cross_checks checker.

(** The end of [main]: the summary is logged (the success rate divides by the
    number of checks) and the verdict returned. *)
Definition report (checker : DataQualityChecker) : M bool :=
  let '(total, passed, failed, _) := get_summary checker in
  log_info "DATA QUALITY SUMMARY" ;;;
  log_info "Total Checks" ;;;
  log_info "Passed" ;;;
  log_info "Failed" ;;;
  (if bool_decide (total = O) then raise ZeroDivisionError
   else log_info "Success Rate") ;;;
  log_info "Task 4 completed" ;;;
  if bool_decide (0 < failed)%nat
  then log_warning "Some data quality checks failed! Review the results above." ;;;
       ret false
  else log_info "All data quality checks passed!" ;;; ret true.

Definition quality_main : M bool :=
  log_info "TASK 4: Data Quality and Validation Checks" ;;;
  create_engine_connection ;;;
  let checker := Checker 0 0 [] in
  checker <- run_movies_quality_checks checker ;;
  checker <- run_ratings_quality_checks checker ;;
  checker <- run_cross_table_checks checker ;;
  report checker.

(** ** run_analytics.py *)

(** [df.to_csv(path, index=False)]: the column names, then the records. *)
Definition to_csv (path : string) (df : DataFrame) : M unit :=
  fun w => (Ok tt, set_files (<[path := TText (df_columns df) (df_records df)]>
                                (files w)) w).

(** [pd.read_sql(query, engine)] *)
Definition read_sql (sql : string) : M DataFrame :=
  with_connect (execute sql (query (frame_of sql))).

Definition run_query_to_csv (sql output_filename description : string)
  : M DataFrame :=
  try_except
    (log_info ("Running analysis: " +:+ description) ;;;
     df <- read_sql sql ;;
     let output_path := path_join DATA_OUTPUT_PATH output_filename in
     to_csv output_path df ;;;
     log_info ("Saved results to " +:+ output_path) ;;;
     log_info "Results preview:" ;;;
     ret df)
    (log_and_reraise ("Failed to run analysis '" +:+ description +:+ "': ")).

Definition sql_top_10_movies : string :=
  "SELECT m.movie_id, m.title, m.release_year, ROUND(AVG(f.rating)::numeric, 2) as avg_rating, COUNT(f.rating) as num_ratings FROM fact_ratings f JOIN dim_movies m ON f.movie_id = m.movie_id GROUP BY m.movie_id, m.title, m.release_year HAVING COUNT(f.rating) >= 100 ORDER BY avg_rating DESC, num_ratings DESC LIMIT 10".

Definition sql_least_10_movies : string :=
  "SELECT m.movie_id, m.title, m.release_year, ROUND(AVG(f.rating)::numeric, 2) as avg_rating, COUNT(f.rating) as num_ratings FROM fact_ratings f JOIN dim_movies m ON f.movie_id = m.movie_id GROUP BY m.movie_id, m.title, m.release_year HAVING COUNT(f.rating) >= 100 ORDER BY avg_rating ASC, num_ratings DESC LIMIT 10".

Definition sql_top_5_genres : string :=
  "SELECT g.genre_name, COUNT(f.rating) as num_ratings, ROUND(AVG(f.rating)::numeric, 2) as avg_rating FROM fact_ratings f JOIN bridge_movie_genres bmg ON f.movie_id = bmg.movie_id JOIN dim_genres g ON bmg.genre_key = g.genre_key GROUP BY g.genre_name ORDER BY num_ratings DESC LIMIT 5".

Definition sql_least_5_genres : string :=
  "SELECT g.genre_name, COUNT(f.rating) as num_ratings, ROUND(AVG(f.rating)::numeric, 2) as avg_rating FROM fact_ratings f JOIN bridge_movie_genres bmg ON f.movie_id = bmg.movie_id JOIN dim_genres g ON bmg.genre_key = g.genre_key GROUP BY g.genre_name ORDER BY num_ratings ASC LIMIT 5".

Definition top_10_movies_by_avg_rating : M DataFrame :=
  run_query_to_csv sql_top_10_movies "top_10_movies_by_avg_rating.csv"
    "Top 10 movies by average rating (min 100 ratings)".

Definition least_10_movies_by_avg_rating : M DataFrame :=
  run_query_to_csv sql_least_10_movies "least_10_movies_by_avg_rating.csv"
    "Least 10 movies by average rating (min 100 ratings)".

Definition top_5_genres_by_num_ratings : M DataFrame :=
  run_query_to_csv sql_top_5_genres "top_5_genres_by_num_ratings.csv"
    "Top 5 genres by number of ratings".

Definition least_5_genres_by_num_ratings : M DataFrame :=
  run_query_to_csv sql_least_5_genres "least_5_genres_by_num_ratings.csv"
    "Least 5 genres by number of ratings".

Definition analytics_main : M unit :=
  log_info "TASK 6: Run Analytics and Export to CSV" ;;;
  create_engine_connection ;;;
  log_info "Analysis 6a: Top 10 Movies by Average Rating" ;;;
  top_10_movies_by_avg_rating ;;;
  log_info "Analysis 6b: Least 10 Movies by Average Rating" ;;;
  least_10_movies_by_avg_rating ;;;
  log_info "Analysis 6c: Top 5 Genres by Number of Ratings" ;;;
  top_5_genres_by_num_ratings ;;;
  log_info "Analysis 6d: Least 5 Genres by Number of Ratings" ;;;
  least_5_genres_by_num_ratings ;;;
  log_info "Task 6 completed" ;;;
  log_info "CSV files saved to" ;;;
  log_info "Files created:" ;;;
  log_info "  - top_10_movies_by_avg_rating.csv" ;;;
  log_info "  - least_10_movies_by_avg_rating.csv" ;;;
  log_info "  - top_5_genres_by_num_ratings.csv" ;;;
  log_info "  - least_5_genres_by_num_ratings.csv".

End Queries.

(** * Verification *)

(** ** Running computations *)

Section Running.
Context {A B : Type}.
Implicit Types (w : World).

Lemma bind_Ok (m : M A) (k : A → M B) w b w' :
  (x <- m ;; k x) w = (Ok b, w') →
  ∃ a w1, m w = (Ok a, w1) ∧ k a w1 = (Ok b, w').
Proof.
  unfold bind. destruct (m w) as [[a|e] w1]; [eauto | discriminate].
Qed.

Lemma bind_run (m : M A) (k : A → M B) w a w1 :
  m w = (Ok a, w1) → (x <- m ;; k x) w = k a w1.
Proof. unfold bind. now intros ->. Qed.

Lemma bind_Raise (m : M A) (k : A → M B) w e w' :
  (x <- m ;; k x) w = (Raise e, w') →
  m w = (Raise e, w') ∨ ∃ a w1, m w = (Ok a, w1) ∧ k a w1 = (Raise e, w').
Proof.
  unfold bind. destruct (m w) as [[a|e0] w1]; [eauto | left; congruence].
Qed.

Lemma try_reraise_Ok (body : M A) msg w a w' :
  try_except body (log_and_reraise msg) w = (Ok a, w') → body w = (Ok a, w').
Proof.
  unfold try_except. destruct (body w) as [[a0|e] w1]; [done | discriminate].
Qed.

Lemma try_reraise_run (body : M A) msg w a w' :
  body w = (Ok a, w') → try_except body (log_and_reraise msg) w = (Ok a, w').
Proof. unfold try_except. now intros ->. Qed.

Lemma try_reraise_Raise (body : M A) msg w e w' :
  try_except body (log_and_reraise msg) w = (Raise e, w') →
  ∃ w1, body w = (Raise e, w1) ∧ w' = add_log (LogRecord ERROR msg (Some e)) w1.
Proof.
  unfold try_except. destruct (body w) as [[a0|e0] w1]; [discriminate |].
  cbv [log_and_reraise bind log_error raise]. intros [= -> <-]. eauto.
Qed.

Lemma round_trip_Ok sql (sem : DB → outcome (A * DB)) w a w' :
  round_trip sql sem w = (Ok a, w') →
  ∃ d, sem (db w) = Ok (a, d) ∧ w' = set_db d (add_trace (sql, false) w).
Proof.
  unfold round_trip. case_bool_decide; [discriminate |].
  destruct (sem (db w)) as [[a0 d]|e]; [| discriminate].
  intros [= -> <-]. eauto.
Qed.

Lemma round_trip_run sql (sem : DB → outcome (A * DB)) w :
  faults w = [] →
  round_trip sql sem w =
    match sem (db w) with
    | Ok (a, d) => (Ok a, set_db d (add_trace (sql, false) w))
    | Raise e => (Raise e, add_trace (sql, true) w)
    end.
Proof.
  intros Hf. unfold round_trip. rewrite Hf.
  case_bool_decide as H; [by apply elem_of_nil in H | done].
Qed.

Lemma query_Ok (f : DB → outcome A) d a d' :
  query f d = Ok (a, d') → f d = Ok a ∧ d' = d.
Proof. unfold query, obind. destruct (f d); [intros [= -> ->]; done | discriminate]. Qed.

Lemma obind_Ok (m : outcome A) (k : A → outcome B) b :
  (x <~ m ;; k x) = Ok b → ∃ a, m = Ok a ∧ k a = Ok b.
Proof. destruct m; [eauto | discriminate]. Qed.

End Running.

Section Connections.
Context {A : Type}.
Implicit Types (w : World).

Lemma with_connect_Ok (body : M A) w a w' :
  with_connect body w = (Ok a, w') →
  ∃ w2, body (add_trace ("connect", false) w) = (Ok a, w2)
        ∧ w' = set_db (durable w2) w2.
Proof.
  unfold with_connect, bind, round_trip. case_bool_decide; [discriminate |].
  cbn. unfold try_except, bind, rollback, ret, raise.
  destruct (body _) as [[a0|e] w2]; [| discriminate].
  intros [= -> <-]. eauto.
Qed.

Lemma with_connect_run (body : M A) w a w2 :
  faults w = [] →
  body (add_trace ("connect", false) w) = (Ok a, w2) →
  with_connect body w = (Ok a, set_db (durable w2) w2).
Proof.
  intros Hf H. unfold with_connect, bind. rewrite round_trip_run by done.
  cbv beta iota.
  change (set_db (db w) (add_trace ("connect", false) w))
    with (add_trace ("connect", false) w).
  unfold try_except. rewrite H. reflexivity.
Qed.

Lemma with_begin_Ok (body : M A) w a w' :
  with_begin body w = (Ok a, w') →
  ∃ w2, body (add_trace ("connect", false) w) = (Ok a, w2)
        ∧ w' = set_durable (db w2) (add_trace ("COMMIT", false) w2).
Proof.
  unfold with_begin, bind at 1. unfold round_trip at 1.
  case_bool_decide; [discriminate |].
  cbn. unfold try_except, bind, commit, bind, rollback, ret, raise, round_trip.
  destruct (body _) as [[a0|e] w2]; [| discriminate].
  case_bool_decide; [discriminate |]. cbn.
  intros [= -> <-]. eauto.
Qed.

Lemma with_begin_run (body : M A) w a w2 :
  faults w = [] → faults w2 = [] →
  body (add_trace ("connect", false) w) = (Ok a, w2) →
  with_begin body w
  = (Ok a, set_durable (db w2) (add_trace ("COMMIT", false) w2)).
Proof.
  intros Hf Hf2 H. unfold with_begin, bind at 1. rewrite round_trip_run by done.
  cbv beta iota.
  change (set_db (db w) (add_trace ("connect", false) w))
    with (add_trace ("connect", false) w).
  unfold try_except, bind. rewrite H. unfold commit, bind.
  rewrite round_trip_run by done. reflexivity.
Qed.

End Connections.

Lemma commit_Ok w u w' :
  commit w = (Ok u, w') →
  w' = set_durable (db w) (add_trace ("COMMIT", false) w).
Proof.
  unfold commit, bind, round_trip. case_bool_decide; [discriminate |].
  cbn. by intros [= <-].
Qed.

Lemma commit_run w :
  faults w = [] →
  commit w = (Ok tt, set_durable (db w) (add_trace ("COMMIT", false) w)).
Proof. intros Hf. unfold commit, bind. by rewrite round_trip_run. Qed.

Ltac world_simpl :=
  cbn [db durable files log trace faults
       set_db set_durable set_files add_log add_trace] in *.

(** Inversion of a run that returned. *)
Ltac run_inv :=
  repeat (cbv beta in *;
    match goal with
    | H : try_except _ (log_and_reraise _) _ = (Ok _, _) |- _ =>
        apply try_reraise_Ok in H
    | H : bind _ _ _ = (Ok _, _) |- _ =>
        apply bind_Ok in H as (? & ? & ? & ?)
    | H : with_connect _ _ = (Ok _, _) |- _ =>
        apply with_connect_Ok in H as (? & ? & ->)
    | H : with_begin _ _ = (Ok _, _) |- _ =>
        apply with_begin_Ok in H as (? & ? & ->)
    | H : execute _ _ _ = (Ok _, _) |- _ =>
        apply round_trip_Ok in H as (? & ? & ->)
    | H : commit _ = (Ok _, _) |- _ => apply commit_Ok in H as ->
    | H : log_info _ _ = (Ok _, _) |- _ =>
        unfold log_info in H; injection H as <- <-
    | H : ret _ _ = (Ok _, _) |- _ => unfold ret in H; injection H as <- <-
    | H : query _ _ = Ok _ |- _ => apply query_Ok in H as [? ->]
    | H : DROP_TABLE_IF_EXISTS _ _ = Ok _ |- _ =>
        unfold DROP_TABLE_IF_EXISTS in H; injection H as <- <-
    | H : obind _ _ = Ok _ |- _ => apply obind_Ok in H as (? & ? & ?)
    end).

Lemma FROM_Ok {A} relation (columns : Table → option (list A)) d rows :
  FROM relation columns d = Ok rows →
  ∃ t, d !! relation = Some t ∧ columns t = Some rows.
Proof.
  unfold FROM. destruct (d !! relation) as [t|]; [| discriminate].
  destruct (columns t) eqn:E; [| discriminate]. intros [= ->]. eauto.
Qed.

Lemma FROM_run {A} relation (columns : Table → option (list A)) d t rows :
  d !! relation = Some t → columns t = Some rows →
  FROM relation columns d = Ok rows.
Proof. unfold FROM. by intros -> ->. Qed.

Lemma CREATE_TABLE_Ok relation content d u d' :
  CREATE_TABLE relation content d = Ok (u, d') →
  d !! relation = None ∧ d' = <[relation := content]> d.
Proof.
  unfold CREATE_TABLE. destruct (d !! relation); [discriminate |].
  by intros [= <- <-].
Qed.

Lemma CREATE_TABLE_run relation content d :
  d !! relation = None →
  CREATE_TABLE relation content d = Ok (tt, <[relation := content]> d).
Proof. unfold CREATE_TABLE. by intros ->. Qed.

(** The columns of a relation determine its tag. *)
Ltac table_inv :=
  repeat match goal with
  | H : FROM _ _ _ = Ok _ |- _ => apply FROM_Ok in H as (? & ? & ?)
  | H : as_staging_movies ?t = Some _ |- _ => destruct t; simplify_eq/=
  | H : as_staging_ratings ?t = Some _ |- _ => destruct t; simplify_eq/=
  | H : as_cleaned_movies ?t = Some _ |- _ => destruct t; simplify_eq/=
  | H : as_cleaned_ratings ?t = Some _ |- _ => destruct t; simplify_eq/=
  | H : as_dim_movies ?t = Some _ |- _ => destruct t; simplify_eq/=
  | H : as_dim_genres ?t = Some _ |- _ => destruct t; simplify_eq/=
  | H : as_dim_users ?t = Some _ |- _ => destruct t; simplify_eq/=
  | H : as_bridge ?t = Some _ |- _ => destruct t; simplify_eq/=
  | H : as_fact_ratings ?t = Some _ |- _ => destruct t; simplify_eq/=
  | H : CREATE_TABLE _ _ _ = Ok _ |- _ => apply CREATE_TABLE_Ok in H as [? ->]
  end.

(** ** The transformer on the catalog *)

Lemma clean_movies_table_Ok w n w' :
  clean_movies_table w = (Ok n, w') →
  ∃ ms, db w !! "staging_movies" = Some (TStagingMovies ms)
        ∧ db w' = <["cleaned_movies" := TCleanedMovies (select_cleaned_movies ms)]>
                    (delete "cleaned_movies" (db w))
        ∧ durable w' = db w'
        ∧ n = Z.of_nat (length (select_cleaned_movies ms)).
Proof.
  unfold clean_movies_table. intros H. run_inv. world_simpl.
  unfold movies_nulls, movies_duplicates, create_cleaned_movies, SELECT_COUNT in *.
  run_inv. table_inv. simplify_map_eq. eauto.
Qed.

Lemma clean_ratings_table_Ok w n w' :
  clean_ratings_table w = (Ok n, w') →
  ∃ rs, db w !! "staging_ratings" = Some (TStagingRatings rs)
        ∧ db w' = <["cleaned_ratings" := TCleanedRatings (select_cleaned_ratings rs)]>
                    (delete "cleaned_ratings" (db w))
        ∧ durable w' = db w'
        ∧ n = Z.of_nat (length (select_cleaned_ratings rs)).
Proof.
  unfold clean_ratings_table. intros H. run_inv. world_simpl.
  unfold ratings_nulls, ratings_duplicates, create_cleaned_ratings, SELECT_COUNT in *.
  run_inv. table_inv. simplify_map_eq. eauto.
Qed.

Lemma for_each_log_Ok {A} (l : list A) msg w u w' :
  for_each l (fun _ => log_info msg) w = (Ok u, w') →
  db w' = db w ∧ durable w' = durable w.
Proof.
  revert w. induction l as [|x l IH]; intros w H; cbn in H.
  - by injection H as <- <-.
  - run_inv.
    match goal with H : for_each _ _ _ = _ |- _ => apply IH in H as [-> ->] end.
    done.
Qed.

Lemma show_sample_data_Ok w u w' :
  show_sample_data w = (Ok u, w') → db w' = durable w ∧ durable w' = durable w.
Proof.
  unfold show_sample_data. intros H. run_inv.
  unfold sample_movies, sample_ratings in *. run_inv.
  repeat match goal with
  | H : for_each _ _ _ = _ |- _ => apply for_each_log_Ok in H as [? ?]
  end.
  world_simpl. split; congruence.
Qed.

Lemma transform_main_Ok w r w' :
  transform_main w = (Ok r, w') →
  ∃ ms rs,
    db w !! "staging_movies" = Some (TStagingMovies ms)
    ∧ db w !! "staging_ratings" = Some (TStagingRatings rs)
    ∧ db w' = <["cleaned_ratings" := TCleanedRatings (select_cleaned_ratings rs)]>
                (<["cleaned_movies" := TCleanedMovies (select_cleaned_movies ms)]>
                   (delete "cleaned_ratings" (delete "cleaned_movies" (db w))))
    ∧ durable w' = db w'
    ∧ r = (Z.of_nat (length (select_cleaned_movies ms)),
           Z.of_nat (length (select_cleaned_ratings rs))).
Proof.
  unfold transform_main, create_engine_connection. intros H. run_inv.
  repeat match goal with
  | H : clean_movies_table _ = _ |- _ =>
      apply clean_movies_table_Ok in H as (ms & Hms & Hm & Hdm & ->)
  | H : clean_ratings_table _ = _ |- _ =>
      apply clean_ratings_table_Ok in H as (rs & Hrs & Hr & Hdr & ->)
  | H : show_sample_data _ = _ |- _ =>
      apply show_sample_data_Ok in H as [Hs Hds]
  end.
  world_simpl. exists ms, rs.
  rewrite Hm in Hrs, Hr. simplify_map_eq.
  rewrite Hds, Hs, Hdr, Hr.
  split_and!; try done.
  by rewrite delete_insert_ne.
Qed.


(** Forward execution when the database is reachable. *)
Lemma bind_run' {A B} (m : M A) (k : A → M B) w a w1 r :
  m w = (Ok a, w1) → k a w1 = r → (x <- m ;; k x) w = r.
Proof. intros Hm <-. by apply bind_run. Qed.

Lemma round_trip_run' {A} sql (sem : DB → outcome (A * DB)) w a d :
  faults w = [] → sem (db w) = Ok (a, d) →
  round_trip sql sem w = (Ok a, set_db d (add_trace (sql, false) w)).
Proof. intros Hf Hs. rewrite round_trip_run by done. by rewrite Hs. Qed.

Lemma query_run {A} (f : DB → outcome A) d a :
  f d = Ok a → query f d = Ok (a, d).
Proof. unfold query. by intros ->. Qed.

Lemma obind_run {A B} (m : outcome A) (k : A → outcome B) a r :
  m = Ok a → k a = r → (x <~ m ;; k x) = r.
Proof. by intros -> <-. Qed.

Lemma for_each_log_run {A} (l : list A) msg w :
  for_each l (fun _ => log_info msg) w
  = (Ok tt, Nat.iter (length l) (add_log (LogRecord INFO msg None)) w).
Proof.
  revert w. induction l as [|x l IH]; intros w; [done |].
  cbn [for_each length]. unfold bind, log_info at 1. rewrite IH.
  by rewrite Nat.iter_succ_r.
Qed.

Lemma iter_add_log n r w :
  db (Nat.iter n (add_log r) w) = db w
  ∧ durable (Nat.iter n (add_log r) w) = durable w
  ∧ faults (Nat.iter n (add_log r) w) = faults w
  ∧ trace (Nat.iter n (add_log r) w) = trace w.
Proof. induction n as [|n IH]; [done |]. cbn. exact IH. Qed.

Ltac logs_simpl :=
  repeat (world_simpl;
    match goal with
    | |- context [db (Nat.iter ?n (add_log ?r) ?w)] =>
        rewrite (proj1 (iter_add_log n r w))
    | |- context [durable (Nat.iter ?n (add_log ?r) ?w)] =>
        rewrite (proj1 (proj2 (iter_add_log n r w)))
    | |- context [faults (Nat.iter ?n (add_log ?r) ?w)] =>
        rewrite (proj1 (proj2 (proj2 (iter_add_log n r w))))
    end); world_simpl.

Ltac faults_ok := logs_simpl; first [assumption | congruence].

(** The staging ratings on which [TO_TIMESTAMP] is defined, where it is
    evaluated. *)
Definition timestamps_in_range (rs : list staging_rating) : Prop :=
  ∀ r t, r ∈ rs → valid_rating r = true → sr_timestamp r = Some t →
         -210866803200 ≤ t < 9224318016000.

Lemma traverse_unit_run {A} (f : A → outcome unit) l :
  (∀ x, x ∈ l → f x = Ok tt) → ∃ us, traverse f l = Ok us.
Proof.
  induction l as [|x l IH]; intros H; cbn; [by eexists |].
  rewrite H by left. cbn. destruct IH as [us ->]; [| by eexists].
  intros y Hy. apply H. by right.
Qed.

Lemma create_cleaned_ratings_run d rs :
  d !! "staging_ratings" = Some (TStagingRatings rs) →
  d !! "cleaned_ratings" = None →
  timestamps_in_range rs →
  create_cleaned_ratings d
  = Ok (tt, <["cleaned_ratings" := TCleanedRatings (select_cleaned_ratings rs)]> d).
Proof.
  intros Hrs Hnone Hrange. unfold create_cleaned_ratings.
  erewrite FROM_run by done. cbn [obind].
  destruct (traverse_unit_run (fun r => TO_TIMESTAMP_defined (sr_timestamp r))
              (filter (fun r => valid_rating r = true) rs)) as [us ->].
  { intros r [Hv Hr]%list_elem_of_filter. unfold TO_TIMESTAMP_defined.
    destruct (sr_timestamp r) as [t|] eqn:Ht; [| done].
    unfold timestamp_in_range. destruct (Hrange r t Hr Hv Ht) as [H1 H2].
    apply Z.leb_le in H1 as ->. apply Z.ltb_lt in H2 as ->. done. }
  cbn [obind]. by apply CREATE_TABLE_run.
Qed.

Ltac sem_ok :=
  logs_simpl;
  repeat (cbv beta;
    lazymatch goal with
    | |- create_cleaned_ratings _ = Ok _ =>
        eapply create_cleaned_ratings_run;
          [by simplify_map_eq | by simplify_map_eq | eassumption]
    | |- query _ _ = Ok _ => apply query_run
    | |- obind _ _ = _ => eapply obind_run
    | |- FROM _ _ _ = Ok _ => eapply FROM_run; [by simplify_map_eq | reflexivity]
    | |- CREATE_TABLE _ _ _ = Ok _ => apply CREATE_TABLE_run; by simplify_map_eq
    | |- DROP_TABLE_IF_EXISTS _ _ = Ok _ => reflexivity
    | |- Ok _ = Ok _ => reflexivity
    | |- match _ !! _ with _ => _ end = _ => by simplify_map_eq
    end).

Ltac run_ok :=
  cbv beta;
  lazymatch goal with
  | |- try_except _ (log_and_reraise _) _ = (Ok _, _) =>
      apply try_reraise_run; run_ok
  | |- bind _ _ _ = (Ok _, _) => eapply bind_run'; [run_ok | run_ok]
  | |- with_connect _ _ = (Ok _, _) =>
      eapply with_connect_run; [faults_ok | run_ok]
  | |- with_begin _ _ = (Ok _, _) =>
      eapply with_begin_run; [faults_ok | idtac | run_ok]; [faults_ok | ..]
  | |- execute _ _ _ = (Ok _, _) =>
      eapply round_trip_run'; [faults_ok | try (sem_ok; fail)]
  | |- commit _ = (Ok _, _) => apply commit_run; faults_ok
  | |- log_info _ _ = (Ok _, _) => reflexivity
  | |- ret _ _ = (Ok _, _) => reflexivity
  | |- for_each _ (fun _ => log_info _) _ = (Ok _, _) => apply for_each_log_run
  | |- _ => idtac
  end.

Lemma clean_movies_table_run w ms :
  faults w = [] →
  db w !! "staging_movies" = Some (TStagingMovies ms) →
  ∃ n w', clean_movies_table w = (Ok n, w') ∧ faults w' = [].
Proof.
  intros Hf Hms. eexists _, _. split.
  - unfold clean_movies_table, movies_nulls, movies_duplicates,
      create_cleaned_movies, SELECT_COUNT. run_ok.
  - faults_ok.
Qed.

Lemma clean_ratings_table_run w rs :
  faults w = [] →
  db w !! "staging_ratings" = Some (TStagingRatings rs) →
  timestamps_in_range rs →
  ∃ n w', clean_ratings_table w = (Ok n, w') ∧ faults w' = [].
Proof.
  intros Hf Hms Hrange. eexists _, _. split.
  - unfold clean_ratings_table, ratings_nulls, ratings_duplicates,
      SELECT_COUNT. run_ok.
  - faults_ok.
Qed.

Lemma show_sample_data_run w ms rs :
  faults w = [] →
  db w !! "cleaned_movies" = Some (TCleanedMovies ms) →
  db w !! "cleaned_ratings" = Some (TCleanedRatings rs) →
  ∃ w', show_sample_data w = (Ok tt, w') ∧ faults w' = [].
Proof.
  intros Hf Hms Hrs. eexists. split.
  - unfold show_sample_data, sample_movies, sample_ratings. run_ok.
  - faults_ok.
Qed.

(** C3.  Running the transformer twice on the same staging content gives the
    same cleaned relations: when two successive runs of [main] of
    transform_data.py return, the catalog after the second run is the catalog
    after the first one, the cleaned relations are those that the two queries
    select from the staging relations, and both runs return the same row
    counts. *)
Theorem transformer_idempotent w r1 w1 r2 w2 :
  transform_main w = (Ok r1, w1) →
  transform_main w1 = (Ok r2, w2) →
  ∃ ms rs,
    db w !! "staging_movies" = Some (TStagingMovies ms)
    ∧ db w !! "staging_ratings" = Some (TStagingRatings rs)
    ∧ db w1 !! "cleaned_movies" = Some (TCleanedMovies (select_cleaned_movies ms))
    ∧ db w1 !! "cleaned_ratings"
      = Some (TCleanedRatings (select_cleaned_ratings rs))
    ∧ db w2 !! "cleaned_movies" = db w1 !! "cleaned_movies"
    ∧ db w2 !! "cleaned_ratings" = db w1 !! "cleaned_ratings"
    ∧ db w2 = db w1
    ∧ r2 = r1.
Proof.
  intros H1 H2.
  apply transform_main_Ok in H1 as (ms & rs & Hms & Hrs & Hdb1 & _ & ->).
  apply transform_main_Ok in H2 as (ms' & rs' & Hms' & Hrs' & Hdb2 & _ & ->).
  rewrite Hdb1 in Hms', Hrs'. simplify_map_eq.
  assert (db w2 = db w1) as E.
  { rewrite Hdb2, Hdb1. apply map_eq. intros k.
    destruct (decide (k = "cleaned_ratings")) as [->|]; [by simplify_map_eq |].
    destruct (decide (k = "cleaned_movies")) as [->|]; by simplify_map_eq. }
  exists ms, rs. rewrite E, Hdb1. by simplify_map_eq.
Qed.

(** When the database is reachable and holds the two staging relations, the
    transformer returns, and it can be run again. *)
Lemma transform_main_run w ms rs :
  faults w = [] →
  db w !! "staging_movies" = Some (TStagingMovies ms) →
  db w !! "staging_ratings" = Some (TStagingRatings rs) →
  timestamps_in_range rs →
  ∃ r w', transform_main w = (Ok r, w') ∧ faults w' = []
          ∧ db w' !! "staging_movies" = Some (TStagingMovies ms)
          ∧ db w' !! "staging_ratings" = Some (TStagingRatings rs).
Proof.
  intros Hf Hms Hrs Hrange.
  set (w0 := add_log (LogRecord INFO "Database engine created successfully" None)
               (add_log (LogRecord INFO "TASK 3: Clean/Transform Staging Tables" None) w)).
  destruct (clean_movies_table_run w0 ms) as (n1 & w1 & H1 & F1); [done.. |].
  pose proof H1 as (ms' & E1 & D1 & U1 & _)%clean_movies_table_Ok.
  world_simpl. simplify_eq.
  destruct (clean_ratings_table_run w1 rs) as (n2 & w2 & H2 & F2);
    [done | by rewrite D1; simplify_map_eq | done |].
  pose proof H2 as (rs' & E2 & D2 & U2 & _)%clean_ratings_table_Ok.
  destruct (show_sample_data_run w2 (select_cleaned_movies ms)
              (select_cleaned_ratings rs')) as (w3 & H3 & F3);
    [done | by rewrite D2, D1; simplify_map_eq.. |].
  pose proof H3 as [D3 U3]%show_sample_data_Ok.
  eexists _, _. split; [| split_and!].
  - unfold transform_main, create_engine_connection.
    eapply bind_run'; [run_ok |].
    eapply bind_run'; [run_ok |].
    eapply bind_run'; [exact H1 |].
    eapply bind_run'; [exact H2 |].
    eapply bind_run'; [exact H3 |]. run_ok.
  - faults_ok.
  - world_simpl. rewrite D3, U2, D2, D1. by simplify_map_eq.
  - world_simpl. rewrite D1 in E2. rewrite D3, U2, D2, D1. by simplify_map_eq.
Qed.

(** ** Claims on the transformer *)

(** The end-to-end scenario of the specification. *)
Definition scenario_movies : list staging_movie :=
  [ StagingMovie (Some 1) (Some "A (2000)") (Some "Action");
    StagingMovie (Some 2) (Some "B") (Some "Comedy") ].

Definition scenario_ratings : list staging_rating :=
  [ StagingRating (Some 1) (Some 1) (Some 4%Q) (Some 100);
    StagingRating (Some 1) (Some 1) (Some 5%Q) (Some 200);
    StagingRating (Some 2) (Some 2) (Some 3%Q) (Some 50) ].

Definition scenario_db : DB :=
  <["staging_movies" := TStagingMovies scenario_movies]>
    (<["staging_ratings" := TStagingRatings scenario_ratings]> ∅).

(** A world with catalog [d], no file, an empty log, and a database that is
    always reachable. *)
Definition initial_world (d : DB) : World := mkWorld d d ∅ [] [] [].

Lemma transformer_idempotent_witness :
  let w := initial_world scenario_db in
  let w1 := (transform_main w).2 in
  let w2 := (transform_main w1).2 in
  ∃ ms rs,
    db w !! "staging_movies" = Some (TStagingMovies ms)
    ∧ db w !! "staging_ratings" = Some (TStagingRatings rs)
    ∧ db w1 !! "cleaned_movies" = Some (TCleanedMovies (select_cleaned_movies ms))
    ∧ db w1 !! "cleaned_ratings"
      = Some (TCleanedRatings (select_cleaned_ratings rs))
    ∧ db w2 !! "cleaned_movies" = db w1 !! "cleaned_movies"
    ∧ db w2 !! "cleaned_ratings" = db w1 !! "cleaned_ratings"
    ∧ db w2 = db w1
    ∧ (2, 2) = (2, 2).
Proof.
  intros w w1 w2.
  apply (transformer_idempotent w (2, 2) w1 (2, 2) w2).
  - vm_compute. reflexivity.
  - vm_compute. reflexivity.
Defined.

(** The scenario: two cleaned movies with release years 2000 and NULL, two
    cleaned ratings, the pair (user 1, movie 1) with the rating of time 200. *)
Example scenario_cleaned :
  select_cleaned_movies scenario_movies
  = [ CleanedMovie (Some 1) (Some "A (2000)") (Some 2000) (Some "A") (Some "Action");
      CleanedMovie (Some 2) (Some "B") None (Some "B") (Some "Comedy") ]
  ∧ select_cleaned_ratings scenario_ratings
    = [ CleanedRating (Some 1) (Some 1) (Some 5%Q) (Some 200) (Some 200);
        CleanedRating (Some 2) (Some 2) (Some 3%Q) (Some 50) (Some 50) ].
Proof. split; reflexivity. Qed.

(** C1.  The rating-cleaning query keeps, of two valid observations of the
    pair (user 1, movie 1), one at time 100 and one without a time, the one
    without a time: under [ORDER BY ... timestamp DESC] a NULL comes first.
    The observation with the maximum timestamp is discarded. *)
Theorem clean_ratings_null_timestamp_first :
  let staging :=
    [ StagingRating (Some 1) (Some 1) (Some 4%Q) (Some 100);
      StagingRating (Some 1) (Some 1) (Some 5%Q) None ] in
  let w := initial_world (<["staging_ratings" := TStagingRatings staging]> ∅) in
  Forall (fun r => valid_rating r = true) staging
  ∧ (clean_ratings_table w).1 = Ok 1
  ∧ db (clean_ratings_table w).2 !! "cleaned_ratings"
    = Some (TCleanedRatings
              [CleanedRating (Some 1) (Some 1) (Some 5%Q) None None]).
Proof. split_and!; [repeat constructor | reflexivity..]. Qed.

(** C2.  The movie-cleaning query keeps two rows for movie 1 when the staging
    relation holds two rows for it that differ in another column:
    [SELECT DISTINCT] compares whole rows. *)
Theorem clean_movies_duplicate_identifier :
  let staging :=
    [ StagingMovie (Some 1) (Some "Toy Story (1995)") (Some "Animation");
      StagingMovie (Some 1) (Some "Toy Story (1995)") (Some "Children") ] in
  let w := initial_world (<["staging_movies" := TStagingMovies staging]> ∅) in
  (clean_movies_table w).1 = Ok 2
  ∧ db (clean_movies_table w).2 !! "cleaned_movies"
    = Some (TCleanedMovies
        [ CleanedMovie (Some 1) (Some "Toy Story (1995)") (Some 1995)
            (Some "Toy Story") (Some "Animation");
          CleanedMovie (Some 1) (Some "Toy Story (1995)") (Some 1995)
            (Some "Toy Story") (Some "Children") ])
  ∧ ¬ NoDup (map cm_movieId (select_cleaned_movies staging)).
Proof.
  split_and!; [reflexivity.. |].
  vm_compute. intros H. apply NoDup_cons_1_1 in H. apply H. left.
Qed.

(** The examples of the specification: a title with a year, a title without. *)
Example clean_movie_toy_story :
  clean_movie (StagingMovie (Some 1) (Some "Toy Story (1995)") (Some "Animation"))
  = CleanedMovie (Some 1) (Some "Toy Story (1995)") (Some 1995)
      (Some "Toy Story") (Some "Animation").
Proof. reflexivity. Qed.

Example clean_movie_heat :
  clean_movie (StagingMovie (Some 6) (Some "Heat") (Some "Action"))
  = CleanedMovie (Some 6) (Some "Heat") None (Some "Heat") (Some "Action").
Proof. reflexivity. Qed.

(** C4.  A title whose parenthesised year is followed by a blank: the title is
    trimmed, but the year is looked for in the title as it is in the staging
    relation, where the closing parenthesis is not at the end.  The release
    year is NULL and the clean title keeps the year, although the trimmed title
    ends with it. *)
Theorem clean_movie_trailing_blank :
  let r := StagingMovie (Some 1) (Some "Toy Story (1995) ") (Some "Animation") in
  matches_year (TRIM "Toy Story (1995) ") = true
  ∧ clean_movie r
    = CleanedMovie (Some 1) (Some "Toy Story (1995)") None
        (Some "Toy Story (1995)") (Some "Animation")
  ∧ select_cleaned_movies [r] = [clean_movie r].
Proof. split_and!; reflexivity. Qed.

(** The rows of [cleaned_movies]: the images of the staging rows with an
    identifier, each once. *)
Lemma map_fmap {A B} (f : A → B) (l : list A) : map f l = f <$> l.
Proof. reflexivity. Qed.

Lemma flat_map_bind {A B} (f : A → list B) (l : list A) : flat_map f l = l ≫= f.
Proof. induction l as [|x l IH]; [done |]. cbn. by rewrite IH. Qed.

Lemma elem_of_select_cleaned_movies staging r' :
  r' ∈ select_cleaned_movies staging
  ↔ ∃ r, r ∈ staging ∧ is_Some (sm_movieId r) ∧ r' = clean_movie r.
Proof.
  unfold select_cleaned_movies, DISTINCT.
  rewrite elem_of_remove_dups, map_fmap, list_elem_of_fmap.
  setoid_rewrite list_elem_of_filter.
  split; [intros (r & -> & ? & ?) | intros (r & ? & ? & ->)]; eauto.
Qed.

Lemma select_cleaned_movies_NoDup staging : NoDup (select_cleaned_movies staging).
Proof. apply NoDup_remove_dups. Qed.

Lemma cleaned_movies_identifier_not_null staging r' :
  r' ∈ select_cleaned_movies staging → is_Some (cm_movieId r').
Proof. rewrite elem_of_select_cleaned_movies. by intros (r & _ & ? & ->). Qed.

(** C5, as stated, fails: an empty genre list is left empty. *)
Lemma empty_genres_left_empty :
  let r := StagingMovie (Some 1) (Some "Heat") (Some "") in
  is_Some (sm_movieId r)
  ∧ sm_genres r = Some ""
  ∧ select_cleaned_movies [r]
    = [CleanedMovie (Some 1) (Some "Heat") None (Some "Heat") (Some "")]
  ∧ cm_genres (clean_movie r) ≠ Some "Unknown".
Proof. split_and!; [by eexists | reflexivity.. | discriminate]. Qed.

(** C5, amended.  A staging movie row with an identifier has its image in
    [cleaned_movies]; the genres of the image are 'Unknown' when the genre list
    of the row is NULL, and the trimmed genre list otherwise (an empty or blank
    list stays the empty text); no row of [cleaned_movies] has NULL genres. *)
Theorem cleaned_genres_default staging r :
  r ∈ staging →
  is_Some (sm_movieId r) →
  clean_movie r ∈ select_cleaned_movies staging
  ∧ (sm_genres r = None → cm_genres (clean_movie r) = Some "Unknown")
  ∧ (∀ g, sm_genres r = Some g → cm_genres (clean_movie r) = Some (TRIM g))
  ∧ (∀ r', r' ∈ select_cleaned_movies staging → is_Some (cm_genres r')).
Proof.
  intros Hr Hid. split_and!.
  - apply elem_of_select_cleaned_movies. eauto.
  - cbn. by intros ->.
  - cbn. by intros g ->.
  - intros r' (r0 & _ & _ & ->)%elem_of_select_cleaned_movies.
    cbn. destruct (sm_genres r0); by eexists.
Qed.

Lemma cleaned_genres_default_witness :
  let r := StagingMovie (Some 2) (Some "Heat") None in
  let staging := [StagingMovie (Some 1) (Some "Toy Story (1995)") (Some " "); r] in
  clean_movie r ∈ select_cleaned_movies staging
  ∧ (sm_genres r = None → cm_genres (clean_movie r) = Some "Unknown")
  ∧ (∀ g, sm_genres r = Some g → cm_genres (clean_movie r) = Some (TRIM g))
  ∧ (∀ r', r' ∈ select_cleaned_movies staging → is_Some (cm_genres r')).
Proof.
  intros r staging. apply (cleaned_genres_default staging r).
  - unfold staging. apply list_elem_of_In. simpl. right. left. reflexivity.
  - simpl. exists 2. reflexivity.
Defined.

(** ** Statements of the warehouse builder *)

Lemma traverse_Ok {A B} (f : A → outcome B) l l' :
  traverse f l = Ok l' ↔ Forall2 (fun x y => f x = Ok y) l l'.
Proof.
  revert l'. induction l as [|x l IH]; intros l'; cbn.
  - split; [intros [= <-]; constructor | by inversion 1].
  - split.
    + intros (y & Hy & H)%obind_Ok. apply obind_Ok in H as (ys & Hys & [= <-]).
      constructor; [done | by apply IH].
    + inversion 1 as [|? y ? ys Hy Hys]; subst.
      rewrite Hy. cbn. apply IH in Hys as ->. done.
Qed.

Lemma traverse_length {A B} (f : A → outcome B) l l' :
  traverse f l = Ok l' → length l' = length l.
Proof. intros H%traverse_Ok. symmetry. by eapply Forall2_length. Qed.

Lemma SERIAL_length k n : length (SERIAL k n) = n.
Proof. unfold SERIAL. by rewrite length_map, length_seq. Qed.

Lemma SERIAL_NoDup k n : NoDup (SERIAL k n).
Proof.
  unfold SERIAL. rewrite map_fmap. apply NoDup_fmap_2.
  - intros i j. lia.
  - apply NoDup_ListNoDup, seq_NoDup.
Qed.

Lemma insert_rows_Ok {S A} (check : Z → S → outcome A) constraint rows acc all :
  (∀ l l', constraint l = Ok l' → l' = l) →
  insert_rows check constraint rows acc = Ok all →
  ∃ new,
    Forall2 (fun kr y => check kr.1 kr.2 = Ok y) rows new
    ∧ all = (acc ++ new)%list
    ∧ (new ≠ [] → constraint (acc ++ new)%list = Ok (acc ++ new)%list).
Proof.
  intros Hlaw. revert acc. induction rows as [|[k r] rows IH]; intros acc; cbn.
  - intros [= <-]. exists []. rewrite app_nil_r. by split_and!.
  - intros (y & Hy & H)%obind_Ok. apply obind_Ok in H as (acc' & Hc & H).
    pose proof (Hlaw _ _ Hc) as ->.
    apply IH in H as (new & Hnew & -> & Hall).
    exists (y :: new). rewrite <- app_assoc in *. cbn in *. split_and!.
    + by constructor.
    + done.
    + intros _. destruct new as [|y' new]; [done |]. by apply Hall.
Qed.

Lemma insert_rows_run {T A} (check : Z → T → outcome A) constraint rows acc new :
  Forall2 (fun kr y => check kr.1 kr.2 = Ok y) rows new →
  (∀ n, (0 < n ≤ length new)%nat →
        constraint (acc ++ take n new)%list = Ok (acc ++ take n new)%list) →
  insert_rows check constraint rows acc = Ok (acc ++ new)%list.
Proof.
  intros Hnew. revert acc.
  induction Hnew as [|[k r] y rows new Hy Hnew IH]; intros acc Hc; cbn.
  - by rewrite app_nil_r.
  - cbn in Hy. rewrite Hy. cbn.
    specialize (Hc 1%nat) as Hc1. cbn in Hc1. rewrite take_0 in Hc1.
    rewrite Hc1 by lia. cbn.
    rewrite IH; [by rewrite <- app_assoc |].
    intros n Hn. rewrite <- !app_assoc. cbn.
    apply (Hc (S n)). cbn. lia.
Qed.

Lemma INSERT_INTO_Ok {S A} relation (columns : Table → option (list A)) wrap
  (check : Z → S → outcome A) constraint source d u d' :
  (∀ l l', constraint l = Ok l' → l' = l) →
  INSERT_INTO relation columns wrap check constraint source d = Ok (u, d') →
  ∃ old new,
    FROM relation columns d = Ok old
    ∧ Forall2 (fun kr y => check kr.1 kr.2 = Ok y)
        (zip (SERIAL (length old) (length source)) source) new
    ∧ (new ≠ [] → constraint (old ++ new)%list = Ok (old ++ new)%list)
    ∧ d' = <[relation := wrap (old ++ new)%list]> d.
Proof.
  intros Hlaw. unfold INSERT_INTO. intros (old & Hold & H)%obind_Ok.
  apply obind_Ok in H as (all & Hall & [= <- <-]).
  apply insert_rows_Ok in Hall as (new & Hnew & -> & Hc); [| done].
  by exists old, new.
Qed.

Lemma INSERT_INTO_run {S A} relation (columns : Table → option (list A)) wrap
  (check : Z → S → outcome A) constraint source d new :
  FROM relation columns d = Ok [] →
  Forall2 (fun kr y => check kr.1 kr.2 = Ok y)
    (zip (SERIAL 0 (length source)) source) new →
  (∀ n, constraint (take n new) = Ok (take n new)) →
  INSERT_INTO relation columns wrap check constraint source d
  = Ok (tt, <[relation := wrap new]> d).
Proof.
  intros Hold Hnew Hall. unfold INSERT_INTO. rewrite Hold. cbn.
  erewrite insert_rows_run; [reflexivity | exact Hnew |].
  intros n _. apply Hall.
Qed.

Lemma UNIQUE_Ok {A K} `{EqDecision K} constraint (key : A → K) rows all :
  UNIQUE constraint key rows = Ok all ↔ all = rows ∧ NoDup (map key rows).
Proof.
  unfold UNIQUE. case_decide; [| split; [discriminate | tauto]].
  split; [by intros [= <-] | by intros [-> _]].
Qed.

(** [ORDER BY] permutes the rows. *)
Lemma insert_sorted_Permutation {A} (le : A → A → bool) x l :
  insert_sorted le x l ≡ₚ x :: l.
Proof.
  induction l as [|y l IH]; [done |]. cbn. destruct (le y x); [| done].
  rewrite IH. apply Permutation_swap.
Qed.

Lemma ORDER_BY_Permutation {A} (le : A → A → bool) l : ORDER_BY le l ≡ₚ l.
Proof.
  unfold ORDER_BY. etrans; [| symmetry; apply Permutation_rev].
  generalize (rev l). intros l'. induction l' as [|x l' IH]; [done |]. cbn.
  by rewrite insert_sorted_Permutation, IH.
Qed.

(** Texts and their characters. *)
Lemma length_list_ascii_of_string s :
  length (list_ascii_of_string s) = String.length s.
Proof. induction s as [|c s IH]; [done |]. cbn. by rewrite IH. Qed.

Lemma count_chars_le l : (count_chars l ≤ length l)%nat.
Proof.
  induction l as [|c l IH]; [done |]. cbn. destruct (is_continuation c); lia.
Qed.

Lemma char_length_le s : (char_length s ≤ String.length s)%nat.
Proof.
  unfold char_length. rewrite <- length_list_ascii_of_string.
  apply count_chars_le.
Qed.

Lemma take_chars_all n l :
  (count_chars l ≤ n)%nat → take_chars n l = l ∧ drop_chars n l = [].
Proof.
  revert n. induction l as [|c l IH]; intros n; cbn; [done |].
  destruct (is_continuation c).
  - intros [-> ->]%IH. done.
  - destruct n as [|n]; [lia |]. intros H.
    destruct (IH n) as [-> ->]; [lia | done].
Qed.

Lemma take_chars_cut n l :
  take_chars n l = l ∨ count_chars (take_chars n l) = n.
Proof.
  revert n. induction l as [|c l IH]; intros n; cbn; [by left |].
  destruct (is_continuation c) eqn:Hc.
  - destruct (IH n) as [-> | H]; [by left | right]. cbn. by rewrite Hc.
  - destruct n as [|n]; [by right |].
    destruct (IH n) as [-> | H]; [by left | right]. cbn. by rewrite Hc, H.
Qed.

Lemma VARCHAR_fits n column s :
  (char_length s ≤ n)%nat → VARCHAR n column (Some s) = Ok (Some s).
Proof.
  intros Hn. unfold VARCHAR.
  destruct (take_chars_all n (list_ascii_of_string s)) as [-> ->]; [done |].
  cbn. by rewrite String.string_of_list_ascii_of_string.
Qed.

Lemma VARCHAR_Ok n column s v :
  VARCHAR n column (Some s) = Ok v →
  ∃ s', v = Some s' ∧ (s' = s ∨ char_length s' = n).
Proof.
  unfold VARCHAR. destruct (forallb _ _); [| discriminate]. intros [= <-].
  eexists. split; [done |].
  destruct (take_chars_cut n (list_ascii_of_string s)) as [-> | H].
  - left. apply String.string_of_list_ascii_of_string.
  - right. unfold char_length.
    by rewrite String.list_ascii_of_string_of_list_ascii.
Qed.

(** ** The warehouse builder on the catalog *)

(** What is left of a UNIQUE constraint after an insertion in an empty
    relation. *)
Lemma UNIQUE_inserted {A K} `{EqDecision K} constraint (key : A → K) new :
  (new ≠ [] → UNIQUE constraint key new = Ok new) → NoDup (map key new).
Proof.
  destruct new as [|y new]; [constructor |].
  intros H. by apply UNIQUE_Ok in H as [_ ?].
Qed.

Ltac insert_inv :=
  repeat match goal with
  | H : INSERT_INTO _ _ _ _ (UNIQUE _ _) _ _ = Ok _ |- _ =>
      apply INSERT_INTO_Ok in H as (? & ? & ? & ? & ? & ->);
        [| by intros ? ? [-> _]%UNIQUE_Ok]
  | H : INSERT_INTO _ _ _ _ Ok _ _ = Ok _ |- _ =>
      apply INSERT_INTO_Ok in H as (? & ? & ? & ? & ? & ->);
        [| by intros ? ? [= ->]]
  end.

Ltac unique_inv :=
  cbn [app] in *;
  repeat match goal with
  | H : _ ≠ [] → UNIQUE _ _ _ = Ok _ |- _ => apply UNIQUE_inserted in H
  | H : _ ≠ [] → Ok _ = Ok _ |- _ => clear H
  end.

Lemma create_dim_movies_Ok w n w' :
  create_dim_movies w = (Ok n, w') →
  ∃ cms rows,
    db w !! "cleaned_movies" = Some (TCleanedMovies cms)
    ∧ Forall2 (fun kr y => dim_movie_of kr.1 kr.2 = Ok y)
        (zip (SERIAL 0 (length cms)) cms) rows
    ∧ NoDup (map dm_movie_id rows)
    ∧ db w' = <["dim_movies" := TDimMovies rows]> (delete "dim_movies" (db w))
    ∧ durable w' = db w'
    ∧ n = Z.of_nat (length rows).
Proof.
  unfold create_dim_movies. intros H. run_inv. world_simpl.
  unfold insert_dim_movies, SELECT_COUNT in *. run_inv. insert_inv. table_inv.
  simplify_map_eq. unique_inv. eexists _, _. split_and!; try done.
  by rewrite insert_insert_eq.
Qed.

Lemma create_dim_genres_Ok w n w' :
  create_dim_genres w = (Ok n, w') →
  ∃ cms rows,
    db w !! "cleaned_movies" = Some (TCleanedMovies cms)
    ∧ Forall2 (fun kr y => dim_genre_of kr.1 kr.2 = Ok y)
        (zip (SERIAL 0 (length (select_genre_names cms))) (select_genre_names cms))
        rows
    ∧ NoDup (map dg_genre_name rows)
    ∧ db w' = <["dim_genres" := TDimGenres rows]> (delete "dim_genres" (db w))
    ∧ durable w' = db w'.
Proof.
  unfold create_dim_genres. intros H. run_inv. world_simpl.
  unfold insert_dim_genres, SELECT_COUNT, genre_names in *.
  run_inv. insert_inv. table_inv.
  simplify_map_eq. unique_inv. eexists _, _. split_and!; try done.
  by rewrite insert_insert_eq.
Qed.

Lemma create_dim_users_Ok w n w' :
  create_dim_users w = (Ok n, w') →
  ∃ rows,
    db w' = <["dim_users" := TDimUsers rows]> (delete "dim_users" (db w))
    ∧ durable w' = db w'.
Proof.
  unfold create_dim_users. intros H. run_inv. world_simpl.
  unfold insert_dim_users, SELECT_COUNT in *. run_inv. insert_inv. table_inv.
  simplify_map_eq. unique_inv. eexists. split_and!; try done.
  by rewrite insert_insert_eq.
Qed.

Lemma create_bridge_movie_genres_Ok w n w' :
  create_bridge_movie_genres w = (Ok n, w') →
  ∃ cms genres rows,
    db w !! "cleaned_movies" = Some (TCleanedMovies cms)
    ∧ db w !! "dim_genres" = Some (TDimGenres genres)
    ∧ Forall2 (fun kr y => bridge_row_of kr.1 kr.2 = Ok y)
        (zip (SERIAL 0 (length (select_bridge cms genres)))
             (select_bridge cms genres))
        rows
    ∧ NoDup rows
    ∧ db w' = <["bridge_movie_genres" := TBridge rows]>
                (delete "bridge_movie_genres" (db w))
    ∧ durable w' = db w'
    ∧ n = Z.of_nat (length rows).
Proof.
  unfold create_bridge_movie_genres. intros H. run_inv. world_simpl.
  unfold insert_bridge, SELECT_COUNT in *. run_inv. insert_inv. table_inv.
  simplify_map_eq. unique_inv.
  match goal with H : NoDup (map _ _) |- _ => rewrite List.map_id in H end.
  eexists _, _, _. split_and!; try done.
  by rewrite insert_insert_eq.
Qed.

Lemma create_fact_ratings_Ok w n w' :
  create_fact_ratings w = (Ok n, w') →
  ∃ crs rows,
    db w !! "cleaned_ratings" = Some (TCleanedRatings crs)
    ∧ Forall2 (fun kr y => fact_rating_of kr.1 kr.2 = Ok y)
        (zip (SERIAL 0 (length crs)) crs) rows
    ∧ db w' = <["fact_ratings" := TFactRatings rows]>
                (delete "fact_ratings" (db w))
    ∧ durable w' = db w'
    ∧ n = Z.of_nat (length rows).
Proof.
  unfold create_fact_ratings. intros H. run_inv. world_simpl.
  unfold insert_fact_ratings, SELECT_COUNT in *. run_inv. insert_inv. table_inv.
  simplify_map_eq. unique_inv. eexists _, _. split_and!; try done.
  by rewrite insert_insert_eq.
Qed.

Lemma create_indexes_Ok w u w' :
  create_indexes w = (Ok u, w') → db w' = db w ∧ durable w' = db w.
Proof.
  unfold create_indexes. intros H. run_inv. unfold CREATE_INDEX in *. run_inv.
  done.
Qed.

Lemma verify_warehouse_Ok w u w' :
  verify_warehouse w = (Ok u, w') → db w' = durable w ∧ durable w' = durable w.
Proof.
  unfold verify_warehouse, warehouse_tables. intros H. run_inv.
  cbn [for_each] in *. unfold SELECT_COUNT in *. run_inv. done.
Qed.

(** Rows inserted from a source: the [i]-th source row gives the [i]-th new
    row, with serial number [i + 1]. *)
Lemma SERIAL_lookup n i :
  (i < n)%nat → SERIAL 0 n !! i = Some (Z.of_nat i + 1).
Proof.
  intros Hi. unfold SERIAL. rewrite map_fmap, list_lookup_fmap.
  rewrite lookup_seq_lt by done. reflexivity.
Qed.

Lemma inserted_lookup_l {S A} (check : Z → S → outcome A) source new i x :
  Forall2 (fun kr y => check kr.1 kr.2 = Ok y)
    (zip (SERIAL 0 (length source)) source) new →
  source !! i = Some x →
  ∃ y, new !! i = Some y ∧ check (Z.of_nat i + 1) x = Ok y.
Proof.
  intros H Hx.
  assert (zip (SERIAL 0 (length source)) source !! i = Some (Z.of_nat i + 1, x))
    as Hz.
  { apply lookup_zip_with_Some. eexists _, _. split_and!; [done | | done].
    apply SERIAL_lookup. by eapply lookup_lt_Some. }
  destruct (Forall2_lookup_l _ _ _ _ _ H Hz) as (y & Hy & Hc). eauto.
Qed.

Lemma inserted_lookup_r {S A} (check : Z → S → outcome A) source new i y :
  Forall2 (fun kr y => check kr.1 kr.2 = Ok y)
    (zip (SERIAL 0 (length source)) source) new →
  new !! i = Some y →
  ∃ x, source !! i = Some x ∧ check (Z.of_nat i + 1) x = Ok y.
Proof.
  intros H Hy.
  destruct (Forall2_lookup_r _ _ _ _ _ H Hy) as ([k x] & Hz & Hc).
  apply lookup_zip_with_Some in Hz as (k' & x' & [= <- <-] & Hk & Hx).
  rewrite SERIAL_lookup in Hk by (by eapply lookup_lt_Some).
  injection Hk as <-. eauto.
Qed.

Lemma inserted_length {S A} (check : Z → S → outcome A) source new :
  Forall2 (fun kr y => check kr.1 kr.2 = Ok y)
    (zip (SERIAL 0 (length source)) source) new →
  length new = length source.
Proof.
  intros H%Forall2_length. rewrite length_zip_with in H.
  rewrite SERIAL_length in H. lia.
Qed.

(** The constraints of [dim_genres] and of [bridge_movie_genres] on a row. *)
Lemma dim_genre_of_Ok k name g :
  dim_genre_of k name = Ok g →
  dg_genre_key g = k
  ∧ (dg_genre_name g = name ∨ char_length (dg_genre_name g) = 100%nat).
Proof.
  unfold dim_genre_of. intros (v & Hv & H)%obind_Ok.
  apply VARCHAR_Ok in Hv as (s' & -> & Hs). cbn in H. injection H as <-.
  done.
Qed.

Lemma bridge_row_of_Ok k r b :
  bridge_row_of k r = Ok b →
  r = (Some (bmg_movie_id b), bmg_genre_key b).
Proof.
  destruct r as [[id|] gk]; unfold bridge_row_of, INTEGER; cbn.
  - repeat (case_match; cbn; try discriminate). by intros [= <-].
  - repeat (case_match; cbn; try discriminate).
Qed.

Lemma elem_of_select_bridge movies genres id gk :
  (id, gk) ∈ select_bridge movies genres
  ↔ ∃ m gn g, m ∈ movies ∧ gn ∈ unnest_genres (cm_genres m) ∧ g ∈ genres
              ∧ TRIM gn = dg_genre_name g
              ∧ id = cm_movieId m ∧ gk = dg_genre_key g.
Proof.
  unfold select_bridge, DISTINCT. rewrite elem_of_remove_dups, flat_map_bind.
  rewrite list_elem_of_bind. split.
  - intros (m & H & Hm). rewrite flat_map_bind, list_elem_of_bind in H.
    destruct H as (gn & H & Hgn).
    rewrite map_fmap, list_elem_of_fmap in H. destruct H as (g & [= -> ->] & Hg).
    apply list_elem_of_filter in Hg as [? ?]. by exists m, gn, g.
  - intros (m & gn & g & Hm & Hgn & Hg & Ht & -> & ->).
    exists m. split; [| done]. rewrite flat_map_bind, list_elem_of_bind.
    exists gn. split; [| done]. rewrite map_fmap, list_elem_of_fmap.
    exists g. split; [done |]. by apply list_elem_of_filter.
Qed.

Lemma select_genre_names_NoDup movies : NoDup (select_genre_names movies).
Proof.
  unfold select_genre_names. rewrite ORDER_BY_Permutation.
  apply NoDup_remove_dups.
Qed.

Lemma elem_of_select_genre_names movies name :
  name ∈ select_genre_names movies
  ↔ ∃ m gn, m ∈ movies ∧ has_genres m = true
            ∧ gn ∈ unnest_genres (cm_genres m) ∧ name = TRIM gn.
Proof.
  unfold select_genre_names, DISTINCT.
  rewrite ORDER_BY_Permutation, elem_of_remove_dups.
  rewrite map_fmap, list_elem_of_fmap. setoid_rewrite flat_map_bind.
  setoid_rewrite list_elem_of_bind. setoid_rewrite list_elem_of_filter.
  split.
  - intros (gn & -> & m & ? & ? & ?). by exists m, gn.
  - intros (m & gn & ? & ? & ? & ->). exists gn. split; [done |]. by exists m.
Qed.

(** A genre name that a movie with a genre list carries has exactly one row
    in [dim_genres], provided the name is shorter than the column. *)
Lemma dim_genres_row movies genres name :
  Forall2 (fun kr y => dim_genre_of kr.1 kr.2 = Ok y)
    (zip (SERIAL 0 (length (select_genre_names movies))) (select_genre_names movies))
    genres →
  name ∈ select_genre_names movies →
  (char_length name < 100)%nat →
  ∃ i, select_genre_names movies !! i = Some name
       ∧ DimGenre (Z.of_nat i + 1) name ∈ genres
       ∧ ∀ g, g ∈ genres → dg_genre_name g = name →
              g = DimGenre (Z.of_nat i + 1) name.
Proof.
  intros Hins Hname Hlen.
  apply list_elem_of_lookup in Hname as [i Hi]. exists i. split; [done |].
  destruct (inserted_lookup_l _ _ _ _ _ Hins Hi) as (g & Hg & Hc).
  assert (g = DimGenre (Z.of_nat i + 1) name) as ->.
  { unfold dim_genre_of in Hc. rewrite VARCHAR_fits in Hc by lia.
    cbn in Hc. by injection Hc as <-. }
  split; [by eapply list_elem_of_lookup_2 |].
  intros g' [j Hj]%list_elem_of_lookup Hn.
  destruct (inserted_lookup_r _ _ _ _ _ Hins Hj) as (name' & Hj' & Hc').
  apply dim_genre_of_Ok in Hc' as [Hk [Hn' | Hn']].
  - rewrite Hn in Hn'. subst name'.
    assert (j = i) as -> by (eapply NoDup_lookup;
      [apply select_genre_names_NoDup | done..]).
    destruct g'; cbn in *; by subst.
  - rewrite Hn in Hn'. lia.
Qed.

(** The bridge rows of a movie whose genre list is 'Action|Comedy'. *)
Lemma bridge_rows_action_comedy movies genres rows id :
  Forall2 (fun kr y => dim_genre_of kr.1 kr.2 = Ok y)
    (zip (SERIAL 0 (length (select_genre_names movies))) (select_genre_names movies))
    genres →
  Forall2 (fun kr y => bridge_row_of kr.1 kr.2 = Ok y)
    (zip (SERIAL 0 (length (select_bridge movies genres)))
         (select_bridge movies genres))
    rows →
  (∃ m, m ∈ movies ∧ cm_movieId m = Some id) →
  (∀ m, m ∈ movies → cm_movieId m = Some id →
        cm_genres m = Some "Action|Comedy") →
  ∃ ka kc,
    ka ≠ kc
    ∧ DimGenre ka "Action" ∈ genres
    ∧ DimGenre kc "Comedy" ∈ genres
    ∧ ∀ b, (b ∈ rows ∧ bmg_movie_id b = id)
           ↔ (b = BridgeRow id ka ∨ b = BridgeRow id kc).
Proof.
  intros Hg Hb (m & Hm & Hid) Hall.
  pose proof (Hall m Hm Hid) as Hgen.
  assert (∀ name, name = "Action" ∨ name = "Comedy" →
            name ∈ select_genre_names movies) as Hin.
  { intros name Hname. apply elem_of_select_genre_names.
    exists m, name. split_and!; [done | by unfold has_genres; rewrite Hgen | |].
    - rewrite Hgen. cbn. apply list_elem_of_In. cbn. destruct Hname; auto.
    - by destruct Hname as [-> | ->]. }
  destruct (dim_genres_row movies genres "Action" Hg) as (i & Hi & Ha & Hua);
    [auto | vm_compute; lia |].
  destruct (dim_genres_row movies genres "Comedy" Hg) as (j & Hj & Hc & Huc);
    [auto | vm_compute; lia |].
  exists (Z.of_nat i + 1), (Z.of_nat j + 1). split_and!; [| done | done |].
  { intros E. assert (i = j) as -> by lia. congruence. }
  intros b. split.
  - intros [[n Hn]%list_elem_of_lookup Hbid].
    destruct (inserted_lookup_r _ _ _ _ _ Hb Hn) as ([mid gk] & Hp & Hrow).
    apply bridge_row_of_Ok in Hrow as [= -> ->].
    apply list_elem_of_lookup_2, elem_of_select_bridge in Hp
      as (m' & gn & g & Hm' & Hgn & Hgs & Ht & Hmid & Hk).
    rewrite Hbid in Hmid. symmetry in Hmid. rewrite (Hall m' Hm' Hmid) in Hgn.
    cbn in Hgn. apply list_elem_of_In in Hgn. cbn in Hgn.
    destruct b as [bid bk]; cbn in *. subst bid.
    destruct Hgn as [<- | [<- | []]]; cbn in Ht.
    + left. rewrite (Hua g Hgs) in Hk by done. by subst.
    + right. rewrite (Huc g Hgs) in Hk by done. by subst.
  - assert (∀ k name, DimGenre k name ∈ genres →
              name = "Action" ∨ name = "Comedy" →
              BridgeRow id k ∈ rows) as Hrows.
    { intros k name Hk Hname.
      assert ((Some id, k) ∈ select_bridge movies genres)
        as [n Hn]%list_elem_of_lookup.
      { apply elem_of_select_bridge. exists m, name, (DimGenre k name).
        split_and!; [done | | done | | done..].
        - rewrite Hgen. cbn. apply list_elem_of_In. cbn. destruct Hname; auto.
        - by destruct Hname as [-> | ->]. }
      destruct (inserted_lookup_l _ _ _ _ _ Hb Hn) as (b' & Hb' & Hrow).
      apply bridge_row_of_Ok in Hrow as [= -> ->].
      destruct b'. by eapply list_elem_of_lookup_2. }
    intros [-> | ->]; (split; [| done]); eauto.
Qed.

(** C9.  The bridge relation is built from [cleaned_movies] and from the genre
    dimension built from the same [cleaned_movies].  When both operations
    return: no (movie, genre) pair appears twice in [bridge_movie_genres], and
    a movie whose genre list is 'Action|Comedy' has exactly two bridge rows,
    one with the key of the genre 'Action' and one with the key of the genre
    'Comedy'. *)
Theorem bridge_pairs_unique_and_fan_out w n1 w1 w2 n2 w3 :
  create_dim_genres w = (Ok n1, w1) →
  db w2 !! "cleaned_movies" = db w !! "cleaned_movies" →
  db w2 !! "dim_genres" = db w1 !! "dim_genres" →
  create_bridge_movie_genres w2 = (Ok n2, w3) →
  ∃ movies genres rows,
    db w !! "cleaned_movies" = Some (TCleanedMovies movies)
    ∧ db w3 !! "dim_genres" = Some (TDimGenres genres)
    ∧ db w3 !! "bridge_movie_genres" = Some (TBridge rows)
    ∧ NoDup rows
    ∧ ∀ id,
        (∃ m, m ∈ movies ∧ cm_movieId m = Some id) →
        (∀ m, m ∈ movies → cm_movieId m = Some id →
              cm_genres m = Some "Action|Comedy") →
        ∃ ka kc,
          ka ≠ kc
          ∧ DimGenre ka "Action" ∈ genres
          ∧ DimGenre kc "Comedy" ∈ genres
          ∧ filter (fun b => bmg_movie_id b = id) rows
            ≡ₚ [BridgeRow id ka; BridgeRow id kc]
          ∧ length (filter (fun b => bmg_movie_id b = id) rows) = 2%nat.
Proof.
  intros Hg Hcm Hdg Hb.
  apply create_dim_genres_Ok in Hg as (movies & genres & Hm & Hgi & _ & Hdb1 & _).
  apply create_bridge_movie_genres_Ok in Hb
    as (movies' & genres' & rows & Hm' & Hg' & Hbi & Hnd & Hdb3 & _ & _).
  rewrite Hcm, Hm in Hm'. injection Hm' as <-.
  rewrite Hdg, Hdb1, lookup_insert_eq in Hg'. injection Hg' as <-.
  exists movies, genres, rows. split_and!; [done | | | done |].
  - rewrite Hdb3, lookup_insert_ne, lookup_delete_ne by done.
    by rewrite Hdg, Hdb1, lookup_insert_eq.
  - by rewrite Hdb3, lookup_insert_eq.
  - intros id Hex Hall.
    destruct (bridge_rows_action_comedy movies genres rows id Hgi Hbi Hex Hall)
      as (ka & kc & Hne & Ha & Hc & Hrows).
    exists ka, kc. split_and!; try done.
    + apply NoDup_Permutation.
      * by apply NoDup_filter.
      * apply NoDup_cons. split; [| apply NoDup_singleton].
        intros [= ?]%list_elem_of_singleton. done.
      * intros b. rewrite list_elem_of_filter, (comm and), Hrows.
        rewrite !elem_of_cons, elem_of_nil. tauto.
    + erewrite (Permutation_length (l' := [BridgeRow id ka; BridgeRow id kc]));
        [done |].
      apply NoDup_Permutation.
      * by apply NoDup_filter.
      * apply NoDup_cons. split; [| apply NoDup_singleton].
        intros [= ?]%list_elem_of_singleton. done.
      * intros b. rewrite list_elem_of_filter, (comm and), Hrows.
        rewrite !elem_of_cons, elem_of_nil. tauto.
Qed.

Definition fan_out_movies : list cleaned_movie :=
  [ CleanedMovie (Some 1) (Some "Rush Hour (1998)") (Some 1998)
      (Some "Rush Hour") (Some "Action|Comedy");
    CleanedMovie (Some 2) (Some "Heat (1995)") (Some 1995)
      (Some "Heat") (Some "Action|Crime") ].

Lemma bridge_pairs_unique_and_fan_out_witness :
  let w := initial_world (<["cleaned_movies" := TCleanedMovies fan_out_movies]> ∅) in
  let w1 := (create_dim_genres w).2 in
  let w3 := (create_bridge_movie_genres w1).2 in
  ∃ movies genres rows,
    db w !! "cleaned_movies" = Some (TCleanedMovies movies)
    ∧ db w3 !! "dim_genres" = Some (TDimGenres genres)
    ∧ db w3 !! "bridge_movie_genres" = Some (TBridge rows)
    ∧ NoDup rows
    ∧ ∀ id,
        (∃ m, m ∈ movies ∧ cm_movieId m = Some id) →
        (∀ m, m ∈ movies → cm_movieId m = Some id →
              cm_genres m = Some "Action|Comedy") →
        ∃ ka kc,
          ka ≠ kc
          ∧ DimGenre ka "Action" ∈ genres
          ∧ DimGenre kc "Comedy" ∈ genres
          ∧ filter (fun b => bmg_movie_id b = id) rows
            ≡ₚ [BridgeRow id ka; BridgeRow id kc]
          ∧ length (filter (fun b => bmg_movie_id b = id) rows) = 2%nat.
Proof.
  intros w w1 w3.
  apply (bridge_pairs_unique_and_fan_out w 3 w1 w1 4 w3).
  - vm_compute. reflexivity.
  - reflexivity.
  - reflexivity.
  - vm_compute. reflexivity.
Defined.

(** The bridge of the witness: movie 1 with the genres 1 (Action) and 2
    (Comedy), movie 2 with the genres 1 (Action) and 3 (Crime). *)
Example fan_out_bridge :
  let w := initial_world (<["cleaned_movies" := TCleanedMovies fan_out_movies]> ∅) in
  db (create_bridge_movie_genres (create_dim_genres w).2).2 !! "bridge_movie_genres"
  = Some (TBridge [BridgeRow 1 1; BridgeRow 1 2; BridgeRow 2 1; BridgeRow 2 3]).
Proof. reflexivity. Qed.

(** ** The movie dimension and its constraints *)

Lemma dim_movie_of_Ok k r d :
  dim_movie_of k r = Ok d →
  dm_movie_key d = k
  ∧ cm_movieId r = Some (dm_movie_id d)
  ∧ is_Some (cm_title r)
  ∧ cm_release_year r = dm_release_year d.
Proof.
  unfold dim_movie_of, INTEGER, VARCHAR, NOT_NULL.
  destruct r as [[id|] [t|] [y|] [c|] g]; cbn;
    repeat (case_match; cbn; try discriminate); intros [= <-]; cbn; eauto.
Qed.

(** A row of [cleaned_movies] that the columns of [dim_movies] can hold. *)
Definition insertable_movie (r : cleaned_movie) : Prop :=
  (∃ id, cm_movieId r = Some id ∧ -2147483648 ≤ id ≤ 2147483647)
  ∧ (∃ t, cm_title r = Some t ∧ (char_length t ≤ 500)%nat)
  ∧ (∀ c, cm_clean_title r = Some c → (char_length c ≤ 500)%nat)
  ∧ (∀ y, cm_release_year r = Some y → -2147483648 ≤ y ≤ 2147483647).

(** The row of [dim_movies] for the [i]-th row of [cleaned_movies]. *)
Definition dim_movie_row (i : nat) (r : cleaned_movie) : dim_movie :=
  DimMovie (Z.of_nat i + 1) (default 0 (cm_movieId r))
    (default "" (cm_title r)) (cm_clean_title r) (cm_release_year r).

Lemma INTEGER_run column z :
  -2147483648 ≤ z ≤ 2147483647 → INTEGER column (Some z) = Ok (Some z).
Proof.
  intros [? ?]. unfold INTEGER.
  destruct (Z.leb_spec (-2147483648) z); [| lia].
  destruct (Z.leb_spec z 2147483647); [done | lia].
Qed.

Lemma dim_movie_of_run i r :
  insertable_movie r → dim_movie_of (Z.of_nat i + 1) r = Ok (dim_movie_row i r).
Proof.
  intros ((id & Hid & ?) & (t & Ht & ?) & Hc & Hy).
  unfold dim_movie_of, dim_movie_row.
  rewrite Hid, Ht, INTEGER_run by done. cbn [obind].
  rewrite VARCHAR_fits by done. cbn [obind].
  assert (VARCHAR 500 "clean_title" (cm_clean_title r) = Ok (cm_clean_title r))
    as ->.
  { destruct (cm_clean_title r) as [c|]; [| done]. apply VARCHAR_fits; auto. }
  cbn [obind].
  assert (INTEGER "release_year" (cm_release_year r) = Ok (cm_release_year r))
    as ->.
  { destruct (cm_release_year r) as [y|]; [| done]. apply INTEGER_run; auto. }
  done.
Qed.

Lemma insert_dim_movies_run movies d :
  d !! "cleaned_movies" = Some (TCleanedMovies movies) →
  d !! "dim_movies" = Some (TDimMovies []) →
  Forall insertable_movie movies →
  NoDup (map cm_movieId movies) →
  insert_dim_movies d
  = Ok (tt, <["dim_movies" := TDimMovies (imap dim_movie_row movies)]> d).
Proof.
  intros Hm Hd Hall Hnd. unfold insert_dim_movies.
  erewrite FROM_run by done. cbn [obind].
  apply INSERT_INTO_run with (new := imap dim_movie_row movies).
  - by eapply FROM_run.
  - apply Forall2_same_length_lookup_2.
    { rewrite length_zip_with, SERIAL_length, length_imap. lia. }
    intros i [k r] y (k' & r' & [= <- <-] & Hk & Hr)%lookup_zip_with_Some Hy.
    rewrite SERIAL_lookup in Hk by (by eapply lookup_lt_Some).
    injection Hk as <-. rewrite list_lookup_imap, Hr in Hy. injection Hy as <-.
    cbn. apply dim_movie_of_run. by eapply Forall_lookup_1.
  - intros n. apply UNIQUE_Ok. split; [done |].
    rewrite map_fmap, fmap_take.
    eapply sublist_NoDup; [| apply sublist_take].
    rewrite fmap_imap.
    assert (imap (fun n => dm_movie_id ∘ dim_movie_row n) movies
            = default 0 <$> (cm_movieId <$> movies)) as ->.
    { rewrite <- list_fmap_compose, <- imap_const. reflexivity. }
    apply NoDup_fmap_2_strong; [| done].
    intros x y [rx [-> Hx]]%list_elem_of_fmap [ry [-> Hy]]%list_elem_of_fmap.
    rewrite Forall_forall in Hall.
    destruct (Hall rx Hx) as ((? & -> & _) & _).
    destruct (Hall ry Hy) as ((? & -> & _) & _). cbn. by intros ->.
Qed.

Lemma create_dim_movies_run w movies :
  faults w = [] →
  db w !! "cleaned_movies" = Some (TCleanedMovies movies) →
  Forall insertable_movie movies →
  NoDup (map cm_movieId movies) →
  ∃ w', create_dim_movies w = (Ok (Z.of_nat (length movies)), w')
        ∧ db w' !! "dim_movies" = Some (TDimMovies (imap dim_movie_row movies))
        ∧ faults w' = [].
Proof.
  intros Hf Hm Hall Hnd. eexists. split_and!.
  - unfold create_dim_movies, SELECT_COUNT. run_ok.
    + logs_simpl. apply insert_dim_movies_run; by simplify_map_eq.
    + logs_simpl. apply query_run. rewrite lookup_insert_eq. cbn.
      by rewrite length_imap.
  - logs_simpl. by rewrite lookup_insert_eq.
  - faults_ok.
Qed.

Lemma bind_raise_run {A B} (m : M A) (k : A → M B) w e w' :
  m w = (Raise e, w') → (x <- m ;; k x) w = (Raise e, w').
Proof. unfold bind. by intros ->. Qed.

Lemma create_dim_movies_null_title w movies :
  db w !! "cleaned_movies" = Some (TCleanedMovies movies) →
  (∃ r, r ∈ movies ∧ cm_title r = None) →
  ∃ e w', create_dim_movies w = (Raise e, w').
Proof.
  intros Hm (r & [i Hi]%list_elem_of_lookup & Hr).
  destruct (create_dim_movies w) as [[n|e] w'] eqn:H; [| eauto].
  apply create_dim_movies_Ok in H as (movies' & rows & Hm' & Hins & _).
  rewrite Hm in Hm'. injection Hm' as <-.
  destruct (inserted_lookup_l _ _ _ _ _ Hins Hi) as (d & _ & Hd).
  apply dim_movie_of_Ok in Hd as (_ & _ & [t Ht] & _). congruence.
Qed.

(** C10, as stated, fails: the rows of [cleaned_movies] all have an identifier
    and a title, and the insertion in [dim_movies] is refused, (1) for two
    rows that the movie cleaning keeps for one identifier, (2) for a title of
    more than 500 characters. *)
Lemma dim_movies_insert_refused :
  let movies1 := select_cleaned_movies
    [ StagingMovie (Some 1) (Some "Heat (1995)") (Some "Action");
      StagingMovie (Some 1) (Some "Heat (1995)") (Some "Crime") ] in
  let movies2 := select_cleaned_movies
    [ StagingMovie (Some 1)
        (Some (string_of_list_ascii (repeat "x"%char 501))) (Some "Action") ] in
  let world movies :=
    initial_world (<["cleaned_movies" := TCleanedMovies movies]> ∅) in
  Forall (fun r => is_Some (cm_movieId r) ∧ is_Some (cm_title r))
    (movies1 ++ movies2)%list
  ∧ (create_dim_movies (world movies1)).1
    = Raise (UniqueViolation "dim_movies_movie_id_key")
  ∧ (create_dim_movies (world movies2)).1
    = Raise (StringDataRightTruncation "title").
Proof.
  split_and!; [| vm_compute; reflexivity..].
  vm_compute. repeat constructor; by eexists.
Qed.

(** C10, amended.  (1) The movie cleaning keeps every staging row with an
    identifier, also when its title is NULL, and no row without an identifier.
    (2) When [cleaned_movies] holds a row whose title is NULL,
    [create_dim_movies] raises and so does the [main] of the warehouse
    builder.  (3) When the database is reachable, the identifiers of
    [cleaned_movies] are pairwise distinct and every row has an identifier and
    a release year of type INTEGER, a title of at most 500 characters and a
    clean title that is NULL or of at most 500 characters, then
    [create_dim_movies] returns the number of rows of [cleaned_movies] and
    [dim_movies] holds one row for each of them, in order, with keys from 1. *)
Theorem dim_movies_title_not_null :
  (∀ staging r,
     r ∈ staging → is_Some (sm_movieId r) →
     clean_movie r ∈ select_cleaned_movies staging
     ∧ (sm_title r = None → cm_title (clean_movie r) = None))
  ∧ (∀ staging r', r' ∈ select_cleaned_movies staging → is_Some (cm_movieId r'))
  ∧ (∀ w movies,
       db w !! "cleaned_movies" = Some (TCleanedMovies movies) →
       (∃ r, r ∈ movies ∧ cm_title r = None) →
       (∃ e w', create_dim_movies w = (Raise e, w'))
       ∧ (∃ e w', warehouse_main w = (Raise e, w')))
  ∧ (∀ w movies,
       faults w = [] →
       db w !! "cleaned_movies" = Some (TCleanedMovies movies) →
       Forall insertable_movie movies →
       NoDup (map cm_movieId movies) →
       ∃ w', create_dim_movies w = (Ok (Z.of_nat (length movies)), w')
             ∧ db w' !! "dim_movies"
               = Some (TDimMovies (imap dim_movie_row movies))).
Proof.
  split_and!.
  - intros staging r Hr Hid. split.
    + apply elem_of_select_cleaned_movies. eauto.
    + cbn. by intros ->.
  - apply cleaned_movies_identifier_not_null.
  - intros w movies Hm Hr. split; [by eapply create_dim_movies_null_title |].
    set (w0 := add_log (LogRecord INFO "Creating Dimension Tables..." None)
                 (add_log (LogRecord INFO "Database engine created successfully" None)
                    (add_log (LogRecord INFO "TASK 5: Create Dimension and Fact Tables" None) w))).
    destruct (create_dim_movies_null_title w0 movies Hm Hr) as (e & w' & H).
    exists e, w'. unfold warehouse_main, create_engine_connection.
    eapply bind_run'; [run_ok |].
    eapply bind_run'; [run_ok |].
    eapply bind_run'; [run_ok |].
    by apply bind_raise_run.
  - intros w movies Hf Hm Hall Hnd.
    destruct (create_dim_movies_run w movies Hf Hm Hall Hnd) as (w' & ? & ? & _).
    eauto.
Qed.

Lemma dim_movies_title_not_null_witness :
  let r := StagingMovie (Some 7) None (Some "Drama") in
  let w_null := initial_world (<["cleaned_movies" :=
                  TCleanedMovies (select_cleaned_movies [r])]> ∅) in
  let movies := select_cleaned_movies scenario_movies in
  let w := initial_world (<["cleaned_movies" := TCleanedMovies movies]> ∅) in
  (clean_movie r ∈ select_cleaned_movies [r]
   ∧ (sm_title r = None → cm_title (clean_movie r) = None))
  ∧ ((∃ e w', create_dim_movies w_null = (Raise e, w'))
     ∧ (∃ e w', warehouse_main w_null = (Raise e, w')))
  ∧ (∃ w', create_dim_movies w = (Ok (Z.of_nat (length movies)), w')
           ∧ db w' !! "dim_movies"
             = Some (TDimMovies (imap dim_movie_row movies))).
Proof.
  intros r w_null movies w.
  destruct dim_movies_title_not_null as (H1 & _ & H3 & H4).
  split; [| split].
  - apply (H1 [r] r).
    + (apply list_elem_of_In; simpl; left; reflexivity).
    + simpl. exists 7. reflexivity.
  - apply (H3 w_null (select_cleaned_movies [r])).
    + (vm_compute; reflexivity).
    + exists (clean_movie r). split.
      * (vm_compute; apply list_elem_of_In; simpl; left; reflexivity).
      * reflexivity.
  - apply (H4 w movies).
    + reflexivity.
    + (vm_compute; reflexivity).
    + unfold movies. rewrite (proj1 scenario_cleaned).
      apply Forall_cons; split; [| apply Forall_cons; split; [| constructor]].
      * split; [| split; [| split]].
        -- exists 1. split; [reflexivity | lia].
        -- eexists. split; [reflexivity | vm_compute; lia].
        -- intros c [= <-]. vm_compute. lia.
        -- intros y [= <-]. lia.
      * split; [| split; [| split]].
        -- exists 2. split; [reflexivity | lia].
        -- eexists. split; [reflexivity | vm_compute; lia].
        -- intros c [= <-]. vm_compute. lia.
        -- intros y H. simpl in H. discriminate H.
    + unfold movies. rewrite (proj1 scenario_cleaned). simpl.
      apply NoDup_cons. split; [| apply NoDup_singleton].
      intros H%list_elem_of_In. simpl in H. destruct H as [[=] | []].
Defined.

(** ** The analytics reporter *)

Definition artifact (df : DataFrame) : Table :=
  TText (df_columns df) (df_records df).

Definition top_10_movies_path : string :=
  path_join DATA_OUTPUT_PATH "top_10_movies_by_avg_rating.csv".
Definition least_10_movies_path : string :=
  path_join DATA_OUTPUT_PATH "least_10_movies_by_avg_rating.csv".
Definition top_5_genres_path : string :=
  path_join DATA_OUTPUT_PATH "top_5_genres_by_num_ratings.csv".
Definition least_5_genres_path : string :=
  path_join DATA_OUTPUT_PATH "least_5_genres_by_num_ratings.csv".

(** The statements of a trace, without the openings of connections. *)
Definition statements (w : World) : list string :=
  filter (fun s => s ≠ "connect") (map fst (trace w)).

Lemma run_query_to_csv_run frame_of sql output_filename description w df :
  faults w = [] →
  frame_of sql (db w) = Ok df →
  run_query_to_csv frame_of sql output_filename description w
  = (Ok df,
     add_log (LogRecord INFO "Results preview:" None)
       (add_log (LogRecord INFO
                   ("Saved results to " +:+ path_join DATA_OUTPUT_PATH output_filename)
                   None)
          (set_files (<[path_join DATA_OUTPUT_PATH output_filename := artifact df]>
                        (files w))
             (set_db (durable w)
                (add_trace (sql, false)
                   (add_trace ("connect", false)
                      (add_log (LogRecord INFO ("Running analysis: " +:+ description)
                                  None) w))))))).
Proof.
  intros Hf Hq. unfold run_query_to_csv, read_sql.
  apply try_reraise_run.
  eapply bind_run'; [run_ok |].
  eapply bind_run'.
  { eapply with_connect_run; [faults_ok |].
    eapply round_trip_run'; [faults_ok |]. apply query_run. exact Hq. }
  reflexivity.
Qed.

(** C6, as stated, fails: the reporter runs four queries and writes four
    files, not five.  Here every query returns one column and no row, and the
    output directory is empty before the run. *)
Lemma analytics_writes_four_files :
  let frame_of (q : string) (d : DB) := Ok (mkDataFrame ["n"] []) in
  let w' := (analytics_main frame_of (initial_world ∅)).2 in
  (analytics_main frame_of (initial_world ∅)).1 = Ok tt
  ∧ length (statements w') = 4%nat
  ∧ size (files w') = 4%nat
  ∧ size (files w') ≠ 5%nat.
Proof. vm_compute. split_and!; [reflexivity.. | discriminate]. Qed.

(** C6, amended.  When the database is reachable and answers the four
    aggregate queries, the reporter runs exactly these four queries, leaves the
    catalog as it is, and writes four files, one for each query, made of the
    column names and then the records of its result; whatever a file of one of
    these names held before is replaced. *)
Theorem analytics_four_artifacts frame_of w df1 df2 df3 df4 :
  faults w = [] →
  db w = durable w →
  frame_of sql_top_10_movies (db w) = Ok df1 →
  frame_of sql_least_10_movies (db w) = Ok df2 →
  frame_of sql_top_5_genres (db w) = Ok df3 →
  frame_of sql_least_5_genres (db w) = Ok df4 →
  ∃ w',
    analytics_main frame_of w = (Ok tt, w')
    ∧ files w'
      = <[least_5_genres_path := artifact df4]>
          (<[top_5_genres_path := artifact df3]>
             (<[least_10_movies_path := artifact df2]>
                (<[top_10_movies_path := artifact df1]> (files w))))
    ∧ NoDup [top_10_movies_path; least_10_movies_path;
             top_5_genres_path; least_5_genres_path]
    ∧ statements w'
      = ([sql_least_5_genres; sql_top_5_genres;
          sql_least_10_movies; sql_top_10_movies] ++ statements w)%list
    ∧ db w' = db w.
Proof.
  intros Hf Hd H1 H2 H3 H4. eexists. split_and!.
  - unfold analytics_main, create_engine_connection,
      top_10_movies_by_avg_rating, least_10_movies_by_avg_rating,
      top_5_genres_by_num_ratings, least_5_genres_by_num_ratings.
    eapply bind_run'; [run_ok |].
    eapply bind_run'; [run_ok |].
    eapply bind_run'; [run_ok |].
    eapply bind_run'; [apply run_query_to_csv_run; [faults_ok | exact H1] |].
    eapply bind_run'; [run_ok |].
    eapply bind_run';
      [apply run_query_to_csv_run; [faults_ok | world_simpl; by rewrite <- Hd] |].
    eapply bind_run'; [run_ok |].
    eapply bind_run';
      [apply run_query_to_csv_run; [faults_ok | world_simpl; by rewrite <- Hd] |].
    eapply bind_run'; [run_ok |].
    eapply bind_run';
      [apply run_query_to_csv_run; [faults_ok | world_simpl; by rewrite <- Hd] |].
    run_ok.
  - reflexivity.
  - apply NoDup_ListNoDup. repeat constructor; simpl; intuition discriminate.
  - unfold statements. world_simpl. cbn [map fst].
    repeat (rewrite filter_cons; case_decide; [| done]; try done).
  - world_simpl. by rewrite Hd.
Qed.

Lemma analytics_four_artifacts_witness :
  let frame_of (q : string) (d : DB) :=
    Ok (mkDataFrame ["genre_name"; "num_ratings"; "avg_rating"]
                    [["Action"; "2"; "4.00"]]) in
  let df := mkDataFrame ["genre_name"; "num_ratings"; "avg_rating"]
                        [["Action"; "2"; "4.00"]] in
  let w := set_files {[ top_5_genres_path := TText ["old"] [] ]}
             (initial_world ∅) in
  ∃ w',
    analytics_main frame_of w = (Ok tt, w')
    ∧ files w'
      = <[least_5_genres_path := artifact df]>
          (<[top_5_genres_path := artifact df]>
             (<[least_10_movies_path := artifact df]>
                (<[top_10_movies_path := artifact df]> (files w))))
    ∧ NoDup [top_10_movies_path; least_10_movies_path;
             top_5_genres_path; least_5_genres_path]
    ∧ statements w'
      = ([sql_least_5_genres; sql_top_5_genres;
          sql_least_10_movies; sql_top_10_movies] ++ statements w)%list
    ∧ db w' = db w.
Proof.
  intros frame_of df w.
  apply (analytics_four_artifacts frame_of w df df df df); reflexivity.
Defined.

(** ** The quality gate *)

(** What one assertion comes to: its condition holds of the observed value,
    it does not, or the query or the condition raised. *)
Inductive verdict :=
| Passed (value : option Q)
| Failed (value : option Q)
| Errored (e : exn).

Definition is_passed (x : verdict) : bool :=
  match x with Passed _ => true | _ => false end.

(** The record that an assertion appends to the results. *)
Definition record_of (c : check) (x : verdict) : list result_record :=
  match x with
  | Passed v => [ResultRecord (check_name c) "PASSED" v (check_description c)]
  | Failed v => [ResultRecord (check_name c) "FAILED" v (check_description c)]
  | Errored _ => []
  end.

(** The checker after an assertion. *)
Definition count (c : check) (x : verdict) (self : DataQualityChecker)
  : DataQualityChecker :=
  Checker (if is_passed x then S (checks_passed self) else checks_passed self)
          (if is_passed x then checks_failed self else S (checks_failed self))
          (results self ++ record_of c x)%list.

Definition count_all (cs : list check) (xs : list verdict)
  (self : DataQualityChecker) : DataQualityChecker :=
  foldl (fun s cx => count cx.1 cx.2 s) self (zip cs xs).

(** A verdict with a value comes from the query of the assertion, on the
    catalog as it is when the gate starts. *)
Definition observed (scalar_of : string → DB → outcome (option Q)) (w : World)
  (c : check) (x : verdict) : Prop :=
  match x with
  | Passed v =>
      (scalar_of (check_query c) (db w) = Ok v
       ∨ scalar_of (check_query c) (durable w) = Ok v)
      ∧ expected_condition c v = Ok true
  | Failed v =>
      (scalar_of (check_query c) (db w) = Ok v
       ∨ scalar_of (check_query c) (durable w) = Ok v)
      ∧ expected_condition c v = Ok false
  | Errored _ => True
  end.

(** The verdict of an assertion on a reachable database whose catalog is
    [d]: the query is evaluated, then the condition on its value. *)
Definition verdict_of (scalar_of : string → DB → outcome (option Q)) (d : DB)
  (c : check) : verdict :=
  match scalar_of (check_query c) d with
  | Ok v => match expected_condition c v with
            | Ok true => Passed v
            | Ok false => Failed v
            | Raise e => Errored e
            end
  | Raise e => Errored e
  end.

Lemma run_check_verdict scalar_of self c w :
  ∃ x w',
    run_check scalar_of self c w = (Ok (is_passed x, count c x self), w')
    ∧ observed scalar_of w c x
    ∧ (db w' = db w ∨ db w' = durable w)
    ∧ durable w' = durable w
    ∧ (faults w = [] →
       x = verdict_of scalar_of (db w) c ∧ faults w' = [] ∧ db w' = durable w).
Proof.
  assert (∀ n : nat, n ∈ faults w → faults w = [] → False) as Hnone.
  { intros n Hn Hf. rewrite Hf in Hn. by apply elem_of_nil in Hn. }
  unfold run_check, try_except, with_connect, bind at 1, round_trip at 1.
  case_bool_decide as F1.
  { exists (Errored OperationalError). eexists. unfold count. cbn.
    rewrite app_nil_r. split_and!; eauto. intros Hf. by destruct (Hnone _ F1). }
  cbv beta iota. unfold try_except, bind, execute, round_trip.
  world_simpl. case_bool_decide as F2.
  { exists (Errored OperationalError). eexists. unfold count. cbn.
    rewrite app_nil_r. split_and!; eauto. intros Hf. by destruct (Hnone _ F2). }
  unfold query, obind, verdict_of.
  destruct (scalar_of (check_query c) (db w)) as [v|e] eqn:Hq; cycle 1.
  { exists (Errored e). eexists. unfold count. cbn. rewrite app_nil_r.
    split_and!; eauto. }
  destruct (expected_condition c v) as [[|]|e] eqn:Hc.
  - exists (Passed v). eexists. unfold count. cbn. split_and!; eauto 10.
  - exists (Failed v). eexists. unfold count. cbn. split_and!; eauto 10.
  - exists (Errored e). eexists. unfold count. cbn. rewrite app_nil_r.
    split_and!; eauto.
Qed.

Lemma run_checks_verdicts scalar_of cs checker w w0 :
  (db w = db w0 ∨ db w = durable w0) →
  durable w = durable w0 →
  ∃ xs w',
    run_checks scalar_of cs checker w = (Ok (count_all cs xs checker), w')
    ∧ Forall2 (observed scalar_of w0) cs xs
    ∧ (db w' = db w0 ∨ db w' = durable w0)
    ∧ durable w' = durable w0
    ∧ (faults w = [] → db w = durable w →
       xs = map (verdict_of scalar_of (db w)) cs
       ∧ faults w' = [] ∧ db w' = durable w).
Proof.
  revert checker w. induction cs as [|c cs IH]; intros checker w Hdb Hdur.
  - exists [], w. by split_and!.
  - destruct (run_check_verdict scalar_of checker c w)
      as (x & w1 & Hrun & Hobs & Hdb1 & Hdur1 & Hreach1).
    destruct (IH (count c x checker) w1)
      as (xs & w' & Hruns & Hall & ? & ? & Hreach).
    { rewrite Hdur in Hdb1. destruct Hdb1 as [-> | ->]; auto. }
    { congruence. }
    exists (x :: xs), w'. split_and!; try done.
    + cbn [run_checks]. eapply bind_run'; [exact Hrun |]. exact Hruns.
    + constructor; [| done].
      destruct x; cbn in *; try done;
        destruct Hobs as [Hv ?]; (split; [| done]);
        rewrite Hdur in Hv; destruct Hdb as [E | E]; rewrite E in Hv; tauto.
    + intros Hf He. destruct (Hreach1 Hf) as (-> & Hf1 & Hd1).
      destruct Hreach as (-> & Hf' & Hd'); [done | congruence |].
      split_and!; [| done | congruence].
      cbn [map]. f_equal. f_equal. congruence.
Qed.

Section Counting.
Implicit Types (cs : list check) (xs : list verdict) (s : DataQualityChecker).

Lemma count_all_passed cs xs s :
  length xs = length cs →
  checks_passed (count_all cs xs s)
  = (checks_passed s + length (filter (fun x => is_passed x = true) xs))%nat.
Proof.
  revert xs s. induction cs as [|c cs IH]; intros [|x xs] s [=].
  { unfold count_all. cbn. lia. }
  unfold count_all in *. cbn [zip zip_with foldl]. rewrite IH by done.
  rewrite filter_cons. destruct x; cbn; case_decide; try done; cbn; lia.
Qed.

Lemma count_all_failed cs xs s :
  length xs = length cs →
  checks_failed (count_all cs xs s)
  = (checks_failed s + length (filter (fun x => is_passed x = false) xs))%nat.
Proof.
  revert xs s. induction cs as [|c cs IH]; intros [|x xs] s [=].
  { unfold count_all. cbn. lia. }
  unfold count_all in *. cbn [zip zip_with foldl]. rewrite IH by done.
  rewrite filter_cons. destruct x; cbn; case_decide; try done; cbn; lia.
Qed.

Lemma count_all_results cs xs s :
  length xs = length cs →
  results (count_all cs xs s)
  = (results s ++ concat (zip_with record_of cs xs))%list.
Proof.
  revert xs s. induction cs as [|c cs IH]; intros [|x xs] s [=].
  - unfold count_all. cbn. by rewrite app_nil_r.
  - unfold count_all in *. cbn [zip zip_with foldl concat]. rewrite IH by done.
    cbn. by rewrite <- app_assoc.
Qed.

Lemma filter_passed_all xs :
  length (filter (fun x => is_passed x = false) xs) = 0%nat
  ↔ Forall (fun x => is_passed x = true) xs.
Proof.
  induction xs as [|x xs IH]; [by split |].
  rewrite filter_cons, Forall_cons. destruct (is_passed x) eqn:E.
  - case_decide; [done |]. rewrite IH. tauto.
  - case_decide; [| done]. cbn. split; [lia | intros [? _]; done].
Qed.

End Counting.

Lemma count_all_app cs1 cs2 xs1 xs2 s :
  length xs1 = length cs1 →
  count_all (cs1 ++ cs2) (xs1 ++ xs2) s
  = count_all cs2 xs2 (count_all cs1 xs1 s).
Proof.
  intros Hl. unfold count_all.
  rewrite zip_with_app by done. apply foldl_app.
Qed.

(** The end of [main] returns whether no assertion failed. *)
Lemma report_run checker w :
  (checks_passed checker + checks_failed checker ≠ 0)%nat →
  ∃ w', report checker w = (Ok (bool_decide (checks_failed checker = 0%nat)), w').
Proof.
  intros Hn. unfold report, get_summary.
  rewrite bool_decide_eq_false_2 by done.
  destruct (checks_failed checker) as [|n].
  - rewrite (bool_decide_eq_false_2 (0 < 0)%nat) by lia.
    rewrite bool_decide_eq_true_2 by done. by eexists.
  - rewrite (bool_decide_eq_true_2 (0 < S n)%nat) by lia.
    rewrite bool_decide_eq_false_2 by done. by eexists.
Qed.

Definition all_checks : list check :=
  (movies_checks ++ ratings_checks ++ cross_checks)%list.

Lemma quality_main_verdicts scalar_of w :
  ∃ xs w',
    quality_main scalar_of w = (Ok (forallb is_passed xs), w')
    ∧ Forall2 (observed scalar_of w) all_checks xs
    ∧ (faults w = [] → db w = durable w →
       xs = map (verdict_of scalar_of (db w)) all_checks).
Proof.
  set (w1 := add_log (LogRecord INFO "MOVIES TABLE QUALITY CHECKS" None)
               (add_log (LogRecord INFO "Database engine created successfully" None)
                  (add_log (LogRecord INFO "TASK 4: Data Quality and Validation Checks" None) w))).
  destruct (run_checks_verdicts scalar_of movies_checks (Checker 0 0 []) w1 w)
    as (xs1 & w2 & H1 & O1 & D2 & U2 & R1); [by left | done |].
  set (checker1 := count_all movies_checks xs1 (Checker 0 0 [])) in *.
  destruct (run_checks_verdicts scalar_of ratings_checks checker1
              (add_log (LogRecord INFO "RATINGS TABLE QUALITY CHECKS" None) w2) w)
    as (xs2 & w3 & H2 & O2 & D3 & U3 & R2); [done.. |].
  set (checker2 := count_all ratings_checks xs2 checker1) in *.
  destruct (run_checks_verdicts scalar_of cross_checks checker2
              (add_log (LogRecord INFO "CROSS-TABLE QUALITY CHECKS" None) w3) w)
    as (xs3 & w4 & H3 & O3 & D4 & U4 & R3); [done.. |].
  set (checker3 := count_all cross_checks xs3 checker2) in *.
  pose proof (Forall2_length _ _ _ O1) as L1.
  pose proof (Forall2_length _ _ _ O2) as L2.
  pose proof (Forall2_length _ _ _ O3) as L3.
  assert (checker3 = count_all all_checks (xs1 ++ xs2 ++ xs3) (Checker 0 0 []))
    as E.
  { unfold all_checks. rewrite !count_all_app by done. reflexivity. }
  assert (length (xs1 ++ xs2 ++ xs3) = length all_checks) as L.
  { unfold all_checks. rewrite !length_app. lia. }
  destruct (report_run checker3 w4) as (w5 & H5).
  { rewrite E, count_all_passed, count_all_failed by done. cbn.
    assert (length (filter (fun x => is_passed x = true) (xs1 ++ xs2 ++ xs3))
            + length (filter (fun x => is_passed x = false) (xs1 ++ xs2 ++ xs3))
            = length (xs1 ++ xs2 ++ xs3))%nat as Hsum.
    { generalize (xs1 ++ xs2 ++ xs3). intros l.
      induction l as [|x l IH]; [done |].
      rewrite !filter_cons. destruct (is_passed x);
        repeat case_decide; try done; cbn; lia. }
    rewrite L in Hsum. cbn in Hsum. lia. }
  exists (xs1 ++ xs2 ++ xs3), w5. split_and!.
  - unfold quality_main, create_engine_connection, run_movies_quality_checks,
      run_ratings_quality_checks, run_cross_table_checks.
    eapply bind_run'; [run_ok |].
    eapply bind_run'; [run_ok |].
    eapply bind_run'; [eapply bind_run'; [run_ok | exact H1] |].
    eapply bind_run'; [eapply bind_run'; [run_ok | exact H2] |].
    eapply bind_run'; [eapply bind_run'; [run_ok | exact H3] |].
    rewrite H5. f_equal. f_equal.
    rewrite E, count_all_failed by done. cbn.
    generalize (xs1 ++ xs2 ++ xs3). intros l.
    induction l as [|x l IH]; [done |].
    rewrite filter_cons. cbn [forallb].
    destruct (is_passed x);
      [rewrite decide_False by done | rewrite decide_True by done]; cbn;
      [exact IH | by rewrite bool_decide_eq_false_2].
  - unfold all_checks. repeat apply Forall2_app; done.
  - intros Hf He. unfold all_checks. rewrite !map_app.
    destruct (R1 Hf He) as (-> & F2 & E2).
    destruct (R2 F2) as (-> & F3 & E3); [cbn in *; congruence |].
    destruct (R3 F3) as (-> & _ & _); [cbn in *; congruence |].
    change (db w1) with (db w). change (durable w1) with (durable w) in E2.
    change (db (add_log ?r w2)) with (db w2).
    change (db (add_log ?r w3)) with (db w3).
    change (durable (add_log ?r w2)) with (durable w2) in E3.
    rewrite E3, U2, E2, <- He. reflexivity.
Qed.

(** C7, as stated, fails: an assertion that raises records nothing.  On an
    empty [cleaned_ratings] the average rating is NULL and the comparison of
    the second cross-table assertion raises; of the two assertions, both
    counted as failed, only the first has a record with a status, a value and
    a description. *)
Lemma erroring_check_not_recorded :
  let scalar_of (q : string) (d : DB) :=
    if String.eqb q "SELECT AVG(rating) FROM cleaned_ratings"
    then Ok None else Ok (Some 0%Q) in
  let run := run_checks scalar_of cross_checks (Checker 0 0 []) (initial_world ∅) in
  run.1
  = Ok (Checker 0 2
          [ResultRecord "Cross - Movies With Ratings" "FAILED" (Some 0%Q)
             "At least some movies should have ratings"])
  ∧ db_errors run.2 = 0%nat
  ∧ ∀ checker, run.1 = Ok checker →
               length (results checker) ≠ length cross_checks.
Proof.
  split_and!; [vm_compute; reflexivity.. |].
  intros checker. vm_compute. intros [= <-]. discriminate.
Qed.

(** C7, amended.  For every list of assertions, every state of the checker
    and every world:
    - the run of the assertions returns (no assertion that fails or raises
      stops the following ones), and gives each assertion a verdict, in order;
    - a verdict with a value comes from the query of the assertion and from
      its condition on that value;
    - when the database is reachable, the verdict of each assertion is the one
      of its query and of its condition on the catalog: passed or failed with
      the observed value when neither raises, and the exception otherwise;
    - the two counters grow together by the number of assertions;
    - the results grow by one record (name, status, value, description) for
      each assertion that passed or failed, in order, and by none for an
      assertion that raised;
    - no assertion is counted as failed if and only if all passed.
    One call of [run_check] on a reachable database returns whether the
    assertion passed and counts its verdict.
    An assertion whose query returns [v] and whose condition returns [b] on
    [v] passes exactly when [b] is true and has the record (name, status of
    [b], [v], description); an assertion has no record exactly when its query
    or its condition raises.
    The [main] of the gate returns true if and only if each of its seventeen
    assertions passed; when the database is reachable, that is if and only if
    the query of each returns a value of which its condition holds. *)
Theorem quality_gate_verdicts scalar_of :
  (∀ cs checker w,
     ∃ xs w',
       run_checks scalar_of cs checker w = (Ok (count_all cs xs checker), w')
       ∧ Forall2 (observed scalar_of w) cs xs
       ∧ (faults w = [] → db w = durable w →
          xs = map (verdict_of scalar_of (db w)) cs)
       ∧ (checks_passed (count_all cs xs checker)
          + checks_failed (count_all cs xs checker)
          = checks_passed checker + checks_failed checker + length cs)%nat
       ∧ results (count_all cs xs checker)
         = results checker ++ concat (zip_with record_of cs xs)
       ∧ (checks_failed (count_all cs xs checker) = checks_failed checker
          ↔ Forall (fun x => is_passed x = true) xs))
  ∧ (∀ self c w,
       faults w = [] →
       ∃ w',
         run_check scalar_of self c w
         = (Ok (is_passed (verdict_of scalar_of (db w) c),
                count c (verdict_of scalar_of (db w) c) self), w'))
  ∧ (∀ c d v b,
       scalar_of (check_query c) d = Ok v →
       expected_condition c v = Ok b →
       is_passed (verdict_of scalar_of d c) = b
       ∧ record_of c (verdict_of scalar_of d c)
         = [ResultRecord (check_name c) (status_of b) v (check_description c)])
  ∧ (∀ c d,
       record_of c (verdict_of scalar_of d c) = []
       ↔ (∃ e, scalar_of (check_query c) d = Raise e)
         ∨ (∃ v e, scalar_of (check_query c) d = Ok v
                   ∧ expected_condition c v = Raise e))
  ∧ (∀ w,
       ∃ xs w',
         quality_main scalar_of w = (Ok (forallb is_passed xs), w')
         ∧ Forall2 (observed scalar_of w) all_checks xs
         ∧ (faults w = [] → db w = durable w →
            xs = map (verdict_of scalar_of (db w)) all_checks
            ∧ (forallb is_passed xs = true
               ↔ ∀ c, c ∈ all_checks →
                      ∃ v, scalar_of (check_query c) (db w) = Ok v
                           ∧ expected_condition c v = Ok true))
         ∧ length all_checks = 17%nat).
Proof.
  split_and!.
  - intros cs checker w.
    destruct (run_checks_verdicts scalar_of cs checker w w)
      as (xs & w' & Hrun & Hobs & _ & _ & Hreach); [by left | done |].
    pose proof (Forall2_length _ _ _ Hobs) as L. symmetry in L.
    exists xs, w'. split_and!; try done.
    + intros Hf He. by destruct (Hreach Hf He).
    + rewrite count_all_passed, count_all_failed by done.
      assert (length (filter (fun x => is_passed x = true) xs)
              + length (filter (fun x => is_passed x = false) xs)
              = length xs)%nat as Hsum.
      { clear. induction xs as [|x l IH]; [done |].
        rewrite !filter_cons. destruct (is_passed x);
          [rewrite decide_True, decide_False by done
          | rewrite decide_False, decide_True by done]; cbn; lia. }
      lia.
    + by apply count_all_results.
    + rewrite count_all_failed by done. rewrite <- filter_passed_all. lia.
  - intros self c w Hf.
    destruct (run_check_verdict scalar_of self c w)
      as (x & w' & Hrun & _ & _ & _ & Hreach).
    destruct (Hreach Hf) as (-> & _). by exists w'.
  - intros c d v b Hq Hc. unfold verdict_of. rewrite Hq, Hc. by destruct b.
  - intros c d. unfold verdict_of.
    destruct (scalar_of (check_query c) d) as [v|e] eqn:Hq.
    + destruct (expected_condition c v) as [[|]|e] eqn:Hc; cbn.
      * split; [done | intros [[e [=]] | (v' & e & [= <-] & He)]; congruence].
      * split; [done | intros [[e [=]] | (v' & e & [= <-] & He)]; congruence].
      * split; [eauto 10 | done].
    + cbn. split; [eauto | done].
  - intros w.
    destruct (quality_main_verdicts scalar_of w) as (xs & w' & Hrun & Hobs & Hreach).
    exists xs, w'. split_and!; try done.
    intros Hf He. rewrite (Hreach Hf He). split; [done |].
    rewrite forallb_forall. setoid_rewrite in_map_iff.
    setoid_rewrite <- list_elem_of_In. split.
    + intros H c Hc. specialize (H _ (ex_intro _ c (conj eq_refl Hc))).
      unfold verdict_of in H.
      destruct (scalar_of (check_query c) (db w)) as [v|e]; [| done].
      destruct (expected_condition c v) as [[|]|e] eqn:Hv; try done.
      by exists v.
    + intros H x (c & <- & Hc). destruct (H c Hc) as (v & Hq & Hv).
      unfold verdict_of. by rewrite Hq, Hv.
Qed.

(** An instance: a catalog on which the seventeen assertions hold. *)
Definition healthy_scalar (q : string) (d : DB) : outcome (option Q) :=
  if String.eqb q "SELECT COUNT(*) FROM cleaned_movies" then Ok (Some 87585%Q)
  else if String.eqb q "SELECT COUNT(*) FROM cleaned_ratings"
  then Ok (Some 32000204%Q)
  else if String.eqb q "SELECT COUNT(DISTINCT m.movieId) FROM cleaned_movies m INNER JOIN cleaned_ratings r ON m.movieId = r.movieId"
  then Ok (Some 84432%Q)
  else if String.eqb q "SELECT AVG(rating) FROM cleaned_ratings"
  then Ok (Some (7 # 2)%Q)
  else Ok (Some 0%Q).

Lemma quality_gate_verdicts_witness :
  let w := initial_world ∅ in
  let c := Check "Movies - Table Not Empty" "SELECT COUNT(*) FROM cleaned_movies"
             (greater_than 0) "Table should have at least 1 row" in
  (∃ xs w',
     quality_main healthy_scalar w = (Ok (forallb is_passed xs), w')
     ∧ xs = map (verdict_of healthy_scalar (db w)) all_checks
     ∧ forallb is_passed xs = true)
  ∧ (∃ w',
       run_check healthy_scalar (Checker 0 0 []) c w
       = (Ok (is_passed (verdict_of healthy_scalar (db w) c),
              count c (verdict_of healthy_scalar (db w) c) (Checker 0 0 [])), w'))
  ∧ (is_passed (verdict_of healthy_scalar (db w) c) = true
  ∧ record_of c (verdict_of healthy_scalar (db w) c)
    = [ResultRecord (check_name c) (status_of true) (Some 87585%Q)
         (check_description c)]).
Proof.
  intros w c.
  destruct (quality_gate_verdicts healthy_scalar)
    as (_ & Hcall & Hrec & _ & Hmain).
  split; [| split].
  - destruct (Hmain w) as (xs & w' & Hrun & _ & Hreach & _).
    destruct (Hreach eq_refl eq_refl) as [Hxs _].
    exists xs, w'. split; [exact Hrun |]. split; [exact Hxs |].
    rewrite Hxs. vm_compute. reflexivity.
  - destruct (Hcall (Checker 0 0 []) c w eq_refl) as (w' & Hrun).
    exists w'. exact Hrun.
  - apply (Hrec c (db w) (Some 87585%Q) true); vm_compute; reflexivity.
Defined.

(** ** Propagation of database errors *)

(** A computation lets database errors through when, if one of its
    round-trips raised, it raises. *)
Definition lets_through {A} (m : M A) : Prop :=
  ∀ w r w', m w = (r, w') →
    (db_errors w ≤ db_errors w')%nat
    ∧ ((db_errors w < db_errors w')%nat → ∃ e, r = Raise e).

(** A computation reports its errors when, if it raises, the last record of
    the log is an error record with the exception. *)
Definition reports {A} (m : M A) : Prop :=
  ∀ w e w', m w = (Raise e, w') →
    ∃ msg rest, log w' = LogRecord ERROR msg (Some e) :: rest.

(** A stage function propagates database errors: a round-trip that raises
    makes the function raise, after the error was logged. *)
Definition propagates {A} (m : M A) : Prop :=
  ∀ w r w', m w = (r, w') → (db_errors w < db_errors w')%nat →
    ∃ e msg rest, r = Raise e ∧ log w' = LogRecord ERROR msg (Some e) :: rest.

Lemma propagates_intro {A} (m : M A) :
  lets_through m → reports m → propagates m.
Proof.
  intros Hl Hr w r w' Hm Hlt. destruct (Hl w r w' Hm) as [_ [e ->]]; [done |].
  destruct (Hr w e w' Hm) as (msg & rest & ?). eauto.
Qed.

Section Closure.
Context {A B : Type}.

Lemma lets_through_ret (a : A) : lets_through (ret a).
Proof. intros w r w' [= <- <-]. split; [done | lia]. Qed.

Lemma lets_through_raise (e : exn) : lets_through (raise (A := A) e).
Proof. intros w r w' [= <- <-]. split; [done | lia]. Qed.

Lemma db_errors_raised sql w :
  db_errors (add_trace (sql, true) w) = S (db_errors w).
Proof.
  unfold db_errors.
  change (trace (add_trace (sql, true) w)) with ((sql, true) :: trace w).
  by rewrite filter_cons, decide_True.
Qed.

Lemma db_errors_returned sql w :
  db_errors (add_trace (sql, false) w) = db_errors w.
Proof.
  unfold db_errors.
  change (trace (add_trace (sql, false) w)) with ((sql, false) :: trace w).
  by rewrite filter_cons, decide_False.
Qed.

Lemma lets_through_round_trip sql (sem : DB → outcome (A * DB)) :
  lets_through (round_trip sql sem).
Proof.
  intros w r w'. unfold round_trip.
  case_bool_decide;
    [intros [= <- <-]; rewrite db_errors_raised; split; [lia | eauto] |].
  destruct (sem (db w)) as [[a d]|e]; intros [= <- <-].
  - change (db_errors (set_db d (add_trace (sql, false) w)))
      with (db_errors (add_trace (sql, false) w)).
    rewrite db_errors_returned. split; lia.
  - rewrite db_errors_raised. split; [lia | eauto].
Qed.

Lemma lets_through_bind (m : M A) (k : A → M B) :
  lets_through m → (∀ a, lets_through (k a)) → lets_through (x <- m ;; k x).
Proof.
  intros Hm Hk w r w'. unfold bind.
  destruct (m w) as [[a|e] w1] eqn:E.
  - intros H. destruct (Hm _ _ _ E) as [Hle Hlt].
    destruct (Hk a _ _ _ H) as [Hle' Hlt']. split; [lia |].
    intros ?. apply Hlt'.
    destruct (decide (db_errors w < db_errors w1)%nat) as [Hd|]; [| lia].
    destruct (Hlt Hd) as [? [=]].
  - intros [= <- <-]. destruct (Hm _ _ _ E) as [Hle _]. eauto.
Qed.

Lemma lets_through_try (body : M A) (handler : exn → M A) :
  lets_through body →
  (∀ e w, ∃ e' w', handler e w = (Raise e', w') ∧ db_errors w' = db_errors w) →
  lets_through (try_except body handler).
Proof.
  intros Hb Hh w r w'. unfold try_except.
  destruct (body w) as [[a|e] w1] eqn:E.
  - intros [= <- <-]. exact (Hb _ _ _ E).
  - destruct (Hh e w1) as (e' & w2 & -> & Hdb). intros [= <- <-].
    destruct (Hb _ _ _ E) as [Hle _]. rewrite Hdb. eauto.
Qed.

Lemma reports_ret (a : A) : reports (ret a).
Proof. by intros w e w'. Qed.

Lemma reports_bind (m : M A) (k : A → M B) :
  reports m → (∀ a, reports (k a)) → reports (x <- m ;; k x).
Proof.
  intros Hm Hk w e w' [H | (a & w1 & _ & H)]%bind_Raise; [by eapply Hm |].
  by eapply Hk.
Qed.

Lemma reports_try_reraise (body : M A) msg :
  reports (try_except body (log_and_reraise msg)).
Proof. intros w e w' (w1 & _ & ->)%try_reraise_Raise. cbn. eauto. Qed.

End Closure.

Lemma log_and_reraise_raises {A} msg e w :
  ∃ e' w', log_and_reraise (A := A) msg e w = (Raise e', w')
           ∧ db_errors w' = db_errors w.
Proof. by eexists _, _. Qed.

Lemma lets_through_try_reraise {A} (body : M A) msg :
  lets_through body → lets_through (try_except body (log_and_reraise msg)).
Proof. intros H. apply lets_through_try; [done |]. apply log_and_reraise_raises. Qed.

(** A step that makes no round-trip. *)
Lemma lets_through_local {A} (f : World → World) (a : A) :
  (∀ w, trace (f w) = trace w) → lets_through (fun w => (Ok a, f w)).
Proof.
  intros Hf w r w' [= <- <-]. unfold db_errors. rewrite Hf. split; [done | lia].
Qed.

Lemma lets_through_log_info msg : lets_through (log_info msg).
Proof. by apply (lets_through_local (add_log _) tt). Qed.

Lemma lets_through_rollback : lets_through rollback.
Proof. by apply (lets_through_local (fun w => set_db (durable w) w) tt). Qed.

Lemma lets_through_commit : lets_through commit.
Proof.
  unfold commit. apply lets_through_bind; [apply lets_through_round_trip |].
  intros _. by apply (lets_through_local (fun w => set_durable (db w) w) tt).
Qed.

Lemma lets_through_with_connect {A} (body : M A) :
  lets_through body → lets_through (with_connect body).
Proof.
  intros H. unfold with_connect.
  apply lets_through_bind; [apply lets_through_round_trip |]. intros _.
  apply lets_through_try.
  - apply lets_through_bind; [done |]. intros a.
    apply lets_through_bind; [apply lets_through_rollback |]. intros _.
    apply lets_through_ret.
  - intros e w. by eexists _, _.
Qed.

Lemma lets_through_with_begin {A} (body : M A) :
  lets_through body → lets_through (with_begin body).
Proof.
  intros H. unfold with_begin.
  apply lets_through_bind; [apply lets_through_round_trip |]. intros _.
  apply lets_through_try.
  - apply lets_through_bind; [done |]. intros a.
    apply lets_through_bind; [apply lets_through_commit |]. intros _.
    apply lets_through_ret.
  - intros e w. by eexists _, _.
Qed.

Lemma lets_through_for_each {A} (l : list A) (body : A → M unit) :
  (∀ x, lets_through (body x)) → lets_through (for_each l body).
Proof.
  intros H. induction l as [|x l IH]; cbn [for_each].
  - apply lets_through_ret.
  - apply lets_through_bind; [apply H | done].
Qed.

Lemma reports_log_info msg : reports (log_info msg).
Proof. by intros w e w'. Qed.

Create HintDb propagation discriminated.

#[local] Hint Resolve lets_through_ret lets_through_round_trip
  lets_through_try_reraise lets_through_log_info lets_through_commit
  lets_through_with_connect lets_through_with_begin lets_through_for_each
  reports_ret reports_try_reraise reports_log_info : propagation.

#[local] Hint Extern 2 (lets_through (bind _ _)) =>
  apply lets_through_bind; [| intros ?] : propagation.
#[local] Hint Extern 2 (reports (bind _ _)) =>
  apply reports_bind; [| intros ?] : propagation.
#[local] Hint Extern 1 (lets_through (execute _ _)) =>
  apply lets_through_round_trip : propagation.

(** A stage: database errors are let through and errors are reported. *)
Definition stage {A} (m : M A) : Prop := lets_through m ∧ reports m.

Lemma stage_propagates {A} (m : M A) : stage m → propagates m.
Proof. intros [? ?]. by apply propagates_intro. Qed.

Lemma stage_try_reraise {A} (body : M A) msg :
  lets_through body → stage (try_except body (log_and_reraise msg)).
Proof.
  split; [by apply lets_through_try_reraise | apply reports_try_reraise].
Qed.

Lemma stage_bind {A B} (m : M A) (k : A → M B) :
  stage m → (∀ a, stage (k a)) → stage (x <- m ;; k x).
Proof.
  intros [? ?] Hk. split.
  - apply lets_through_bind; [done |]. intros a. apply Hk.
  - apply reports_bind; [done |]. intros a. apply Hk.
Qed.

Lemma stage_log_info msg : stage (log_info msg).
Proof. split; [apply lets_through_log_info | apply reports_log_info]. Qed.

Lemma stage_ret {A} (a : A) : stage (ret a).
Proof. split; [apply lets_through_ret | apply reports_ret]. Qed.

#[local] Hint Resolve stage_log_info stage_ret : propagation.
#[local] Hint Extern 2 (stage (bind _ _)) =>
  apply stage_bind; [| intros ?] : propagation.
#[local] Hint Extern 1 (stage (try_except _ (log_and_reraise _))) =>
  apply stage_try_reraise : propagation.

Ltac propagation := auto 30 with propagation.

Lemma lets_through_to_csv path df : lets_through (to_csv path df).
Proof. by apply (lets_through_local (fun w => set_files _ w) tt). Qed.

#[local] Hint Resolve lets_through_to_csv : propagation.

Lemma lets_through_load_chunks table_name total_rows chunks i rows_loaded :
  lets_through (load_chunks table_name total_rows i chunks rows_loaded).
Proof.
  revert i rows_loaded. induction chunks as [|chunk chunks IH];
    intros i rows_loaded; cbn [load_chunks]; [auto 30 with propagation |].
  apply lets_through_bind; [auto 30 with propagation | intros _].
  apply lets_through_bind; [| intros _; apply IH].
  case_bool_decide; [apply lets_through_raise | apply lets_through_log_info].
Qed.

#[local] Hint Resolve lets_through_load_chunks : propagation.

Lemma stage_load_csv_to_staging csv_path table_name chunksize :
  stage (load_csv_to_staging csv_path table_name chunksize).
Proof.
  unfold load_csv_to_staging. apply stage_try_reraise.
  apply lets_through_bind; [auto with propagation |]. intros _.
  apply lets_through_bind; [| intros content; auto 30 with propagation].
  intros w r w' H. destruct (files w !! csv_path); injection H as <- <-;
    (split; [done | lia]).
Qed.

Lemma stage_verify_staging_tables :
  stage verify_staging_tables.
Proof. unfold verify_staging_tables. propagation. Qed.

Lemma stage_create_engine_connection :
  stage create_engine_connection.
Proof. unfold create_engine_connection. propagation. Qed.

Lemma stage_clean_movies_table :
  stage clean_movies_table.
Proof. unfold clean_movies_table. propagation. Qed.

Lemma stage_clean_ratings_table :
  stage clean_ratings_table.
Proof. unfold clean_ratings_table. propagation. Qed.

Lemma stage_show_sample_data :
  stage show_sample_data.
Proof. unfold show_sample_data. propagation. Qed.

Lemma stage_create_dim_movies :
  stage create_dim_movies.
Proof. unfold create_dim_movies. propagation. Qed.

Lemma stage_create_dim_genres :
  stage create_dim_genres.
Proof. unfold create_dim_genres. propagation. Qed.

Lemma stage_create_dim_users :
  stage create_dim_users.
Proof. unfold create_dim_users. propagation. Qed.

Lemma stage_create_bridge_movie_genres :
  stage create_bridge_movie_genres.
Proof. unfold create_bridge_movie_genres. propagation. Qed.

Lemma stage_create_fact_ratings :
  stage create_fact_ratings.
Proof. unfold create_fact_ratings. propagation. Qed.

Lemma stage_create_indexes :
  stage create_indexes.
Proof. unfold create_indexes. propagation. Qed.

Lemma stage_verify_warehouse :
  stage verify_warehouse.
Proof. unfold verify_warehouse. propagation. Qed.

Lemma stage_run_query_to_csv frame_of sql output_filename description :
  stage (run_query_to_csv frame_of sql output_filename description).
Proof. unfold run_query_to_csv, read_sql. propagation. Qed.

#[local] Hint Resolve stage_load_csv_to_staging stage_verify_staging_tables
  stage_create_engine_connection stage_clean_movies_table
  stage_clean_ratings_table stage_show_sample_data stage_create_dim_movies
  stage_create_dim_genres stage_create_dim_users
  stage_create_bridge_movie_genres stage_create_fact_ratings
  stage_create_indexes stage_verify_warehouse stage_run_query_to_csv
  : propagation.

Lemma stage_load_main : stage load_main.
Proof. unfold load_main. propagation. Qed.

Lemma stage_transform_main : stage transform_main.
Proof. unfold transform_main. propagation. Qed.

Lemma stage_warehouse_main : stage warehouse_main.
Proof. unfold warehouse_main. propagation. Qed.

Lemma stage_analytics_main frame_of : stage (analytics_main frame_of).
Proof.
  unfold analytics_main, top_10_movies_by_avg_rating,
    least_10_movies_by_avg_rating, top_5_genres_by_num_ratings,
    least_5_genres_by_num_ratings. propagation.
Qed.

(** A world where every round-trip to the database fails: the gate makes one
    round-trip for each of its seventeen assertions. *)
Definition unreachable_world : World :=
  mkWorld ∅ ∅ ∅ [] [] (seq 0 17).

(** C8, as stated, fails: the quality gate swallows database errors.  With an
    unreachable database, [run_check] returns False and the [main] of the gate
    returns False; neither raises, although every round-trip raised. *)
Lemma quality_gate_swallows_errors :
  let scalar_of (q : string) (d : DB) := Ok (Some 1%Q) in
  let c := Check "Movies - Table Not Empty" "SELECT COUNT(*) FROM cleaned_movies"
             (greater_than 0) "Table should have at least 1 row" in
  (run_check scalar_of (Checker 0 0 []) c unreachable_world).1
  = Ok (false, Checker 0 1 [])
  ∧ db_errors (run_check scalar_of (Checker 0 0 []) c unreachable_world).2 = 1%nat
  ∧ (quality_main scalar_of unreachable_world).1 = Ok false
  ∧ db_errors (quality_main scalar_of unreachable_world).2 = 17%nat
  ∧ ¬ propagates (run_check scalar_of (Checker 0 0 []) c)
  ∧ ¬ propagates (quality_main scalar_of).
Proof.
  intros scalar_of c.
  assert ((run_check scalar_of (Checker 0 0 []) c unreachable_world).1
          = Ok (false, Checker 0 1 [])) as E1 by (vm_compute; reflexivity).
  assert (db_errors (run_check scalar_of (Checker 0 0 []) c unreachable_world).2
          = 1%nat) as E2 by (vm_compute; reflexivity).
  assert ((quality_main scalar_of unreachable_world).1 = Ok false) as E3
    by (vm_compute; reflexivity).
  assert (db_errors (quality_main scalar_of unreachable_world).2 = 17%nat) as E4
    by (vm_compute; reflexivity).
  assert (True) as E0 by exact I.
  split; [exact E1 |]. split; [exact E2 |]. split; [exact E3 |].
  split; [exact E4 |]. clear E0. split.
  - intros H.
    destruct (H unreachable_world _ _ (surjective_pairing _))
      as (e & _ & _ & He & _); [rewrite E2; change (db_errors unreachable_world) with 0%nat; lia |].
    rewrite E1 in He. discriminate.
  - intros H.
    destruct (H unreachable_world _ _ (surjective_pairing _))
      as (e & _ & _ & He & _); [rewrite E4; change (db_errors unreachable_world) with 0%nat; lia |].
    rewrite E3 in He. discriminate.
Qed.

(** What [run_check] does with an error: when a round-trip of the assertion
    raised, the call returns False, the assertion is counted as failed, no
    result is recorded and the error is logged. *)
Lemma run_check_swallows scalar_of self c w :
  ∃ b self' w',
    run_check scalar_of self c w = (Ok (b, self'), w')
    ∧ ((db_errors w < db_errors w')%nat →
       b = false
       ∧ checks_failed self' = S (checks_failed self)
       ∧ results self' = results self
       ∧ ∃ e msg rest, log w' = LogRecord ERROR msg (Some e) :: rest).
Proof.
  unfold run_check, try_except, with_connect, bind at 1, round_trip at 1.
  case_bool_decide.
  { eexists _, _, _. split; [reflexivity |]. intros _. cbn. eauto 10. }
  cbv beta iota. unfold try_except, bind, execute, round_trip.
  world_simpl. case_bool_decide.
  { eexists _, _, _. split; [reflexivity |]. intros _. cbn. eauto 10. }
  unfold query, obind.
  destruct (scalar_of (check_query c) (db w)) as [v|e] eqn:Hq; cycle 1.
  { eexists _, _, _. split; [reflexivity |]. intros _. cbn. eauto 10. }
  destruct (expected_condition c v) as [b|e] eqn:Hc; cycle 1.
  { eexists _, _, _. split; [reflexivity |]. intros _. cbn. eauto 10. }
  eexists _, _, _. split; [reflexivity |].
  unfold db_errors. cbn [trace ret rollback log_info set_db add_log add_trace].
  rewrite !filter_cons, !decide_False by done. lia.
Qed.

(** C8, amended.  Every function of the loader, of the transformer, of the
    warehouse builder and of the analytics reporter propagates database
    errors: when one of its round-trips to the database raises, the function
    raises, and the last record of the log is the error with its context.
    The quality gate does not: [run_check] always returns; when a round-trip
    of the assertion raised it returns False, counts the assertion as failed
    and logs the error; the [main] of the gate always returns. *)
Theorem database_errors_propagate scalar_of frame_of :
  (∀ csv_path table_name chunksize,
     propagates (load_csv_to_staging csv_path table_name chunksize))
  ∧ propagates verify_staging_tables
  ∧ propagates load_main
  ∧ propagates clean_movies_table
  ∧ propagates clean_ratings_table
  ∧ propagates show_sample_data
  ∧ propagates transform_main
  ∧ propagates create_dim_movies
  ∧ propagates create_dim_genres
  ∧ propagates create_dim_users
  ∧ propagates create_bridge_movie_genres
  ∧ propagates create_fact_ratings
  ∧ propagates create_indexes
  ∧ propagates verify_warehouse
  ∧ propagates warehouse_main
  ∧ (∀ sql output_filename description,
       propagates (run_query_to_csv frame_of sql output_filename description))
  ∧ propagates (analytics_main frame_of)
  ∧ (∀ self c w,
       ∃ b self' w',
         run_check scalar_of self c w = (Ok (b, self'), w')
         ∧ ((db_errors w < db_errors w')%nat →
            b = false
            ∧ checks_failed self' = S (checks_failed self)
            ∧ results self' = results self
            ∧ ∃ e msg rest, log w' = LogRecord ERROR msg (Some e) :: rest))
  ∧ (∀ w, ∃ b w', quality_main scalar_of w = (Ok b, w')).
Proof.
  split_and!; try (apply stage_propagates);
    try (intros; apply stage_propagates).
  - apply stage_load_csv_to_staging.
  - apply stage_verify_staging_tables.
  - apply stage_load_main.
  - apply stage_clean_movies_table.
  - apply stage_clean_ratings_table.
  - apply stage_show_sample_data.
  - apply stage_transform_main.
  - apply stage_create_dim_movies.
  - apply stage_create_dim_genres.
  - apply stage_create_dim_users.
  - apply stage_create_bridge_movie_genres.
  - apply stage_create_fact_ratings.
  - apply stage_create_indexes.
  - apply stage_verify_warehouse.
  - apply stage_warehouse_main.
  - apply stage_run_query_to_csv.
  - apply stage_analytics_main.
  - apply run_check_swallows.
  - intros w. destruct (quality_main_verdicts scalar_of w) as (xs & w' & H & _).
    eauto.
Qed.

Lemma database_errors_propagate_witness :
  let w := mkWorld scenario_db scenario_db ∅ [] [] [3%nat] in
  ∃ e msg rest,
    (clean_movies_table w).1 = Raise e
    ∧ log (clean_movies_table w).2 = LogRecord ERROR msg (Some e) :: rest.
Proof.
  intros w.
  destruct (database_errors_propagate
              (fun _ _ => Ok None) (fun _ _ => Ok (mkDataFrame [] [])))
    as (_ & _ & _ & H & _).
  apply (H w (clean_movies_table w).1 (clean_movies_table w).2
           (surjective_pairing _)).
  assert (db_errors (clean_movies_table w).2 = 1%nat) as ->
    by (vm_compute; reflexivity).
  change (db_errors w) with 0%nat. lia.
Defined.

(** * Further properties *)

(** ** Order of the rating-cleaning query *)

Lemma asc_le_total a b : asc_le a b = true ∨ asc_le b a = true.
Proof. destruct a, b; cbn; auto. rewrite !Z.leb_le. lia. Qed.

Lemma asc_le_trans a b c :
  asc_le a b = true → asc_le b c = true → asc_le a c = true.
Proof.
  destruct a, b, c; cbn; try done. rewrite !Z.leb_le. lia.
Qed.

Lemma asc_le_antisym a b : asc_le a b = true → asc_le b a = true → a = b.
Proof.
  destruct a, b; cbn; try done. rewrite !Z.leb_le. intros. f_equal. lia.
Qed.

Lemma desc_le_total a b : desc_le a b = true ∨ desc_le b a = true.
Proof. destruct a, b; cbn; auto. rewrite !Z.leb_le. lia. Qed.

Lemma desc_le_trans a b c :
  desc_le a b = true → desc_le b c = true → desc_le a c = true.
Proof.
  destruct a, b, c; cbn; try done. rewrite !Z.leb_le. lia.
Qed.

(** The order of the keys (user, movie): ascending by user, then by movie. *)
Definition key_le (k1 k2 : option Z * option Z) : Prop :=
  if decide (k1.1 = k2.1) then asc_le k1.2 k2.2 = true
  else asc_le k1.1 k2.1 = true.

Definition key_lt (k1 k2 : option Z * option Z) : Prop :=
  key_le k1 k2 ∧ k1 ≠ k2.

Lemma key_le_refl k : key_le k k.
Proof.
  unfold key_le. rewrite decide_True by done.
  destruct (asc_le_total k.2 k.2); done.
Qed.

Lemma key_le_trans k1 k2 k3 : key_le k1 k2 → key_le k2 k3 → key_le k1 k3.
Proof.
  destruct k1 as [u1 m1], k2 as [u2 m2], k3 as [u3 m3]. unfold key_le. cbn.
  repeat case_decide; subst; try done; intros A12 A23.
  - by eapply asc_le_trans.
  - by rewrite (asc_le_antisym _ _ A12 A23) in *.
  - by eapply asc_le_trans.
Qed.

Lemma key_le_antisym k1 k2 : key_le k1 k2 → key_le k2 k1 → k1 = k2.
Proof.
  destruct k1 as [u1 m1], k2 as [u2 m2]. unfold key_le. cbn.
  repeat case_decide; subst; try done; intros A12 A21.
  - f_equal. by apply asc_le_antisym.
  - by destruct (asc_le_antisym _ _ A12 A21).
Qed.

Lemma key_lt_le_trans k1 k2 k3 : key_lt k1 k2 → key_le k2 k3 → key_lt k1 k3.
Proof.
  intros [H12 Hne] H23. split; [by eapply key_le_trans |].
  intros ->. apply Hne. by apply key_le_antisym.
Qed.

Lemma rating_order_key a b :
  rating_order a b = true → key_le (rating_key a) (rating_key b).
Proof.
  unfold rating_order, key_le, rating_key. cbn.
  case_bool_decide; [| by rewrite decide_False].
  rewrite decide_True by done. case_bool_decide as Hm; [| done].
  intros _. rewrite Hm. destruct (asc_le_total (sr_movieId b) (sr_movieId b)); done.
Qed.

Lemma rating_order_total a b :
  rating_order a b = true ∨ rating_order b a = true.
Proof.
  unfold rating_order.
  repeat case_bool_decide; try congruence;
    auto using asc_le_total, desc_le_total.
Qed.

Lemma rating_order_trans a b c :
  rating_order a b = true → rating_order b c = true → rating_order a c = true.
Proof.
  unfold rating_order.
  repeat case_bool_decide; try congruence; intros A12 A23;
    try (by eapply asc_le_trans); try (by eapply desc_le_trans).
  all: try (exfalso; match goal with
       | E : ?x = ?y, A : asc_le ?x ?z = true, A' : asc_le ?z ?y = true |- _ =>
           rewrite E in A; pose proof (asc_le_antisym _ _ A A'); congruence
       | E : ?x = ?y, A : asc_le ?y ?z = true, A' : asc_le ?z ?x = true |- _ =>
           rewrite E in A'; pose proof (asc_le_antisym _ _ A A'); congruence
       end).
  all: try congruence.
Qed.

(** [ORDER BY] sorts, for an order that is total and transitive. *)
Section Sorting.
Context {A : Type} (le : A → A → bool).
Hypothesis le_total : ∀ a b, le a b = true ∨ le b a = true.
Hypothesis le_trans : ∀ a b c, le a b = true → le b c = true → le a c = true.

Lemma insert_sorted_sorted x l :
  StronglySorted (fun a b => le a b = true) l →
  StronglySorted (fun a b => le a b = true) (insert_sorted le x l).
Proof.
  induction 1 as [|y l Hl IH Hy]; cbn; [repeat constructor |].
  destruct (le y x) eqn:E.
  - constructor; [done |].
    rewrite insert_sorted_Permutation. by constructor.
  - destruct (le_total y x) as [? | Hxy]; [congruence |].
    constructor; [by constructor |]. constructor; [done |].
    eapply Forall_impl; [exact Hy |]. intros z Hz. by eapply le_trans.
Qed.

Lemma ORDER_BY_sorted l :
  StronglySorted (fun a b => le a b = true) (ORDER_BY le l).
Proof.
  unfold ORDER_BY. generalize (rev l). intros l'.
  induction l' as [|x l' IH]; cbn; [constructor |].
  by apply insert_sorted_sorted.
Qed.

End Sorting.

(** [DISTINCT ON] keeps rows of the relation. *)
Lemma elem_of_distinct_on {A K} `{EqDecision K} (key : A → K) prev l x :
  x ∈ distinct_on key prev l → x ∈ l.
Proof.
  revert prev. induction l as [|y l IH]; intros prev; cbn; [done |].
  case_decide.
  - intros ?%IH. by right.
  - intros [-> | ?%IH]%elem_of_cons; [left | by right].
Qed.

(** [DISTINCT ON] keeps a row for every key, except the key it starts
    with. *)
Lemma distinct_on_covers {A K} `{EqDecision K} (key : A → K) prev l x :
  x ∈ l → prev ≠ Some (key x) →
  ∃ y, y ∈ distinct_on key prev l ∧ key y = key x.
Proof.
  revert prev. induction l as [|a l IH]; intros prev; [by intros ?%elem_of_nil |].
  intros [-> | Hx]%elem_of_cons Hprev; cbn.
  - rewrite decide_False by done. exists a. split; [left | done].
  - case_decide as Ha.
    + by apply IH.
    + destruct (decide (key a = key x)) as [E | E].
      * exists a. split; [left | done].
      * destruct (IH (Some (key a)) Hx) as (y & ? & ?); [congruence |].
        exists y. split; [by right | done].
Qed.

(** On rows sorted by their key, [DISTINCT ON] keeps rows with strictly
    increasing keys, and the row it keeps for a key is the first of the rows
    with that key. *)
Lemma distinct_on_sorted prev l :
  StronglySorted (fun a b => rating_order a b = true) l →
  (∀ k, prev = Some k → Forall (fun x => key_le k (rating_key x)) l) →
  StronglySorted (fun a b => key_lt (rating_key a) (rating_key b))
    (distinct_on rating_key prev l)
  ∧ (∀ k, prev = Some k →
          Forall (fun x => key_lt k (rating_key x)) (distinct_on rating_key prev l))
  ∧ (∀ x y, x ∈ distinct_on rating_key prev l → y ∈ l →
            rating_key y = rating_key x → rating_order x y = true).
Proof.
  intros Hs. revert prev. induction Hs as [|a l Hl IH Ha]; intros prev Hprev.
  { cbn. split_and!; [constructor | by constructor | by intros x y ?%elem_of_nil]. }
  assert (Forall (fun x => key_le (rating_key a) (rating_key x)) l) as Hal.
  { eapply Forall_impl; [exact Ha |]. intros z. apply rating_order_key. }
  cbn. case_decide as Hp.
  - destruct (IH prev) as (S1 & S2 & S3).
    { intros k Hk. pose proof (Hprev k Hk) as [_ ?]%Forall_cons. done. }
    split_and!; [done | done |].
    intros x y Hx [-> | Hy]%elem_of_cons Hk; [| by apply S3].
    exfalso. pose proof (S2 _ Hp) as F. rewrite Forall_forall in F.
    destruct (F x Hx) as [_ Hne]. congruence.
  - destruct (IH (Some (rating_key a))) as (S1 & S2 & S3).
    { by intros k [= <-]. }
    pose proof (S2 _ eq_refl) as F.
    split_and!.
    + constructor; [done |]. eapply Forall_impl; [exact F |]. by intros z.
    + intros k Hk. pose proof (Hprev k Hk) as [Hka _]%Forall_cons.
      assert (key_lt k (rating_key a)) as Hlt by (split; [done | congruence]).
      constructor; [done |]. eapply Forall_impl; [exact F |].
      intros z [Hz _]. by eapply key_lt_le_trans.
    + intros x y [-> | Hx]%elem_of_cons [-> | Hy]%elem_of_cons Hk.
      * destruct (rating_order_total a a); done.
      * rewrite Forall_forall in Ha. by apply Ha.
      * exfalso. rewrite Forall_forall in F. destruct (F x Hx) as [_ Hne].
        congruence.
      * by apply S3.
Qed.

Lemma kept_ratings_sorted staging :
  StronglySorted (fun a b => rating_order a b = true)
    (ORDER_BY rating_order (filter (fun r => valid_rating r = true) staging)).
Proof.
  apply ORDER_BY_sorted; [apply rating_order_total | apply rating_order_trans].
Qed.

Lemma elem_of_kept_ratings staging r :
  r ∈ kept_ratings staging → r ∈ staging ∧ valid_rating r = true.
Proof.
  unfold kept_ratings. intros H%elem_of_distinct_on.
  rewrite ORDER_BY_Permutation in H. apply list_elem_of_filter in H. tauto.
Qed.

Lemma valid_rating_spec r :
  valid_rating r = true ↔
  is_Some (sr_userId r) ∧ is_Some (sr_movieId r)
  ∧ ∃ q, sr_rating r = Some q ∧ (1 # 2 <= q)%Q ∧ (q <= 5)%Q.
Proof.
  unfold valid_rating. rewrite !andb_true_iff, !bool_decide_eq_true.
  destruct (sr_rating r) as [q|].
  - rewrite andb_true_iff, !Qle_bool_iff. split.
    + intros [[? ?] [? ?]]. eauto 10.
    + intros (? & ? & q' & [= <-] & ? & ?). done.
  - split; [intros [_ [=]] | intros (_ & _ & q & [=] & _)].
Qed.








(** ** The fields of [cleaned_movies] *)

Lemma ltrim_head l : head (ltrim l) ≠ Some " "%char.
Proof.
  induction l as [|c l IH]; [done |]. cbn.
  destruct (Ascii.eqb_spec c " "); [done |]. cbn. congruence.
Qed.

Lemma ltrim_suffix l : ∃ k, l = (k ++ ltrim l)%list.
Proof.
  induction l as [|c l [k IH]]; [by exists [] |]. cbn.
  destruct (Ascii.eqb c " "); [| by exists []].
  exists (c :: k). cbn. by rewrite <- IH.
Qed.

Lemma ltrim_last l : ltrim l ≠ [] → last (ltrim l) = last l.
Proof.
  intros Hne. destruct (ltrim_suffix l) as [k Hk]. rewrite Hk at 2.
  rewrite last_app. apply last_is_Some in Hne as [x ->]. done.
Qed.

Lemma rev_reverse {A} (l : list A) : rev l = reverse l.
Proof. by rewrite rev_alt. Qed.

(** A text has a blank at one of its ends. *)
Definition blank_at_end (s : string) : Prop :=
  head (list_ascii_of_string s) = Some " "%char
  ∨ last (list_ascii_of_string s) = Some " "%char.

Lemma TRIM_ends s : ¬ blank_at_end (TRIM s).
Proof.
  unfold blank_at_end, TRIM.
  rewrite String.list_ascii_of_string_of_list_ascii.
  set (l := ltrim (list_ascii_of_string s)).
  rewrite rev_reverse, head_reverse, last_reverse. intros [H | H].
  - destruct (decide (ltrim (rev l) = [])) as [E | E]; [by rewrite E in H |].
    rewrite ltrim_last, rev_reverse, last_reverse in H by done.
    by apply (ltrim_head (list_ascii_of_string s)).
  - by apply (ltrim_head (rev l)).
Qed.



(** ** The release year *)

Lemma is_digit_value c : is_digit c = true → 0 ≤ digit_value c ≤ 9.
Proof.
  unfold is_digit, digit_value. intros [H1 H2]%andb_true_iff.
  apply Nat.leb_le in H1, H2. lia.
Qed.

Lemma rev_eq_snoc6 {A} (l before : list A) c6 d4 d3 d2 d1 c1 :
  rev l = c6 :: d4 :: d3 :: d2 :: d1 :: c1 :: before
  ↔ l = (rev before ++ [c1; d1; d2; d3; d4; c6])%list.
Proof.
  split.
  - intros H. rewrite <- (rev_involutive l), H. cbn.
    by rewrite <- !app_assoc.
  - intros ->. rewrite rev_app_distr. cbn. by rewrite rev_involutive.
Qed.



(** ** The transformer: what a run gives *)





(** ** All or nothing *)

Lemma round_trip_Raise {A} sql (sem : DB → outcome (A * DB)) w e w' :
  round_trip sql sem w = (Raise e, w') → w' = add_trace (sql, true) w.
Proof.
  unfold round_trip. case_bool_decide; [by intros [= _ <-] |].
  destruct (sem (db w)) as [[a d]|e']; [done | by intros [= _ <-]].
Qed.

Lemma commit_Raise w e w' :
  commit w = (Raise e, w') → w' = add_trace ("COMMIT", true) w.
Proof.
  unfold commit. intros [H | (a & w1 & _ & H)]%bind_Raise; [| done].
  by apply round_trip_Raise in H.
Qed.

Lemma with_connect_Raise {A} (body : M A) w e w' :
  with_connect body w = (Raise e, w') →
  w' = add_trace ("connect", true) w
  ∨ ∃ w2, body (add_trace ("connect", false) w) = (Raise e, w2)
          ∧ w' = set_db (durable w2) w2.
Proof.
  unfold with_connect.
  intros [H | (a & w1 & H1 & H)]%bind_Raise.
  { left. by apply round_trip_Raise in H. }
  right. apply round_trip_Ok in H1 as (d & [= _ <-] & ->).
  unfold try_except in H.
  change (set_db (db w) (add_trace ("connect", false) w))
    with (add_trace ("connect", false) w) in H.
  destruct (bind body _ _) as [[a'|e'] w2] eqn:Hb; [done |].
  apply bind_Raise in Hb as [Hb | (a' & w3 & _ & Hb)].
  - unfold bind, rollback, raise in H. injection H as <- <-. by exists w2.
  - unfold bind, rollback, ret in Hb. discriminate Hb.
Qed.

Ltac raise_inv :=
  repeat (cbv beta in *;
    match goal with
    | H : try_except _ (log_and_reraise _) _ = (Raise _, _) |- _ =>
        apply try_reraise_Raise in H as (? & H & ->)
    | H : with_connect _ _ = (Raise _, _) |- _ =>
        apply with_connect_Raise in H as [-> | (? & H & ->)]
    | H : bind _ _ _ = (Raise _, _) |- _ =>
        apply bind_Raise in H as [H | (? & ? & ? & H)]
    | H : execute _ _ _ = (Raise _, _) |- _ => apply round_trip_Raise in H as ->
    | H : commit _ = (Raise _, _) |- _ => apply commit_Raise in H as ->
    | H : log_info _ _ = (Raise _, _) |- _ => discriminate H
    | H : ret _ _ = (Raise _, _) |- _ => discriminate H
    end).





Lemma with_begin_Raise {A} (body : M A) w e w' :
  with_begin body w = (Raise e, w') →
  w' = add_trace ("connect", true) w
  ∨ (∃ w2, body (add_trace ("connect", false) w) = (Raise e, w2)
           ∧ w' = set_db (durable w2) w2)
  ∨ (∃ a w2, body (add_trace ("connect", false) w) = (Ok a, w2)
             ∧ w' = set_db (durable w2) (add_trace ("COMMIT", true) w2)).
Proof.
  unfold with_begin.
  intros [H | (a & w1 & H1 & H)]%bind_Raise.
  { left. by apply round_trip_Raise in H. }
  right. apply round_trip_Ok in H1 as (d & [= _ <-] & ->).
  unfold try_except in H.
  change (set_db (db w) (add_trace ("connect", false) w))
    with (add_trace ("connect", false) w) in H.
  destruct (bind body _ _) as [[a'|e'] w2] eqn:Hb; [done |].
  unfold bind at 1, rollback, raise in H. injection H as <- <-.
  apply bind_Raise in Hb as [Hb | (a' & w3 & Hbody & Hb)].
  - left. by exists w2.
  - right. apply bind_Raise in Hb as [Hb | (? & ? & _ & Hb)]; [| done].
    apply commit_Raise in Hb as ->. by exists a', w3.
Qed.



(** ** The loader *)



(** The chunks of a file make up the file. *)
Lemma chunks_of_concat {A} fuel n (l : list A) :
  (0 < n)%nat → (length l ≤ fuel)%nat → concat (chunks_of fuel n l) = l.
Proof.
  intros Hn. revert l. induction fuel as [|fuel IH]; intros l Hl.
  - destruct l; [done | cbn in Hl; lia].
  - destruct l as [|x l]; [done |].
    cbn [chunks_of concat]. rewrite IH.
    + apply take_drop.
    + rewrite length_drop. cbn in *. lia.
Qed.

(** The constructors of [Table], as the loader sees them: the rows of a
    relation with given columns. *)
Definition columns_like {A} (wrap : list A → Table) : Prop :=
  (∀ l, cardinality (wrap l) = Z.of_nat (length l))
  ∧ (∀ name a b, append_rows name (wrap a) (wrap b) = Ok (wrap (a ++ b)%list))
  ∧ (∀ n rows,
       read_csv_chunks n (wrap rows)
       = match rows with
         | [] => [wrap []]
         | _ => map wrap (chunks_of (length rows) n rows)
         end).

Lemma table_columns_like (t : Table) :
  ∃ A (wrap : list A → Table) rows, columns_like wrap ∧ t = wrap rows.
Proof.
  destruct t as [rows|rows|rows|rows|rows|rows|rows|rows|rows|header rows];
    [eexists _, TStagingMovies, rows | eexists _, TStagingRatings, rows
    | eexists _, TCleanedMovies, rows | eexists _, TCleanedRatings, rows
    | eexists _, TDimMovies, rows | eexists _, TDimGenres, rows
    | eexists _, TDimUsers, rows | eexists _, TBridge, rows
    | eexists _, TFactRatings, rows | eexists _, (TText header), rows];
    (split; [| reflexivity]); split_and!; try done.
  intros name a b. cbn. by rewrite decide_True.
Qed.

Section Chunks.
Context {A : Type} (wrap : list A → Table) (Hwrap : columns_like wrap).
Variables (table_name : string) (total_rows : Z).
Hypothesis Htotal : total_rows ≠ 0.

Lemma load_chunk_run i chunk w d :
  faults w = [] →
  to_sql table_name (bool_decide (i = O)) chunk (db w) = Ok (tt, d) →
  ∃ w',
    with_connect
      (execute ("to_sql " +:+ table_name)
               (to_sql table_name (bool_decide (i = O)) chunk) ;;;
       commit) w = (Ok tt, w')
    ∧ faults w' = [] ∧ db w' = d ∧ durable w' = d ∧ files w' = files w.
Proof.
  intros Hf Hsql. eexists. split; [run_ok; exact Hsql |].
  split_and!; [faults_ok | done..].
Qed.

Lemma load_chunks_append ls i acc rows_loaded w :
  faults w = [] →
  db w !! table_name = Some (wrap acc) →
  durable w = db w →
  ∃ w',
    load_chunks table_name total_rows (S i) (map wrap ls) rows_loaded w
    = (Ok (rows_loaded + Z.of_nat (length (concat ls))), w')
    ∧ faults w' = []
    ∧ db w' = <[table_name := wrap (acc ++ concat ls)%list]> (db w)
    ∧ durable w' = db w'
    ∧ files w' = files w.
Proof.
  destruct Hwrap as (Hcard & Happ & _).
  revert i acc rows_loaded w.
  induction ls as [|l ls IH]; intros i acc rows_loaded w Hf Hacc Hdur.
  - exists w. cbn. rewrite app_nil_r, Z.add_0_r, insert_id by done. done.
  - cbn [map load_chunks concat].
    destruct (load_chunk_run (S i) (wrap l) w
                (<[table_name := wrap (acc ++ l)%list]> (db w)))
      as (w1 & H1 & F1 & D1 & U1 & L1); [done | |].
    { rewrite bool_decide_eq_false_2 by done. unfold to_sql.
      rewrite Hacc, Happ. reflexivity. }
    destruct (IH (S i) (acc ++ l)%list (rows_loaded + cardinality (wrap l))
                (add_log (LogRecord INFO "Progress" None) w1))
      as (w' & H' & F' & D' & U' & L').
    { done. }
    { world_simpl. rewrite D1. by rewrite lookup_insert_eq. }
    { world_simpl. congruence. }
    exists w'. split_and!; [| done | | done |].
    + eapply bind_run'; [exact H1 |]. cbv beta zeta.
      rewrite bool_decide_eq_false_2 by done.
      eapply bind_run'; [reflexivity |]. rewrite H'.
      rewrite Hcard, length_app. do 2 f_equal. lia.
    + rewrite D'. world_simpl. rewrite D1, insert_insert_eq.
      by rewrite <- app_assoc.
    + rewrite L'. world_simpl. exact L1.
Qed.

Lemma load_chunks_replace l ls w :
  faults w = [] →
  ∃ w',
    load_chunks table_name total_rows 0 (map wrap (l :: ls)) 0 w
    = (Ok (Z.of_nat (length (concat (l :: ls)))), w')
    ∧ faults w' = []
    ∧ db w' = <[table_name := wrap (concat (l :: ls))]> (db w)
    ∧ durable w' = db w'
    ∧ files w' = files w.
Proof.
  destruct Hwrap as (Hcard & Happ & _). intros Hf.
  cbn [map load_chunks concat].
  destruct (load_chunk_run 0 (wrap l) w (<[table_name := wrap l]> (db w)))
    as (w1 & H1 & F1 & D1 & U1 & L1); [done | done |].
  destruct (load_chunks_append ls 0 l (0 + cardinality (wrap l))
              (add_log (LogRecord INFO "Progress" None) w1))
    as (w' & H' & F' & D' & U' & L').
  { done. }
  { world_simpl. rewrite D1. by rewrite lookup_insert_eq. }
  { world_simpl. congruence. }
  exists w'. split_and!; [| done | | done |].
  - eapply bind_run'; [exact H1 |]. cbv beta zeta.
    rewrite bool_decide_eq_false_2 by done.
    eapply bind_run'; [reflexivity |]. rewrite H'.
    rewrite Hcard, length_app. do 2 f_equal. lia.
  - rewrite D'. world_simpl. by rewrite D1, insert_insert_eq.
  - rewrite L'. world_simpl. exact L1.
Qed.

End Chunks.





(** ** The user dimension *)

Lemma StronglySorted_lookup {A} (R : A → A → Prop) l i j x y :
  StronglySorted R l → l !! i = Some x → l !! j = Some y → (i < j)%nat → R x y.
Proof.
  intros Hs. revert i j. induction Hs as [|a l Hs IH Ha]; intros i j Hi Hj Hij.
  { done. }
  destruct j as [|j]; [lia |]. cbn in Hj. destruct i as [|i].
  - injection Hi as <-. rewrite Forall_forall in Ha.
    apply Ha. by eapply list_elem_of_lookup_2.
  - cbn in Hi. eapply IH; [done.. | lia].
Qed.

Lemma dim_user_of_Ok k u y :
  dim_user_of k u = Ok y → u = Some (du_user_id y) ∧ du_user_key y = k.
Proof.
  unfold dim_user_of, INTEGER, NOT_NULL. destruct u as [z|]; cbn; [| done].
  destruct (_ && _); cbn; [| done]. by intros [= <-].
Qed.



(** ** The ratings of the fact relation *)

Lemma round_half_away_near x :
  (inject_Z (round_half_away x) - x <= 1 # 2)%Q
  ∧ (x - inject_Z (round_half_away x) <= 1 # 2)%Q.
Proof.
  unfold round_half_away. destruct (Qle_bool 0 x).
  - pose proof (Qfloor_le (x + (1 # 2))) as H1.
    pose proof (Qlt_floor (x + (1 # 2))) as H2.
    rewrite inject_Z_plus in H2. change (inject_Z 1) with 1%Q in H2.
    split; lra.
  - pose proof (Qfloor_le (- x + (1 # 2))) as H1.
    pose proof (Qlt_floor (- x + (1 # 2))) as H2.
    rewrite inject_Z_plus in H2. change (inject_Z 1) with 1%Q in H2.
    rewrite inject_Z_opp. split; lra.
Qed.

Lemma tenths_Q (z : Z) : (z # 10 == inject_Z z * (1 # 10))%Q.
Proof. unfold Qeq, inject_Z. cbn. lia. Qed.

(** The column DECIMAL(2,1) rounds to one digit after the point. *)
Lemma fact_rating_rounded k r f q :
  fact_rating_of k r = Ok f →
  cr_rating r = Some q →
  (∃ t : Z, fr_rating f = (t # 10)%Q)
  ∧ (∀ m : Z, (q == m # 10)%Q → (fr_rating f == q)%Q).
Proof.
  unfold fact_rating_of. intros H Hq.
  apply obind_Ok in H as (uid & _ & H). apply obind_Ok in H as (mid & _ & H).
  apply obind_Ok in H as (rating & Hr & H).
  apply obind_Ok in H as (uid' & _ & H). apply obind_Ok in H as (mid' & _ & H).
  apply obind_Ok in H as (rating' & Hr' & [= <-]). cbn.
  rewrite Hq in Hr. unfold DECIMAL_2_1 in Hr.
  destruct (_ <? 100); [| done]. injection Hr as <-. injection Hr' as <-.
  destruct (round_half_away_near (q * 10)) as [H1 H2].
  set (t := round_half_away (q * 10)) in *.
  pose proof (tenths_Q t) as Ht.
  split; [by exists t |].
  intros m Hm. pose proof (tenths_Q m) as Hm'.
  assert (t = m) as ->; [| lra].
  assert (inject_Z (t - m) <= 1 # 2)%Q as G1.
  { unfold Z.sub. rewrite inject_Z_plus, inject_Z_opp. lra. }
  assert (inject_Z (m - t) <= 1 # 2)%Q as G2.
  { unfold Z.sub. rewrite inject_Z_plus, inject_Z_opp. lra. }
  unfold Qle, inject_Z in G1, G2. cbn in G1, G2. lia.
Qed.


Lemma INTEGER_Ok column v v' : INTEGER column v = Ok v' → v' = v.
Proof.
  unfold INTEGER. destruct v as [z|]; [| by intros [= <-]].
  destruct (_ && _); [by intros [= <-] | done].
Qed.

Lemma NOT_NULL_Ok {A} column (v : option A) a :
  NOT_NULL column v = Ok a → v = Some a.
Proof. unfold NOT_NULL. destruct v; [by intros [= <-] | done]. Qed.



(** ** The analytics reporter: a query that fails *)



(** ** What a stage leaves alone *)

(** [preserves P m]: a property of the catalog that holds of what the
    connection sees and of what is committed still holds of both after [m],
    whether [m] returns or raises. *)
Definition preserves {A} (P : DB → Prop) (m : M A) : Prop :=
  ∀ w, P (db w) → P (durable w) → P (db (m w).2) ∧ P (durable (m w).2).

(** [stable P sem]: the statement [sem] keeps [P] when it does not raise. *)
Definition stable {A} (P : DB → Prop) (sem : DB → outcome (A * DB)) : Prop :=
  ∀ d a d', P d → sem d = Ok (a, d') → P d'.

(** The relation [k] has the content [v] (or does not exist). *)
Definition holds (k : string) (v : option Table) (d : DB) : Prop := d !! k = v.

Section Frame.
Context {A B : Type} (P : DB → Prop).

Lemma preserves_ret (a : A) : preserves P (ret a).
Proof. by intros w. Qed.

Lemma preserves_raise (e : exn) : preserves P (raise (A := A) e).
Proof. by intros w. Qed.

Lemma preserves_bind (m : M A) (k : A → M B) :
  preserves P m → (∀ a, preserves P (k a)) → preserves P (x <- m ;; k x).
Proof.
  intros Hm Hk w H1 H2. unfold bind. specialize (Hm w H1 H2).
  destruct (m w) as [[a|e] w1]; cbn in *; destruct Hm; [by apply Hk | done].
Qed.

Lemma preserves_try (body : M A) (handler : exn → M A) :
  preserves P body → (∀ e, preserves P (handler e)) →
  preserves P (try_except body handler).
Proof.
  intros Hm Hk w H1 H2. unfold try_except. specialize (Hm w H1 H2).
  destruct (body w) as [[a|e] w1]; cbn in *; destruct Hm; [done | by apply Hk].
Qed.

Lemma preserves_round_trip sql (sem : DB → outcome (A * DB)) :
  stable P sem → preserves P (round_trip sql sem).
Proof.
  intros Hs w H1 H2. unfold round_trip. case_bool_decide; [by split |].
  destruct (sem (db w)) as [[a d]|e] eqn:E; cbn; [| by split].
  split; [exact (Hs _ _ _ H1 E) | exact H2].
Qed.

Lemma stable_query (f : DB → outcome A) : stable P (query f).
Proof. by intros d a d' H [_ ->]%query_Ok. Qed.

Lemma stable_skip (a : A) : stable P (fun d => Ok (a, d)).
Proof. by intros d a' d' H [= _ <-]. Qed.

End Frame.

Lemma preserves_log_info P msg : preserves P (log_info msg).
Proof. by intros w. Qed.

Lemma preserves_log_warning P msg : preserves P (log_warning msg).
Proof. by intros w. Qed.

Lemma preserves_log_error P msg e : preserves P (log_error msg e).
Proof. by intros w. Qed.

Lemma preserves_log_and_reraise {A} P msg e :
  preserves P (log_and_reraise (A := A) msg e).
Proof. by intros w. Qed.

Lemma preserves_rollback P : preserves P rollback.
Proof. by intros w. Qed.

Lemma preserves_commit P : preserves P commit.
Proof.
  apply preserves_bind; [apply preserves_round_trip, stable_skip|].
  by intros _ w.
Qed.

Lemma preserves_with_connect {A} P (body : M A) :
  preserves P body → preserves P (with_connect body).
Proof.
  intros H. apply preserves_bind; [apply preserves_round_trip, stable_skip|].
  intros _. apply preserves_try.
  - apply preserves_bind; [done | intros a].
    apply preserves_bind; [apply preserves_rollback | intros _; apply preserves_ret].
  - intros e. apply preserves_bind; [apply preserves_rollback |].
    intros _. apply preserves_raise.
Qed.

Lemma preserves_with_begin {A} P (body : M A) :
  preserves P body → preserves P (with_begin body).
Proof.
  intros H. apply preserves_bind; [apply preserves_round_trip, stable_skip|].
  intros _. apply preserves_try.
  - apply preserves_bind; [done | intros a].
    apply preserves_bind; [apply preserves_commit | intros _; apply preserves_ret].
  - intros e. apply preserves_bind; [apply preserves_rollback |].
    intros _. apply preserves_raise.
Qed.

Lemma preserves_for_each {A} P (l : list A) (body : A → M unit) :
  (∀ x, preserves P (body x)) → preserves P (for_each l body).
Proof.
  intros H. induction l as [|x l IH]; [apply preserves_ret |].
  apply preserves_bind; [apply H | by intros _].
Qed.

(** Statements that write one relation leave the others as they are. *)
Lemma stable_DROP_TABLE_IF_EXISTS k v relation :
  k ≠ relation → stable (holds k v) (DROP_TABLE_IF_EXISTS relation).
Proof.
  intros Hk d a d' H [= _ <-]. unfold holds in *. by rewrite lookup_delete_ne.
Qed.

Lemma stable_CREATE_TABLE k v relation content :
  k ≠ relation → stable (holds k v) (CREATE_TABLE relation content).
Proof.
  intros Hk d a d' H [_ ->]%CREATE_TABLE_Ok. unfold holds in *.
  by rewrite lookup_insert_ne.
Qed.

Lemma stable_INSERT_INTO {S A} k v relation (columns : Table → option (list A))
  wrap (check : Z → S → outcome A) constraint source :
  k ≠ relation →
  stable (holds k v) (INSERT_INTO relation columns wrap check constraint source).
Proof.
  intros Hk d a d' H. unfold INSERT_INTO. intros (old & _ & H')%obind_Ok.
  apply obind_Ok in H' as (all & _ & [= _ <-]).
  unfold holds in *. by rewrite lookup_insert_ne.
Qed.

Lemma stable_to_sql k v table_name replace chunk :
  k ≠ table_name → stable (holds k v) (to_sql table_name replace chunk).
Proof.
  intros Hk d a d' H. unfold to_sql, holds in *.
  destruct replace; [intros [= _ <-]; by rewrite lookup_insert_ne |].
  destruct (d !! table_name) as [old|].
  - intros (t & _ & [= _ <-])%obind_Ok. by rewrite lookup_insert_ne.
  - intros [= _ <-]. by rewrite lookup_insert_ne.
Qed.

Lemma stable_from {A B} P (relation : string) (columns : Table → option (list A))
  (k : list A → DB → outcome (B * DB)) :
  (∀ rows, stable P (k rows)) →
  stable P (fun d => rows <~ FROM relation columns d ;; k rows d).
Proof. intros Hk d a d' H (rows & _ & H')%obind_Ok. by eapply Hk. Qed.

Lemma stable_create_cleaned_movies k v :
  k ≠ "cleaned_movies" → stable (holds k v) create_cleaned_movies.
Proof.
  intros Hk. apply stable_from. intros rows. by apply stable_CREATE_TABLE.
Qed.

Lemma stable_create_cleaned_ratings k v :
  k ≠ "cleaned_ratings" → stable (holds k v) create_cleaned_ratings.
Proof.
  intros Hk. apply stable_from. intros rows d a d' H (us & _ & H')%obind_Ok.
  by eapply stable_CREATE_TABLE.
Qed.

Lemma stable_insert_bridge k v :
  k ≠ "bridge_movie_genres" → stable (holds k v) insert_bridge.
Proof.
  intros Hk. apply stable_from. intros movies. apply stable_from. intros genres.
  by apply stable_INSERT_INTO.
Qed.

(** A step that does not touch the world. *)
Lemma preserves_pure {A} P (r : outcome A) : preserves P (fun w => (r, w)).
Proof. by intros w. Qed.

Ltac frame :=
  repeat (cbv beta;
    lazymatch goal with
    | |- preserves _ (bind _ _) => apply preserves_bind; [| intros ?]
    | |- preserves _ (try_except _ _) => apply preserves_try; [| intros ?]
    | |- preserves _ (with_connect _) => apply preserves_with_connect
    | |- preserves _ (with_begin _) => apply preserves_with_begin
    | |- preserves _ (execute _ _) => apply preserves_round_trip
    | |- preserves _ commit => apply preserves_commit
    | |- preserves _ (log_info _) => apply preserves_log_info
    | |- preserves _ (log_warning _) => apply preserves_log_warning
    | |- preserves _ (log_error _ _) => apply preserves_log_error
    | |- preserves _ (log_and_reraise _ _) => apply preserves_log_and_reraise
    | |- preserves _ (ret _) => apply preserves_ret
    | |- preserves _ (raise _) => apply preserves_raise
    | |- preserves _ (for_each _ _) => apply preserves_for_each; intros ?
    | |- preserves _ (if ?b then _ else _) => destruct b
    | |- stable _ _ =>
        first [ apply stable_query
              | apply stable_DROP_TABLE_IF_EXISTS; assumption
              | apply stable_CREATE_TABLE; assumption
              | apply stable_to_sql; assumption
              | apply stable_create_cleaned_movies; assumption
              | apply stable_create_cleaned_ratings; assumption
              | apply stable_insert_bridge; assumption
              | apply stable_INSERT_INTO; assumption
              | apply stable_from; intros ? ]
    end).

(** *** The transformer *)

Lemma preserves_create_engine_connection P : preserves P create_engine_connection.
Proof. unfold create_engine_connection. frame. Qed.

Lemma preserves_clean_movies_table k v :
  k ≠ "cleaned_movies" → preserves (holds k v) clean_movies_table.
Proof.
  intros Hk. unfold clean_movies_table, movies_nulls, movies_duplicates. frame.
Qed.

Lemma preserves_clean_ratings_table k v :
  k ≠ "cleaned_ratings" → preserves (holds k v) clean_ratings_table.
Proof.
  intros Hk. unfold clean_ratings_table, ratings_nulls, ratings_duplicates.
  frame.
Qed.

Lemma preserves_show_sample_data P : preserves P show_sample_data.
Proof. unfold show_sample_data, sample_movies, sample_ratings. frame. Qed.

Lemma preserves_transform_main k v :
  k ≠ "cleaned_movies" → k ≠ "cleaned_ratings" →
  preserves (holds k v) transform_main.
Proof.
  intros H1 H2. unfold transform_main. frame.
  - apply preserves_create_engine_connection.
  - by apply preserves_clean_movies_table.
  - by apply preserves_clean_ratings_table.
  - apply preserves_show_sample_data.
Qed.

(** *** The loader *)

Lemma preserves_load_chunks k v table_name total_rows chunks i rows_loaded :
  k ≠ table_name →
  preserves (holds k v) (load_chunks table_name total_rows i chunks rows_loaded).
Proof.
  intros Hk. revert i rows_loaded.
  induction chunks as [|chunk chunks IH]; intros i rows_loaded;
    cbn [load_chunks]; frame. apply IH.
Qed.

Lemma preserves_load_csv_to_staging k v csv_path table_name chunksize :
  k ≠ table_name →
  preserves (holds k v) (load_csv_to_staging csv_path table_name chunksize).
Proof.
  intros Hk. unfold load_csv_to_staging. frame.
  - intros w. by destruct (files w !! csv_path).
  - by apply preserves_load_chunks.
Qed.

Lemma preserves_verify_staging_tables P : preserves P verify_staging_tables.
Proof. unfold verify_staging_tables. frame. Qed.

Lemma preserves_load_main k v :
  k ≠ "staging_movies" → k ≠ "staging_ratings" →
  preserves (holds k v) load_main.
Proof.
  intros H1 H2. unfold load_main. frame.
  - apply preserves_create_engine_connection.
  - by apply preserves_load_csv_to_staging.
  - by apply preserves_load_csv_to_staging.
  - apply preserves_verify_staging_tables.
Qed.

(** *** The warehouse builder *)

Lemma preserves_create_dim_movies k v :
  k ≠ "dim_movies" → preserves (holds k v) create_dim_movies.
Proof. intros Hk. unfold create_dim_movies, insert_dim_movies. frame. Qed.

Lemma preserves_create_dim_genres k v :
  k ≠ "dim_genres" → preserves (holds k v) create_dim_genres.
Proof.
  intros Hk. unfold create_dim_genres, insert_dim_genres, genre_names. frame.
Qed.

Lemma preserves_create_dim_users k v :
  k ≠ "dim_users" → preserves (holds k v) create_dim_users.
Proof. intros Hk. unfold create_dim_users, insert_dim_users. frame. Qed.

Lemma preserves_create_bridge_movie_genres k v :
  k ≠ "bridge_movie_genres" → preserves (holds k v) create_bridge_movie_genres.
Proof. intros Hk. unfold create_bridge_movie_genres. frame. Qed.

Lemma preserves_create_fact_ratings k v :
  k ≠ "fact_ratings" → preserves (holds k v) create_fact_ratings.
Proof. intros Hk. unfold create_fact_ratings, insert_fact_ratings. frame. Qed.

Lemma preserves_create_indexes P : preserves P create_indexes.
Proof. unfold create_indexes. frame. Qed.

Lemma preserves_verify_warehouse P : preserves P verify_warehouse.
Proof. unfold verify_warehouse. frame. Qed.

Lemma preserves_warehouse_main k v :
  k ∉ warehouse_tables → preserves (holds k v) warehouse_main.
Proof.
  unfold warehouse_tables. rewrite !not_elem_of_cons.
  intros (H1 & H2 & H3 & H4 & H5 & _). unfold warehouse_main. frame.
  - apply preserves_create_engine_connection.
  - by apply preserves_create_dim_movies.
  - by apply preserves_create_dim_genres.
  - by apply preserves_create_dim_users.
  - by apply preserves_create_bridge_movie_genres.
  - by apply preserves_create_fact_ratings.
  - apply preserves_create_indexes.
  - apply preserves_verify_warehouse.
Qed.

(** *** The quality gate and the analytics reporter *)

Section ReadOnly.
Variable scalar_of : string → DB → outcome (option Q).
Variable frame_of : string → DB → outcome DataFrame.
Variable P : DB → Prop.

Lemma preserves_run_check self c : preserves P (run_check scalar_of self c).
Proof.
  unfold run_check. frame.
  intros w. by destruct (expected_condition c _).
Qed.

Lemma preserves_run_checks cs checker :
  preserves P (run_checks scalar_of cs checker).
Proof.
  revert checker. induction cs as [|c cs IH]; intros checker; cbn [run_checks];
    frame; [apply preserves_run_check | apply IH].
Qed.

Lemma preserves_report checker : preserves P (report checker).
Proof. unfold report, get_summary. frame. Qed.

Lemma preserves_quality_main : preserves P (quality_main scalar_of).
Proof.
  unfold quality_main, run_movies_quality_checks, run_ratings_quality_checks,
    run_cross_table_checks. frame;
    first [apply preserves_create_engine_connection | apply preserves_run_checks
          | apply preserves_report].
Qed.

Lemma preserves_run_query_to_csv sql output_filename description :
  preserves P (run_query_to_csv frame_of sql output_filename description).
Proof.
  unfold run_query_to_csv, read_sql. frame. by intros w.
Qed.

Lemma preserves_analytics_main : preserves P (analytics_main frame_of).
Proof.
  unfold analytics_main, top_10_movies_by_avg_rating,
    least_10_movies_by_avg_rating, top_5_genres_by_num_ratings,
    least_5_genres_by_num_ratings. frame;
    first [apply preserves_create_engine_connection
          | apply preserves_run_query_to_csv].
Qed.

End ReadOnly.










